(** * ChatANON: the detection / text reconciliation engine

    A shallow embedding of the front-end code that keeps the canonical
    text of a message, its detection array and the per-message set of
    inactive occurrences consistent:

    - [TextSelectionReplacer.tsx]: [getPlaceholderType], [handleReplace]
      (manual tagging) and [handleReplaceAll];
    - [InteractiveAnonymizedText.tsx]: [replacementMap],
      [positionToDetection] and [processedContent];
    - [ChatInterface]: [handleSubmit] (the [complete] branch),
      [applyInactiveOccurrences], [handleToggleOccurrence],
      [handleToggleAllOccurrences], [handleToggleEntity];
    - [ResultDisplay]: [handleSliderChange], [countOccurrences], the
      list of detections ([detectionsArray], the instance label and the
      toggle of an item) and [getConfidenceColor];
    - [exportUtils.ts]: the active and inactive counts, the confidence
      ranges and the quoting of a text column of the CSV file;
    - [useAnonymization.ts]: [anonymizeTextStream] and
      [useChatMessages];
    - [ChatInterface]: the whole of [handleSubmit] with the callback it
      passes to the stream, [copyToClipboard] and the handlers
      [handleReplace] and [handleReplaceAll] of a message;
    - [InstructionPanel]: [handleSaveInstructions].

    Modelling conventions.
    - A JavaScript string is a [list ascii], one character per code
      unit; [length] is the length of the list.  The strings are those
      of code units below 256; the [i] flag of a regular expression
      compares the upper-case forms of the code units, those of the
      Latin-1 letters included.
    - A JavaScript number that holds a count, an index or the number of
      a placeholder is a [nat]; a confidence or a threshold is a
      binary64 [float], compared and multiplied by the primitive
      operations.
    - [Set<number>] is [gset nat], [Map<number, V>] is [gmap nat V].
    - [-1] returned by [indexOf] / [findIndex] is [None]. *)

From Stdlib Require Import Ascii String List Bool Arith Lia ZArith.
From Stdlib Require Import Floats DecimalNat.
From stdpp Require Import base option gmap sets list strings sorting.

Set Default Proof Using "Type".
Set Warnings "-inexact-float,-clear-no-such-hyp".
Open Scope list_scope.

Abbreviation jsstring := (list ascii).

(** String literals of the examples. *)
Definition str (s : string) : jsstring := list_ascii_of_string s.

(** ** Detections *)

(** [PIIDetection] of [types/index.ts]; [start_position] and
    [end_position] are never read by the engine and are left out. *)
Record Detection := mkDetection {
  type : jsstring;
  original : jsstring;
  replacement : jsstring;
  confidence : float;
  explanation : option jsstring;
  i : option nat;
}.

(** [{...d, i: v}] *)
Definition with_i (d : Detection) (v : option nat) : Detection :=
  mkDetection (type d) (original d) (replacement d) (confidence d)
              (explanation d) v.

(** [detection.i ?? idx] *)
Definition occurrenceIndex (d : Detection) (idx : nat) : nat :=
  default idx (i d).

(** The occurrence-index invariant of the data model: array index equals
    [i]. *)
Definition indexInvariant (detections : list Detection) : Prop :=
  ∀ k d, detections !! k = Some d → i d = Some k.

(** ** Occurrence activation state *)

Module Activation.

(** [inactiveOccurrences.get(index) || new Set()]: the set handed to the
    message component and to [ResultDisplay]. *)
Definition inactiveOf (st : gmap nat (gset nat)) (messageIndex : nat)
  : gset nat :=
  default ∅ (st !! messageIndex).

(** One [messageInactives.delete(k)] / [messageInactives.add(k)]. *)
Definition toggle (s : gset nat) (occurrenceIndex : nat) (makeActive : bool)
  : gset nat :=
  if makeActive then s ∖ {[occurrenceIndex]} else {[occurrenceIndex]} ∪ s.

(** The state updater passed to [setInactiveOccurrences] by
    [handleToggleOccurrence]. *)
Definition handleToggleOccurrence
    (messageIndex occurrenceIndex : nat) (makeActive : bool)
    (prev : gmap nat (gset nat)) : gmap nat (gset nat) :=
  let messageInactives := toggle (inactiveOf prev messageIndex)
                                 occurrenceIndex makeActive in
  if decide (size messageInactives = 0)
  then delete messageIndex prev
  else <[messageIndex := messageInactives]> prev.

(** [confidencePercent < value] *)
Definition belowThreshold (d : Detection) (value : float) : bool :=
  (confidence d * 100 <? value)%float.

(** [handleSliderChange]: the calls of [onToggleOccurrence] it makes, in
    order.  [inactiveOccurrences] is the set the component was rendered
    with. *)
Definition handleSliderChange
    (detected_pii : list Detection) (inactiveOccurrences : gset nat)
    (value : float) : list (nat * bool) :=
  let reset :=
    mjoin (imap (λ idx detection,
      let occurrenceIndex := occurrenceIndex detection idx in
      if bool_decide (occurrenceIndex ∈ inactiveOccurrences)
      then [(occurrenceIndex, true)] else []) detected_pii) in
  let deactivate :=
    if (0 <? value)%float then
      mjoin (imap (λ idx detection,
        let occurrenceIndex := occurrenceIndex detection idx in
        if belowThreshold detection value
        then [(occurrenceIndex, false)] else []) detected_pii)
    else [] in
  reset ++ deactivate.

(** The queued state updates run in order. *)
Definition runToggles (messageIndex : nat) (calls : list (nat * bool))
    (st : gmap nat (gset nat)) : gmap nat (gset nat) :=
  foldl (λ st c, handleToggleOccurrence messageIndex c.1 c.2 st) st calls.

(** [applyConfidenceThreshold(T)] on message [messageIndex]. *)
Definition applyConfidenceThreshold
    (messageIndex : nat) (detected_pii : list Detection) (value : float)
    (st : gmap nat (gset nat)) : gmap nat (gset nat) :=
  runToggles messageIndex
    (handleSliderChange detected_pii (inactiveOf st messageIndex) value) st.

(** The occurrence indices of a detection array, and those of the
    detections below a threshold. *)
Definition indicesOf (detected_pii : list Detection) : gset nat :=
  list_to_set (imap (λ idx d, occurrenceIndex d idx) detected_pii).

Definition belowSet (detected_pii : list Detection) (value : float)
  : gset nat :=
  list_to_set
    (mjoin (imap (λ idx d,
       if belowThreshold d value then [occurrenceIndex d idx] else [])
       detected_pii)).

End Activation.

(** ** JavaScript string primitives *)

Module JsString.

(** Does [p] match at the head of [s], characters compared by [eqc]? *)
Fixpoint prefixBy (eqc : ascii → ascii → bool) (p s : jsstring) : bool :=
  match p, s with
  | [], _ => true
  | a :: p', b :: s' => eqc a b && prefixBy eqc p' s'
  | _ :: _, [] => false
  end.

(** [s.startsWith(p)] *)
Definition startsWith (p s : jsstring) : bool := prefixBy Ascii.eqb p s.

(** Canonicalize of a regular expression with the flag [i] and without
    the flag [u]: the code unit of [ch.toUpperCase()] when that is one
    code unit and does not take a code unit above 127 into the ASCII
    range, the code unit of [ch] otherwise.  On the modelled code units
    the letters a-z and the Latin-1 letters 224-254 (the division sign
    247 apart) go 32 down; the micro sign 181 and the y with diaeresis
    255 go to the code units 924 and 376, beyond the modelled ones; the
    sharp s 223, whose upper case is two code units, and every other
    code unit stay. *)
Definition canonicalize (c : ascii) : nat :=
  let n := nat_of_ascii c in
  if (97 <=? n) && (n <=? 122) then n - 32
  else if (224 <=? n) && (n <=? 254) && negb (n =? 247) then n - 32
  else if n =? 181 then 924
  else if n =? 255 then 376
  else n.

(** Two code units match under the flag [i] when their canonical forms
    are the same. *)
Definition eqIgnoreCase (a b : ascii) : bool :=
  canonicalize a =? canonicalize b.

(** First offset at or after [k] where [p] matches; [s] is the text from
    offset [k] on. *)
Fixpoint findAt (p s : jsstring) (k : nat) : option nat :=
  if startsWith p s then Some k
  else match s with
       | [] => None
       | _ :: s' => findAt p s' (S k)
       end.

(** [s.indexOf(p)] and [s.indexOf(p, from)] *)
Definition indexOf (p s : jsstring) : option nat := findAt p s 0.

Definition indexOfFrom (p s : jsstring) (from : nat) : option nat :=
  findAt p (drop from s) (from `min` length s).

(** [s.substring(a, b)] for [a <= b] *)
Definition substring (s : jsstring) (a b : nat) : jsstring :=
  take (b - a) (drop a s).

(** GetSubstitution for a match without capture groups: [$$], [$&],
    [$`] and [$'] are expanded, every other character (a [$] before
    anything else included) is copied. *)
Fixpoint getSubstitution (matched whole : jsstring) (position : nat)
    (replaceValue : jsstring) : jsstring :=
  match replaceValue with
  | [] => []
  | c :: rest =>
    if Ascii.eqb c "$" then
      match rest with
      | c2 :: rest' =>
        if Ascii.eqb c2 "$" then
          c2 :: getSubstitution matched whole position rest'
        else if Ascii.eqb c2 "&" then
          matched ++ getSubstitution matched whole position rest'
        else if Ascii.eqb c2 "`" then
          take position whole ++ getSubstitution matched whole position rest'
        else if Ascii.eqb c2 "'" then
          drop (position + length matched) whole
            ++ getSubstitution matched whole position rest'
        else c :: getSubstitution matched whole position rest
      | [] => [c]
      end
    else c :: getSubstitution matched whole position rest
  end.

(** [s.replace(searchValue, replaceValue)] with a string pattern: the
    first occurrence only. *)
Definition replace (searchValue replaceValue s : jsstring) : jsstring :=
  match indexOf searchValue s with
  | None => s
  | Some pos =>
    take pos s
      ++ getSubstitution searchValue s pos replaceValue
      ++ drop (pos + length searchValue) s
  end.

(** Decimal digits: [`${n}`] and [parseInt] on a run of digits. *)
Definition isDigit (c : ascii) : bool :=
  let n := nat_of_ascii c in (48 <=? n) && (n <=? 57).

Definition digitValue (c : ascii) : nat := nat_of_ascii c - 48.

Definition parseInt (digits : jsstring) : nat :=
  foldl (λ acc c, 10 * acc + digitValue c) 0 digits.

Fixpoint uintChars (u : Decimal.uint) : jsstring :=
  match u with
  | Decimal.Nil => []
  | Decimal.D0 u => "0"%char :: uintChars u
  | Decimal.D1 u => "1"%char :: uintChars u
  | Decimal.D2 u => "2"%char :: uintChars u
  | Decimal.D3 u => "3"%char :: uintChars u
  | Decimal.D4 u => "4"%char :: uintChars u
  | Decimal.D5 u => "5"%char :: uintChars u
  | Decimal.D6 u => "6"%char :: uintChars u
  | Decimal.D7 u => "7"%char :: uintChars u
  | Decimal.D8 u => "8"%char :: uintChars u
  | Decimal.D9 u => "9"%char :: uintChars u
  end.

Definition numberToString (n : nat) : jsstring := uintChars (Nat.to_uint n).

End JsString.

(** ** Regular expressions *)

Module Regex.
Import JsString.

(** The characters of the class [[.*+?^${}()|[\]\\]]. *)
Definition isSyntaxChar (c : ascii) : bool :=
  bool_decide (c ∈ str ".*+?^${}()|[]\").

(** [s.replace(/[.*+?^${}()|[\]\\]/g, '\\$&')]: a backslash before every
    syntax character. *)
Fixpoint escapeRegExp (s : jsstring) : jsstring :=
  match s with
  | [] => []
  | c :: s' =>
    if isSyntaxChar c then "\"%char :: c :: escapeRegExp s'
    else c :: escapeRegExp s'
  end.

(** The matcher of [new RegExp(pattern, flags)] for the patterns made of
    plain characters and escaped syntax characters: the length of the
    match at the head of [s], if there is one.  A bare syntax character,
    or a backslash before anything else, is outside this fragment and
    matches nothing. *)
Fixpoint matchPattern (ignoreCase : bool) (pattern s : jsstring)
  : option nat :=
  let eqc := if ignoreCase then eqIgnoreCase else Ascii.eqb in
  match pattern with
  | [] => Some 0
  | c :: pattern' =>
    if Ascii.eqb c "\" then
      match pattern' with
      | c2 :: pattern'' =>
        match s with
        | x :: s' =>
          if isSyntaxChar c2 && eqc c2 x
          then S <$> matchPattern ignoreCase pattern'' s'
          else None
        | [] => None
        end
      | [] => None
      end
    else if isSyntaxChar c then None
    else
      match s with
      | x :: s' =>
        if eqc c x then S <$> matchPattern ignoreCase pattern' s' else None
      | [] => None
      end
  end.

(** [regex.exec(text)] with [lastIndex = k]: the leftmost match at or
    after offset [k], as [(match.index, match[0].length)]; [s] is the text
    from offset [k] on. *)
Fixpoint exec (m : jsstring → option nat) (s : jsstring) (k : nat)
  : option (nat * nat) :=
  match m s with
  | Some len => Some (k, len)
  | None =>
    match s with
    | [] => None
    | _ :: s' => exec m s' (S k)
    end
  end.

(** The matches of a global regular expression over a text, left to
    right and without overlap, as [(match.index, match[0].length)]: what
    the loops over [regex.exec] and over [indexOf(p, searchFrom)] visit,
    and what [replace] substitutes ([scanRegex_exec] below unfolds the
    scan into such a loop).
    [m] gives the length of the match at the head of a suffix; [s] is
    the text from offset [k] on and the next [skip] characters belong to
    the previous match. *)
Fixpoint scanRegex (m : jsstring → option nat) (s : jsstring)
    (k skip : nat) : list (nat * nat) :=
  match s with
  | [] =>
    match skip, m [] with
    | 0, Some len => [(k, len)]
    | _, _ => []
    end
  | _ :: s' =>
    match skip with
    | S skip' => scanRegex m s' (S k) skip'
    | 0 =>
      match m s with
      | Some len => (k, len) :: scanRegex m s' (S k) (len - 1)
      | None => scanRegex m s' (S k) 0
      end
    end
  end.

Definition matches (m : jsstring → option nat) (text : jsstring)
  : list (nat * nat) :=
  scanRegex m text 0 0.

(** [text.replace(regex, replaceValue)] for a global regex: the pieces
    between the matches and the substitutions, accumulated from
    [nextSourcePosition]. *)
Fixpoint spliceMatches (whole replaceValue : jsstring)
    (results : list (nat * nat)) (nextSourcePosition : nat) : jsstring :=
  match results with
  | [] => drop nextSourcePosition whole
  | (position, len) :: results' =>
    substring whole nextSourcePosition position
      ++ getSubstitution (substring whole position (position + len))
                         whole position replaceValue
      ++ spliceMatches whole replaceValue results' (position + len)
  end.

Definition replaceGlobal (m : jsstring → option nat)
    (replaceValue text : jsstring) : jsstring :=
  spliceMatches text replaceValue (matches m text) 0.

(** [/\[([A-Z_0-9]+)\]/]: the class, and the match at the head of [s]. *)
Definition isPlaceholderChar (c : ascii) : bool :=
  let n := nat_of_ascii c in
  ((65 <=? n) && (n <=? 90)) || (n =? 95) || ((48 <=? n) && (n <=? 57)).

Fixpoint classRun (cls : ascii → bool) (s : jsstring) : nat :=
  match s with
  | c :: s' => if cls c then S (classRun cls s') else 0
  | [] => 0
  end.

Definition matchPlaceholder (s : jsstring) : option nat :=
  match s with
  | c :: s' =>
    if Ascii.eqb c "[" then
      let run := classRun isPlaceholderChar s' in
      match run, drop run s' with
      | S _, c' :: _ => if Ascii.eqb c' "]" then Some (run + 2) else None
      | _, _ => None
      end
    else None
  | [] => None
  end.

(** The matches of [/\[([A-Z_0-9]+)\]/g] as [(match.index, match[0])]. *)
Definition placeholderMatches (text : jsstring) : list (nat * jsstring) :=
  (λ r, (r.1, substring text r.1 (r.1 + r.2)))
    <$> matches matchPlaceholder text.

(** [new RegExp(`\\[${placeholderType}_(\\d+)\\]`, 'g')]: the match at the
    head of [s]; the digits are [s.substring(prefix, len - 1)]. *)
Definition matchNumbered (placeholderType s : jsstring) : option nat :=
  let pre := "["%char :: placeholderType ++ ["_"%char] in
  if startsWith pre s then
    let rest := drop (length pre) s in
    let run := classRun isDigit rest in
    match run, drop run rest with
    | S _, c' :: _ =>
      if Ascii.eqb c' "]" then Some (length pre + run + 1) else None
    | _, _ => None
    end
  else None.

End Regex.

(** ** Manual tagging and Replace-All ([TextSelectionReplacer.tsx]) *)

Module Tagging.
Import JsString Regex.

(** The table of [getPlaceholderType].  Entity types are the strings of
    the picker; property names inherited from [Object.prototype] are not
    modelled. *)
Definition typeMapping : list (jsstring * jsstring) :=
  [ (str "name", str "NAME"); (str "email", str "EMAIL");
    (str "phone", str "PHONE"); (str "address", str "ADDRESS");
    (str "ssn", str "SSN"); (str "org", str "ORG");
    (str "birth-date", str "BIRTH_DATE"); (str "id", str "ID");
    (str "proprietary", str "PROPRIETARY");
    (str "location", str "LOCATION"); (str "product", str "PRODUCT");
    (str "service", str "SERVICE"); (str "project", str "PROJECT") ].

Definition getPlaceholderType (entityType : jsstring) : jsstring :=
  match list_find (λ kv, kv.1 = entityType) typeMapping with
  | Some (_, kv) => kv.2
  | None => str "UNKNOWN"
  end.

(** [`[${placeholderType}_`] and [`[${placeholderType}_${n}]`] *)
Definition placeholderPrefix (placeholderType : jsstring) : jsstring :=
  "["%char :: placeholderType ++ ["_"%char].

Definition placeholderOf (placeholderType : jsstring) (n : nat) : jsstring :=
  placeholderPrefix placeholderType ++ numberToString n ++ ["]"%char].

(** The numbers of the tokens [[P_<n>]] found in the text. *)
Definition existingNumbers (placeholderType anonymizedText : jsstring)
  : gset nat :=
  list_to_set
    ((λ r, parseInt (substring anonymizedText
                       (r.1 + length (placeholderPrefix placeholderType))
                       (r.1 + r.2 - 1)))
       <$> matches (matchNumbered placeholderType) anonymizedText).

(** [while (existingNumbers.has(placeholderNumber)) placeholderNumber++]
    from [n]; [fuel] bounds the number of increments, and
    [size existingNumbers] of them are enough. *)
Fixpoint nextFree (used : gset nat) (fuel n : nat) : nat :=
  if decide (n ∈ used) then
    match fuel with
    | 0 => n
    | S fuel' => nextFree used fuel' (S n)
    end
  else n.

(** [d.original === selection.text &&
     d.replacement.startsWith(`[${placeholderType}_`)] *)
Definition taggedAs (placeholderType selected : jsstring) (d : Detection)
  : bool :=
  bool_decide (original d = selected)
    && startsWith (placeholderPrefix placeholderType) (replacement d).

(** The placeholder chosen by [handleReplace] and [handleReplaceAll]:
    that of the first detection of the same text and type, else a fresh
    one. *)
Definition choosePlaceholder (anonymizedText : jsstring)
    (detections : list Detection) (placeholderType selected : jsstring)
  : jsstring :=
  match find (taggedAs placeholderType selected) detections with
  | Some detection => replacement detection
  | None =>
    let used := existingNumbers placeholderType anonymizedText in
    placeholderOf placeholderType (nextFree used (size used) 1)
  end.

(** The detection literal spliced into the array. *)
Definition manualDetection (selectedEntityType selected placeholder : jsstring)
    (insertIndex : nat) : Detection :=
  {| type := selectedEntityType;
     original := selected;
     replacement := placeholder;
     confidence := 1;
     explanation := Some (str "Manually tagged as " ++ selectedEntityType);
     i := Some insertIndex |}.

(** [detectionPos !== -1 && detectionPos < position], where [position]
    itself may be [-1]. *)
Definition appearsBefore (newText : jsstring) (position : option nat)
    (d : Detection) : bool :=
  match indexOf (replacement d) newText, position with
  | Some detectionPos, Some pos => detectionPos <? pos
  | _, _ => false
  end.

(** The loop that finds [insertIndex]: it stops at the first detection
    that does not appear before [position]. *)
Fixpoint insertIndexLoop (newText : jsstring) (position : option nat)
    (rest : list Detection) (idx insertIndex : nat) : nat :=
  match rest with
  | [] => insertIndex
  | d :: rest' =>
    if appearsBefore newText position d
    then insertIndexLoop newText position rest' (S idx) (S idx)
    else insertIndex
  end.

Definition findInsertIndex (newText : jsstring) (position : option nat)
    (newDetections : list Detection) : nat :=
  insertIndexLoop newText position newDetections 0 0.

(** [if (newDetections[k].i !== undefined) newDetections[k].i = k] for the
    entries of [tail], the first of which is at index [from]. *)
Definition renumberFrom (from : nat) (tail : list Detection)
  : list Detection :=
  imap (λ k d, match i d with
               | Some _ => with_i d (Some (from + k))
               | None => d
               end) tail.

(** [splice(insertIndex, 0, {...})] followed by the renumbering loop. *)
Definition insertManual (selectedEntityType selected placeholder : jsstring)
    (insertIndex : nat) (newDetections : list Detection) : list Detection :=
  take insertIndex newDetections
    ++ manualDetection selectedEntityType selected placeholder insertIndex
    :: renumberFrom (S insertIndex) (drop insertIndex newDetections).

(** [handleReplace]: the text and the detections handed to [onReplace];
    [None] when the guard [selection && selectedEntityType] fails.
    [selected] is [selection.text], which [handleTextSelection] trims and
    never leaves empty. *)
Definition handleReplace (anonymizedText : jsstring)
    (detections : list Detection) (selected selectedEntityType : jsstring)
  : option (jsstring * list Detection) :=
  match selectedEntityType with
  | [] => None
  | _ :: _ =>
    let placeholderType := getPlaceholderType selectedEntityType in
    let existingPlaceholder :=
      choosePlaceholder anonymizedText detections placeholderType selected in
    let newText := replace selected existingPlaceholder anonymizedText in
    let newDetections := detections in
    match find (taggedAs placeholderType selected) newDetections with
    | Some _ => Some (newText, newDetections)
    | None =>
      let position := indexOf existingPlaceholder newText in
      let insertIndex := findInsertIndex newText position newDetections in
      Some (newText,
            insertManual selectedEntityType selected existingPlaceholder
                         insertIndex newDetections)
    end
  end.

(** The offsets collected by the loop over
    [newText.indexOf(existingPlaceholder, searchFrom)] with
    [searchFrom = pos + existingPlaceholder.length]; the placeholder
    starts with a bracket and is never empty. *)
Definition matchLiteral (p s : jsstring) : option nat :=
  if startsWith p s then Some (length p) else None.

Definition occurrencesOf (p text : jsstring) : list nat :=
  fst <$> matches (matchLiteral p) text.

(** The body of [replacementPositions.forEach]. *)
Definition replaceAllStep (newText selectedEntityType selected
    existingPlaceholder : jsstring) (newDetections : list Detection)
    (position : nat) : list Detection :=
  let exists_ :=
    existsb (λ d,
      bool_decide (original d = selected)
        && bool_decide (replacement d = existingPlaceholder)
        && bool_decide (indexOf (replacement d) newText = Some position))
      newDetections in
  if exists_ then newDetections
  else
    let insertIndex :=
      findInsertIndex newText (Some position) newDetections in
    insertManual selectedEntityType selected existingPlaceholder
                 insertIndex newDetections.

(** [handleReplaceAll]: the text and the detections handed to
    [onReplaceAll]. *)
Definition handleReplaceAll (anonymizedText : jsstring)
    (detections : list Detection) (selected selectedEntityType : jsstring)
  : option (jsstring * list Detection) :=
  match selectedEntityType with
  | [] => None
  | _ :: _ =>
    let placeholderType := getPlaceholderType selectedEntityType in
    let existingPlaceholder :=
      choosePlaceholder anonymizedText detections placeholderType selected in
    let regex := matchPattern true (escapeRegExp selected) in
    let newText := replaceGlobal regex existingPlaceholder anonymizedText in
    let replacementPositions := occurrencesOf existingPlaceholder newText in
    Some (newText,
          foldl (replaceAllStep newText selectedEntityType selected
                                existingPlaceholder)
                detections replacementPositions)
  end.

End Tagging.

(** ** [Array.prototype.sort] with a comparator: a stable insertion sort *)

Section Sort.
Context {A : Type} (compareFn : A → A → Z).

Fixpoint insertSorted (x : A) (l : list A) : list A :=
  match l with
  | [] => [x]
  | y :: l' =>
    if (compareFn x y <=? 0)%Z then x :: l else y :: insertSorted x l'
  end.

Definition sortBy (l : list A) : list A := foldr insertSorted [] l.
End Sort.

(** ** Streaming reconstruction ([handleSubmit], the [complete] chunk) *)

Module Streaming.
Import JsString Regex.

(** A string is truthy when it is not empty. *)
Definition truthy (s : jsstring) : bool :=
  match s with [] => false | _ :: _ => true end.

(** [(a, b) => b.original.length - a.original.length] *)
Definition byOriginalLength (a b : Detection) : Z :=
  (Z.of_nat (length (original b)) - Z.of_nat (length (original a)))%Z.

(** [detection.original && detection.replacement] *)
Definition usable (detection : Detection) : bool :=
  truthy (original detection) && truthy (replacement detection).

(** The fallback that constructs the text from [streamingContent] and the
    detections. *)
Definition reconstruct (streamingContent : jsstring)
    (detections : list Detection) : jsstring :=
  let sortedDetections := sortBy byOriginalLength detections in
  foldl (λ finalContent detection,
           if usable detection
           then
             let regex :=
               matchPattern true (escapeRegExp (original detection)) in
             replaceGlobal regex (replacement detection) finalContent
           else finalContent)
        streamingContent sortedDetections.

(** [contentToStore] of the [complete] branch.  [anonymized_text] and
    [detected_pii] are [None] when the chunk does not carry them. *)
Definition contentToStore (anonymized_text : option jsstring)
    (detected_pii : option (list Detection)) (streamingContent : jsstring)
  : jsstring :=
  let finalContent := default [] anonymized_text in
  let finalContent :=
    match detected_pii with
    | Some (d :: ds) =>
      if truthy finalContent then finalContent
      else reconstruct streamingContent (d :: ds)
    | _ => finalContent
    end in
  if truthy finalContent then finalContent else streamingContent.

End Streaming.

(** ** Export reversal ([applyInactiveOccurrences]) *)

Module ExportReversal.
Import JsString Regex.

(** The [n]-th result (from 0) of the loop
    [while ((match = regex.exec(text)) !== null)] over the matches of a
    global regex.  [exec] resumes at the end of the previous match, so
    an empty match is returned again at every later call. *)
Fixpoint nthExec (results : list (nat * nat)) (n : nat)
  : option (nat * nat) :=
  match results with
  | [] => None
  | (index, len) :: results' =>
    match n with
    | 0 => Some (index, len)
    | S n' => if len =? 0 then Some (index, len) else nthExec results' n'
    end
  end.

(** [(a, b) => (b.i ?? 0) - (a.i ?? 0)] *)
Definition byIndexDescending (a b : Detection) : Z :=
  (Z.of_nat (default 0%nat (i b)) - Z.of_nat (default 0%nat (i a)))%Z.

(** [d.i !== undefined && inactiveIndices.has(d.i)] *)
Definition isInactive (inactiveIndices : gset nat) (d : Detection) : bool :=
  match i d with
  | Some k => bool_decide (k ∈ inactiveIndices)
  | None => false
  end.

(** The body of the [for] loop: the match whose running count equals
    [detection.i] is replaced by the original. *)
Definition restoreOccurrence (adjustedText : jsstring)
    (detection : Detection) : jsstring :=
  let regex := matchPattern false (escapeRegExp (replacement detection)) in
  match nthExec (matches regex adjustedText) (default 0 (i detection)) with
  | Some (index, len) =>
    substring adjustedText 0 index
      ++ original detection
      ++ drop (index + len) adjustedText
  | None => adjustedText
  end.

Definition applyInactiveOccurrences (text : jsstring)
    (detections : list Detection) (inactiveIndices : gset nat) : jsstring :=
  let sortedDetections :=
    sortBy byIndexDescending
           (List.filter (isInactive inactiveIndices) detections) in
  foldl restoreOccurrence text sortedDetections.

End ExportReversal.

(** ** Rendering ([InteractiveAnonymizedText.tsx]) *)

Module Render.
Import JsString Regex.

(** [replacementMap]: the first detection of every placeholder. *)
Definition replacementMap (detections : list Detection)
  : gmap jsstring Detection :=
  foldl (λ map detection,
           match map !! replacement detection with
           | Some _ => map
           | None => <[replacement detection := detection]> map
           end) ∅ detections.

(** [detectionByIndex]: the detections filed under their [i]; a later
    detection with the same [i] overwrites an earlier one. *)
Definition detectionByIndex (detections : list Detection)
  : gmap nat Detection :=
  foldl (λ map detection,
           match i detection with
           | Some k => <[k := detection]> map
           | None => map
           end) ∅ detections.

(** [detections.filter(d => d.replacement === placeholder)] *)
Definition matchingDetections (detections : list Detection)
    (placeholder : jsstring) : list Detection :=
  List.filter (λ d, bool_decide (replacement d = placeholder)) detections.

(** The loop of [positionToDetection] over the remaining matches, with
    its two maps. *)
Fixpoint positionLoop (detections : list Detection)
    (found : list (nat * jsstring))
    (placeholderCounts : gmap jsstring nat) (map : gmap nat Detection)
  : gmap nat Detection :=
  match found with
  | [] => map
  | (position, placeholder) :: found' =>
    let count := default 0 (placeholderCounts !! placeholder) in
    let placeholderCounts :=
      <[placeholder := count + 1]> placeholderCounts in
    let map :=
      match matchingDetections detections placeholder !! count with
      | Some d => <[position := d]> map
      | None => map
      end in
    positionLoop detections found' placeholderCounts map
  end.

Definition positionToDetection (anonymizedText : jsstring)
    (detections : list Detection) : gmap nat Detection :=
  positionLoop detections (placeholderMatches anonymizedText) ∅ ∅.

(** What [processedContent] pushes: plain text, the original of an
    inactive occurrence (clicking it calls [onToggleOccurrence]), or an
    [InteractiveLabel] with the detection it was given. *)
Inductive Part :=
| TextSpan (content : jsstring)
| OriginalSpan (matchStart : nat) (placeholder : jsstring) (d : Detection)
| InteractiveLabel (matchStart : nat) (placeholder : jsstring)
                   (detection : option Detection).

(** [positionToDetection.get(matchStart) || replacementMap.get(placeholder)] *)
Definition detectionFor (anonymizedText : jsstring)
    (detections : list Detection) (matchStart : nat)
    (placeholder : jsstring) : option Detection :=
  match positionToDetection anonymizedText detections !! matchStart with
  | Some d => Some d
  | None => replacementMap detections !! placeholder
  end.

(** The part pushed for one placeholder match. *)
Definition tokenPart (anonymizedText : jsstring)
    (detections : list Detection) (inactiveOccurrences : gset nat)
    (inactiveReplacements : gset jsstring)
    (matchStart : nat) (placeholder : jsstring) : Part :=
  let detection :=
    detectionFor anonymizedText detections matchStart placeholder in
  let detectionIndex := detection ≫= i in
  let isInactive :=
    match detectionIndex with
    | Some k => bool_decide (k ∈ inactiveOccurrences)
    | None => bool_decide (placeholder ∈ inactiveReplacements)
    end in
  match isInactive, detection with
  | true, Some d => OriginalSpan matchStart placeholder d
  | _, _ => InteractiveLabel matchStart placeholder detection
  end.

(** The call a click on a part makes: the [onClick] of the span of an
    inactive occurrence and the [onToggle] of a label.  The two
    booleans say whether the component was given [onToggleOccurrence]
    and [onToggleReplacement]; [ChatInterface] gives the first only. *)
Inductive Click :=
| ToggleOccurrence (detectionIndex : nat) (makeActive : bool)
| ToggleReplacement (placeholder : jsstring) (makeActive : bool).

Definition clickOf (onToggleOccurrence onToggleReplacement : bool)
    (detectionIndex : option nat) (placeholder : jsstring)
    (makeActive : bool) : option Click :=
  match detectionIndex, onToggleOccurrence with
  | Some k, true => Some (ToggleOccurrence k makeActive)
  | _, _ =>
    if onToggleReplacement
    then Some (ToggleReplacement placeholder makeActive) else None
  end.

Definition onClick (onToggleOccurrence onToggleReplacement : bool)
    (part : Part) : option Click :=
  match part with
  | TextSpan _ => None
  | OriginalSpan _ placeholder d =>
    clickOf onToggleOccurrence onToggleReplacement (i d) placeholder true
  | InteractiveLabel _ placeholder detection =>
    clickOf onToggleOccurrence onToggleReplacement (detection ≫= i)
            placeholder false
  end.

(** The loop of [processedContent] over the remaining matches. *)
Fixpoint partsLoop (anonymizedText : jsstring)
    (detections : list Detection) (inactiveOccurrences : gset nat)
    (inactiveReplacements : gset jsstring)
    (found : list (nat * jsstring)) (lastIndex : nat) : list Part :=
  match found with
  | [] =>
    if lastIndex <? length anonymizedText
    then [TextSpan (drop lastIndex anonymizedText)] else []
  | (matchStart, placeholder) :: found' =>
    (if lastIndex <? matchStart
     then [TextSpan (substring anonymizedText lastIndex matchStart)]
     else [])
    ++ tokenPart anonymizedText detections inactiveOccurrences
                 inactiveReplacements matchStart placeholder
    :: partsLoop anonymizedText detections inactiveOccurrences
                 inactiveReplacements found'
                 (matchStart + length placeholder)
  end.

Definition processedContent (anonymizedText : jsstring)
    (detections : list Detection) (inactiveOccurrences : gset nat)
    (inactiveReplacements : gset jsstring) : list Part :=
  partsLoop anonymizedText detections inactiveOccurrences
            inactiveReplacements (placeholderMatches anonymizedText) 0.

End Render.

(** ** The toggles of [ChatInterface] *)

Module ChatInterface.

(** A message: its content and its [reasoning], of which the handlers
    read [detected_pii] only.  A message may have no reasoning, and a
    reasoning may hold no [detected_pii]: that of a user message sent
    with custom instructions is the object [{ customInstructions }]. *)
Record Message := mkMessage {
  content : jsstring;
  reasoning : option (option (list Detection));
}.

(** [message.reasoning?.detected_pii] *)
Definition detected_pii (message : Message) : option (list Detection) :=
  match reasoning message with
  | Some (Some detections) => Some detections
  | _ => None
  end.

(** The state the component declares with [useState]: the inactive
    occurrences and the inactive entities of every message.  It declares
    no [inactiveReplacements]. *)
Record State := mkState {
  inactiveOccurrences : gmap nat (gset nat);
  inactiveEntities : gmap nat (gset jsstring);
}.

(** A handler returns normally with the next state, or throws. *)
Inductive Outcome :=
| Completed (st : State)
| Thrown (error : jsstring).

(** [handleToggleAllOccurrences].  Reading [message.reasoning] of a
    message that does not exist throws; a message without reasoning is
    left alone; with a reasoning the state updater runs, and it throws
    at [detected_pii.forEach] when the reasoning holds no
    [detected_pii]. *)
Definition handleToggleAllOccurrences (messages : list Message)
    (messageIndex : nat) (placeholder : jsstring) (makeActive : bool)
    (st : State) : Outcome :=
  match messages !! messageIndex with
  | None => Thrown (str "TypeError: message is undefined")
  | Some message =>
    match reasoning message with
    | None => Completed st
    | Some None =>
      Thrown (str "TypeError: message.reasoning.detected_pii is undefined")
    | Some (Some detections) =>
      let prev := inactiveOccurrences st in
      let messageInactives :=
        foldl (λ s '(index, detection),
                 if bool_decide (replacement detection = placeholder)
                 then Activation.toggle s (occurrenceIndex detection index)
                                        makeActive
                 else s)
              (Activation.inactiveOf prev messageIndex)
              (imap pair detections) in
      Completed
        (mkState (if decide (size messageInactives = 0)
                  then delete messageIndex prev
                  else <[messageIndex := messageInactives]> prev)
                 (inactiveEntities st))
    end
  end.

(** [handleToggleEntity].  After the guard and the computation of
    [replacements], the first statement calls [setInactiveReplacements],
    an identifier that nothing in the component declares: evaluating it
    throws before any state is updated.  [inactiveOccurrences] is not
    mentioned by the handler at all. *)
Definition handleToggleEntity (messages : list Message)
    (messageIndex : nat) (originalText : jsstring) (makeActive : bool)
    (st : State) : Outcome :=
  match messages !! messageIndex ≫= detected_pii with
  | None => Completed st
  | Some detections =>
    let replacements :=
      replacement <$>
        List.filter (λ d, bool_decide (original d = originalText)) detections in
    Thrown (str "ReferenceError: setInactiveReplacements is not defined")
  end.

(** The inactive occurrences of a message after a handler ran from [st]:
    a handler that throws leaves the state as it was. *)
Definition inactiveAfter (o : Outcome) (st : State) (messageIndex : nat)
  : gset nat :=
  match o with
  | Completed st' => Activation.inactiveOf (inactiveOccurrences st') messageIndex
  | Thrown _ => Activation.inactiveOf (inactiveOccurrences st) messageIndex
  end.

End ChatInterface.

(** ** The result panel ([ResultDisplay]) *)

Module ResultDisplay.
Import JsString.

(** What [countOccurrences] returns. *)
Record Counts := mkCounts {
  total : nat;
  inactive : nat;
  active : nat;
}.

(** [countOccurrences]; [inactiveCount] never exceeds [totalCount], so
    the subtraction is that of [nat]. *)
Definition countOccurrences (detected_pii : list Detection)
    (inactiveOccurrences : gset nat) : Counts :=
  let totalCount := length detected_pii in
  let inactiveCount :=
    foldl (λ inactiveCount '(idx, detection),
             if bool_decide (occurrenceIndex detection idx
                               ∈ inactiveOccurrences)
             then S inactiveCount else inactiveCount)
          0 (imap pair detected_pii) in
  mkCounts totalCount inactiveCount (totalCount - inactiveCount).

(** [Math.max(...detected_pii.map(d => d.i || 0))] of a list that is not
    empty. *)
Definition maxIndex (detected_pii : list Detection) : nat :=
  foldr Nat.max 0 ((λ d, default 0 (i d)) <$> detected_pii).

(** The array [new Array(maxIndex + 1)] after the loop
    [detectionsArray[d.i] = d]: the slots that are filled. *)
Definition filledSlots (detected_pii : list Detection)
  : gmap nat Detection :=
  foldl (λ slots d,
           match i d with
           | Some k => <[k := d]> slots
           | None => slots
           end) ∅ detected_pii.

(** The comparator of the fallback: by the first offset of the
    replacement in the text, a replacement that does not occur last. *)
Definition byFirstPosition (anonymizedText : jsstring) (a b : Detection)
  : Z :=
  match indexOf (replacement a) anonymizedText,
        indexOf (replacement b) anonymizedText with
  | None, None => 0
  | None, Some _ => 1
  | Some _, None => -1
  | Some posA, Some posB => Z.of_nat posA - Z.of_nat posB
  end.

(** [detectionsArray]: when the first detection has an [i], the array
    of length [maxIndex + 1] filled at the indices [i] and stripped of
    its holes; otherwise the detections sorted by position. *)
Definition detectionsArray (anonymizedText : jsstring)
    (detected_pii : list Detection) : list Detection :=
  match detected_pii with
  | d0 :: _ =>
    match i d0 with
    | Some _ =>
      let slots := filledSlots detected_pii in
      omap (λ k, slots !! k) (seq 0 (maxIndex detected_pii + 1))
    | None => sortBy (byFirstPosition anonymizedText) detected_pii
    end
  | [] => sortBy (byFirstPosition anonymizedText) detected_pii
  end.

(** [`${detection.original}|${detection.replacement}`] *)
Definition instanceKey (detection : Detection) : jsstring :=
  original detection ++ "|"%char :: replacement detection.

(** [instanceMap]: the array indices of the detections of every key, in
    array order. *)
Definition instanceMap (detectionsArray : list Detection)
  : gmap jsstring (list nat) :=
  foldl (λ map '(index, detection),
           let key := instanceKey detection in
           <[key := default [] (map !! key) ++ [index]]> map)
        ∅ (imap pair detectionsArray).

(** [instances.indexOf(arrayIndex) + 1] *)
Definition instancePosition (instances : list nat) (arrayIndex : nat)
  : nat :=
  match list_find (λ x, x = arrayIndex) instances with
  | Some (k, _) => k + 1
  | None => 0
  end.

(** [instanceLabel] of the item at [arrayIndex]. *)
Definition instanceLabel (detectionsArray : list Detection)
    (arrayIndex : nat) (detection : Detection) : jsstring :=
  let instances :=
    default [] (instanceMap detectionsArray !! instanceKey detection) in
  let totalInstances := length instances in
  if 1 <? totalInstances
  then str " (instance "
         ++ numberToString (instancePosition instances arrayIndex)
         ++ str " of " ++ numberToString totalInstances ++ str ")"
  else [].

(** The call of [onToggleOccurrence] made by the [onToggle] of a list
    item: [onToggleOccurrence(occurrenceIndex, !isCurrentlyActive)]. *)
Definition onToggle (inactiveOccurrences : gset nat)
    (detection : Detection) (arrayIndex : nat) : nat * bool :=
  let occurrenceIndex := occurrenceIndex detection arrayIndex in
  let isCurrentlyActive :=
    negb (bool_decide (occurrenceIndex ∈ inactiveOccurrences)) in
  (occurrenceIndex, negb isCurrentlyActive).

(** ['success' | 'warning' | 'error'] *)
Inductive Severity := success | warning | error.

(** [getConfidenceColor]; [getConfidenceIcon] makes the same two
    comparisons. *)
Definition getConfidenceColor (confidence : float) : Severity :=
  if (0.9 <=? confidence)%float then success
  else if (0.7 <=? confidence)%float then warning
  else error.

End ResultDisplay.

(** ** The audit exports ([exportUtils.ts]) *)

Module ExportUtils.
Import JsString Regex.

(** [!data.inactiveOccurrences?.has(detection.i ?? index)] *)
Definition isActive (inactiveOccurrences : option (gset nat))
    (index : nat) (detection : Detection) : bool :=
  negb (match inactiveOccurrences with
        | Some s => bool_decide (occurrenceIndex detection index ∈ s)
        | None => false
        end).

(** [activeDetections] of [exportToPDF]. *)
Definition activeDetections (detections : list Detection)
    (inactiveOccurrences : option (gset nat)) : list Detection :=
  snd <$> List.filter (λ '(index, detection),
                         isActive inactiveOccurrences index detection)
                      (imap pair detections).

(** [activeCount] and [inactiveCount] of [exportToCSV], and
    [activeCountPDF] and [inactiveCountPDF] of [exportToPDF]. *)
Definition activeCount (detections : list Detection)
    (inactiveOccurrences : option (gset nat)) : nat :=
  length (List.filter (λ '(index, detection),
                         isActive inactiveOccurrences index detection)
                      (imap pair detections)).

Definition inactiveCount (detections : list Detection)
    (inactiveOccurrences : option (gset nat)) : nat :=
  length detections - activeCount detections inactiveOccurrences.

(** The tests of [confidenceRanges]. *)
Definition isHigh (d : Detection) : bool := (0.9 <=? confidence d)%float.

Definition isMedium (d : Detection) : bool :=
  (0.7 <=? confidence d)%float && (confidence d <? 0.9)%float.

Definition isLow (d : Detection) : bool := (confidence d <? 0.7)%float.

(** [confidenceRanges]: the numbers of high, medium and low detections
    among the active ones. *)
Record Ranges := mkRanges { high : nat; medium : nat; low : nat }.

Definition confidenceRanges (activeDetections : list Detection) : Ranges :=
  mkRanges (length (List.filter isHigh activeDetections))
           (length (List.filter isMedium activeDetections))
           (length (List.filter isLow activeDetections)).

(** The double quote. *)
Definition quote : ascii := "034"%char.

(** A text column of [exportToCSV]: the text, in which [replace] with
    the global regex of one double quote puts two double quotes for
    each, written between two double quotes. *)
Definition csvField (s : jsstring) : jsstring :=
  quote :: replaceGlobal (matchPattern false [quote]) [quote; quote] s
    ++ [quote].

End ExportUtils.

(** ** [trim] *)

Module Trim.

(** White space and line terminators among the modelled code units:
    what [trim] removes. *)
Definition isWhiteSpace (c : ascii) : bool :=
  let n := nat_of_ascii c in
  ((9 <=? n) && (n <=? 13)) || (n =? 32) || (n =? 160).

(** [!text.trim()] *)
Definition isBlank (text : jsstring) : bool := forallb isWhiteSpace text.

End Trim.

(** ** The instruction panel ([InstructionPanel]) *)

Module InstructionPanel.

(** [handleSaveInstructions]: the saved instructions afterwards. *)
Definition handleSaveInstructions (instructions : jsstring)
    (savedInstructions : list jsstring) : list jsstring :=
  if negb (Trim.isBlank instructions)
     && negb (bool_decide (instructions ∈ savedInstructions))
  then savedInstructions ++ [instructions]
  else savedInstructions.

End InstructionPanel.

(** ** The messages of the chat ([useChatMessages]) *)

Module Chat.

(** What a message holds as [reasoning]: the [ReasoningData] of a
    [complete] chunk, of which any field may be missing, or the object
    [{ customInstructions }] that [handleSubmit] gives a user message. *)
Record Reasoning := mkReasoning {
  thought_process : option jsstring;
  detected_pii : option (list Detection);
  processing_time : option float;
  chunks_processed : option nat;
  extraction_method : option jsstring;
  confidence_avg : option float;
  instructions_used : option jsstring;
  customInstructions : option jsstring;
}.

(** [{}] *)
Definition emptyReasoning : Reasoning :=
  mkReasoning None None None None None None None None.

Inductive MessageType := user | assistant | system.

(** [Message]; the [timestamp] is the clock reading in milliseconds. *)
Record Message := mkMessage {
  id : jsstring;
  type : MessageType;
  content : jsstring;
  timestamp : nat;
  reasoning : option Reasoning;
  isProcessing : option bool;
}.

(** The [Partial<Message>] objects that the callers of [updateMessage]
    build: a key that is absent is [None]; [reasoning] may be present
    and [undefined]. *)
Record Updates := mkUpdates {
  newContent : option jsstring;
  newReasoning : option (option Reasoning);
  newIsProcessing : option bool;
}.

(** [{ ...msg, ...updates }] *)
Definition applyUpdates (msg : Message) (updates : Updates) : Message :=
  mkMessage (id msg) (type msg)
            (default (content msg) (newContent updates))
            (timestamp msg)
            (default (reasoning msg) (newReasoning updates))
            (match newIsProcessing updates with
             | Some b => Some b
             | None => isProcessing msg
             end).

(** [addMessage]: the state updater; [newId] and [now] are the id made
    from the clock and the random number, and the date, of the call. *)
Definition addMessage (newId : jsstring) (now : nat) (content : jsstring)
    (type : MessageType) (reasoning : option Reasoning)
    (prev : list Message) : list Message :=
  prev ++ [mkMessage newId type content now reasoning None].

(** [updateMessage]: the state updater. *)
Definition updateMessage (id : jsstring) (updates : Updates)
    (prev : list Message) : list Message :=
  (λ msg, if bool_decide (Chat.id msg = id)
          then applyUpdates msg updates else msg) <$> prev.

Definition clearMessages (prev : list Message) : list Message := [].

Definition getLastMessage (messages : list Message) : option Message :=
  last messages.

(** [{ ...reasoning, detected_pii: newDetections }], where the spread of
    an undefined [reasoning] gives nothing. *)
Definition withDetections (reasoning : option Reasoning)
    (newDetections : list Detection) : Reasoning :=
  let r := default emptyReasoning reasoning in
  mkReasoning (thought_process r) (Some newDetections) (processing_time r)
              (chunks_processed r) (extraction_method r) (confidence_avg r)
              (instructions_used r) (customInstructions r).

(** [handleReplace] and [handleReplaceAll] of [ChatInterface], which
    have the same body: the messages after the update, or [None] when
    reading [messages[messageIndex].id] throws a [TypeError].  [messages]
    is the state the callback was made with, which the updater receives
    again. *)
Definition handleReplace (messages : list Message) (messageIndex : nat)
    (originalText newText : jsstring)
    (newDetections : option (list Detection)) : option (list Message) :=
  match messages !! messageIndex with
  | None => None
  | Some message =>
    let updates :=
      mkUpdates (Some newText)
                (match newDetections with
                 | Some newDetections =>
                   Some (Some (withDetections (reasoning message)
                                              newDetections))
                 | None => None
                 end)
                None in
    Some (updateMessage (id message) updates messages)
  end.

Definition handleReplaceAll := handleReplace.

End Chat.

(** ** Streaming ([anonymizeTextStream] and [handleSubmit]) *)

Module Stream.
Import JsString.

(** The chunks of the stream, by their [type]; a chunk of another type
    is passed to the callback and ignored. *)
Inductive Chunk :=
| ContentChunk (content : jsstring)
| ThinkingChunk (content : jsstring)
| StatusChunk (message : jsstring)
| CompleteChunk (anonymized_text : option jsstring)
                (reasoning : option Chat.Reasoning)
| ErrorChunk (message : option jsstring)
| OtherChunk.

(** [AnonymizeResponse], without the date of its metadata. *)
Record Response := mkResponse {
  anonymized_text : jsstring;
  reasoning : Chat.Reasoning;
  model : jsstring;
  chunks : nat;
  total_tokens : nat;
}.

(** The state of [useAnonymization]. *)
Record HookState := mkHookState {
  isProcessing : bool;
  error : option jsstring;
  lastResponse : option Response;
}.

(** Line feed. *)
Definition lineFeed : ascii := "010"%char.

(** A number is truthy when it is neither a zero nor NaN. *)
Definition truthyNumber (x : float) : bool :=
  negb ((x =? 0)%float || is_nan x).

(** [`${x}`] of a string that may be undefined. *)
Definition template (x : option jsstring) : jsstring :=
  default (str "undefined") x.

(** [x || fallback] on strings. *)
Definition orElse (x : option jsstring) (fallback : jsstring) : jsstring :=
  match x with
  | Some (c :: s) => c :: s
  | _ => fallback
  end.

(** The write [response.reasoning.processing_time = processingTime],
    made when the field is falsy. *)
Definition fillProcessingTime (processingTime : float)
    (r : Chat.Reasoning) : Chat.Reasoning :=
  match Chat.processing_time r with
  | Some t =>
    if truthyNumber t then r
    else Chat.mkReasoning (Chat.thought_process r) (Chat.detected_pii r)
           (Some processingTime) (Chat.chunks_processed r)
           (Chat.extraction_method r) (Chat.confidence_avg r)
           (Chat.instructions_used r) (Chat.customInstructions r)
  | None =>
    Chat.mkReasoning (Chat.thought_process r) (Chat.detected_pii r)
      (Some processingTime) (Chat.chunks_processed r)
      (Chat.extraction_method r) (Chat.confidence_avg r)
      (Chat.instructions_used r) (Chat.customInstructions r)
  end.

(** The response built at the [complete] chunk. *)
Definition response (anonymized_text : option jsstring)
    (reasoning : option Chat.Reasoning) (fullContent thinking : jsstring)
    (model : option jsstring) (processingTime : float) : Response :=
  let text := orElse anonymized_text fullContent in
  mkResponse text
    (fillProcessingTime processingTime
       (default
          (Chat.mkReasoning (Some thinking) (Some []) (Some processingTime)
                            (Some 1) (Some (str "stream")) None None None)
          reasoning))
    (orElse model (str "unknown")) 1 (length text).

(** How the loop [for await (const chunk of ...)] ends: at a [complete]
    chunk, by the error thrown at an [error] chunk, or with the stream. *)
Inductive LoopEnd :=
| Completed (response : Response)
| Threw (message : jsstring)
| Exhausted.

Section Loop.
Context {S : Type} (onChunk : Chunk → S → S).

(** The loop of [anonymizeTextStream] over the chunks still to come,
    with its accumulators and the state of the callback.  The stream
    yields [chunks] and then ends, or throws an error with the message
    [failure]. *)
Fixpoint streamLoop (model : option jsstring) (processingTime : float)
    (chunks : list Chunk) (failure : option jsstring)
    (fullContent thinking : jsstring) (s : S) : S * LoopEnd :=
  match chunks with
  | [] =>
    match failure with
    | Some message => (s, Threw message)
    | None => (s, Exhausted)
    end
  | chunk :: chunks' =>
    let fullContent :=
      match chunk with
      | ContentChunk content => fullContent ++ content
      | _ => fullContent
      end in
    let thinking :=
      match chunk with
      | ThinkingChunk content => thinking ++ content
      | _ => thinking
      end in
    let s := onChunk chunk s in
    match chunk with
    | CompleteChunk anonymized_text reasoning =>
      (s, Completed (response anonymized_text reasoning fullContent thinking
                              model processingTime))
    | ErrorChunk message =>
      (s, Threw (orElse message (str "Streaming failed")))
    | _ =>
      streamLoop model processingTime chunks' failure fullContent thinking s
    end
  end.

(** [anonymizeTextStream]: the state of the hook and of the callback
    when the promise settles.  [processingTime] is the duration read
    from the clock at the [complete] chunk. *)
Definition anonymizeTextStream (text : jsstring) (model : option jsstring)
    (processingTime : float) (chunks : list Chunk)
    (failure : option jsstring) (st : HookState) (s : S) : HookState * S :=
  if Trim.isBlank text
  then (mkHookState (isProcessing st)
                    (Some (str "Please provide text to anonymize"))
                    (lastResponse st), s)
  else
    match streamLoop model processingTime chunks failure [] [] s with
    | (s', Completed response) =>
      (mkHookState false None (Some response), s')
    | (s', Threw message) =>
      (mkHookState false
                   (Some (orElse (Some message)
                                 (str "Failed to anonymize text")))
                   (lastResponse st), s')
    | (s', Exhausted) => (mkHookState true None (lastResponse st), s')
    end.

End Loop.

(** The variables that the callback of [handleSubmit] closes over and
    assigns. *)
Record Closure := mkClosure {
  streamingContent : jsstring;
  thinkingContent : jsstring;
  currentChunkThinking : jsstring;
  currentChunkContent : jsstring;
  hasStartedContent : bool;
  currentStatus : jsstring;
}.

(** The headings of the progress display.  Their symbols lie outside
    the modelled code units and are written as the bytes of their UTF-8
    form; nothing depends on their length. *)
Definition thinkingHeading : jsstring :=
  [lineFeed; lineFeed] ++ str "🤔 Thinking:" ++ [lineFeed].

Definition outputHeading : jsstring :=
  [lineFeed; lineFeed] ++ str "📝 Output:" ++ [lineFeed].

Definition previousOutputHeading : jsstring :=
  [lineFeed; lineFeed] ++ str "📝 Previous output:" ++ [lineFeed].

Definition analyzingHeading : jsstring :=
  str "🤔 AI is analyzing..." ++ [lineFeed; lineFeed].

(** [streamingContent.split('\n').length] *)
Definition lineCount (s : jsstring) : nat :=
  length (List.filter (Ascii.eqb lineFeed) s) + 1.

(** The callback that [handleSubmit] passes to [anonymizeTextStream]:
    the variables and the messages after one chunk. *)
Definition onChunk (assistantMessageId : jsstring) (chunk : Chunk)
    (s : Closure * list Chat.Message) : Closure * list Chat.Message :=
  let '(v, messages) := s in
  match chunk with
  | ContentChunk content =>
    let streamingContent := streamingContent v ++ content in
    let currentChunkContent := currentChunkContent v ++ content in
    let displayContent :=
      if Streaming.truthy (currentStatus v)
      then currentStatus v
             ++ (if Streaming.truthy (currentChunkThinking v)
                 then thinkingHeading ++ currentChunkThinking v else [])
             ++ outputHeading ++ streamingContent
      else streamingContent in
    (mkClosure streamingContent (thinkingContent v)
               (currentChunkThinking v) currentChunkContent true
               (currentStatus v),
     Chat.updateMessage assistantMessageId
       (Chat.mkUpdates (Some displayContent) None (Some true)) messages)
  | ThinkingChunk content =>
    let thinkingContent := thinkingContent v ++ content in
    let currentChunkThinking := currentChunkThinking v ++ content in
    let thinkingDisplay :=
      if Streaming.truthy (currentStatus v)
      then currentStatus v ++ thinkingHeading ++ currentChunkThinking
             ++ (if Streaming.truthy (streamingContent v)
                 then [lineFeed; lineFeed] ++ str "📝 Previous output: "
                        ++ numberToString (lineCount (streamingContent v))
                        ++ str " lines processed..."
                 else [])
      else analyzingHeading ++ thinkingContent in
    (mkClosure (streamingContent v) thinkingContent currentChunkThinking
               (currentChunkContent v) (hasStartedContent v)
               (currentStatus v),
     Chat.updateMessage assistantMessageId
       (Chat.mkUpdates (Some thinkingDisplay) None (Some true)) messages)
  | StatusChunk message =>
    let currentStatus := str "⏳ " ++ message in
    let statusDisplay :=
      if Streaming.truthy (streamingContent v)
      then currentStatus ++ previousOutputHeading ++ streamingContent v
      else currentStatus in
    (mkClosure (streamingContent v) (thinkingContent v) [] []
               (hasStartedContent v) currentStatus,
     Chat.updateMessage assistantMessageId
       (Chat.mkUpdates (Some statusDisplay) None (Some true)) messages)
  | CompleteChunk anonymized_text reasoning =>
    let contentToStore :=
      Streaming.contentToStore anonymized_text
        (reasoning ≫= Chat.detected_pii) (streamingContent v) in
    (v,
     Chat.updateMessage assistantMessageId
       (Chat.mkUpdates (Some contentToStore) (Some reasoning) (Some false))
       messages)
  | ErrorChunk message =>
    (v,
     Chat.updateMessage assistantMessageId
       (Chat.mkUpdates (Some (str "Error: " ++ template message)) None
                       (Some false))
       messages)
  | OtherChunk => (v, messages)
  end.

(** The state that [handleSubmit] reads and writes. *)
Record App := mkApp {
  messages : list Chat.Message;
  hook : HookState;
  inputText : jsstring;
}.

(** The first [complete] or [error] chunk of a stream: the last one
    that the loop passes to the callback. *)
Definition isTerminal (chunk : Chunk) : bool :=
  match chunk with
  | CompleteChunk _ _ | ErrorChunk _ => true
  | _ => false
  end.

(** The reasoning object of the [complete] chunk that ended the loop.
    The message updated at that chunk holds this very object, so the
    write of [processing_time] that the hook makes after the callback has
    returned shows in the message. *)
Definition sharedReasoning (chunks : list Chunk) : option Chat.Reasoning :=
  match find isTerminal chunks with
  | Some (CompleteChunk _ (Some reasoning)) => Some reasoning
  | _ => None
  end.

Definition seenThroughMessage (assistantMessageId : jsstring)
    (processingTime : float) (chunks : list Chunk)
    (messages : list Chat.Message) : list Chat.Message :=
  match sharedReasoning chunks with
  | Some reasoning =>
    Chat.updateMessage assistantMessageId
      (Chat.mkUpdates None
         (Some (Some (fillProcessingTime processingTime reasoning))) None)
      messages
  | None => messages
  end.

(** [handleSubmit], with what the environment supplies: the ids and
    dates of the two messages, the chunks of the stream and how it ends,
    and the duration measured at the [complete] chunk.  The promise of
    [anonymizeTextStream] is never rejected, so the [catch] of
    [handleSubmit] is not entered. *)
Definition handleSubmit (customInstructions selectedModel : jsstring)
    (userMessageId assistantMessageId : jsstring) (now now' : nat)
    (processingTime : float) (chunks : list Chunk)
    (failure : option jsstring) (app : App) : App :=
  if Trim.isBlank (inputText app) || isProcessing (hook app) then app
  else
    let hook0 :=
      mkHookState (isProcessing (hook app)) None (lastResponse (hook app)) in
    let messages :=
      Chat.addMessage userMessageId now (inputText app) Chat.user
        (if Streaming.truthy customInstructions
         then Some (Chat.mkReasoning None None None None None None None
                                     (Some customInstructions))
         else None)
        (messages app) in
    let textToProcess := inputText app in
    let messages :=
      Chat.addMessage assistantMessageId now'
        (str "Processing your request...") Chat.assistant None messages in
    let messages :=
      Chat.updateMessage assistantMessageId
        (Chat.mkUpdates None None (Some true)) messages in
    let '(hook', (_, messages)) :=
      anonymizeTextStream (onChunk assistantMessageId) textToProcess
        (Some selectedModel) processingTime chunks failure hook0
        (mkClosure [] [] [] [] false [], messages) in
    mkApp (seenThroughMessage assistantMessageId processingTime chunks
                              messages)
          hook' [].

End Stream.

(** ** Copying a message ([copyToClipboard]) *)

Module Clipboard.
Import ChatInterface.

(** [textToCopy] of [copyToClipboard]: the text with the user's
    adjustments, when a message index is given. *)
Definition textToCopy (messages : list Message) (st : State)
    (text : jsstring) (messageIndex : option nat) : jsstring :=
  match messageIndex with
  | None => text
  | Some messageIndex =>
    match messages !! messageIndex ≫= detected_pii,
          inactiveOccurrences st !! messageIndex with
    | Some detections, Some inactiveIndices =>
      if 0 <? size inactiveIndices
      then ExportReversal.applyInactiveOccurrences text detections
                                                   inactiveIndices
      else text
    | _, _ => text
    end
  end.

(** [copyToClipboard]: what is written to the clipboard; nothing when
    the text to copy is empty. *)
Definition copyToClipboard (messages : list Message) (st : State)
    (text : jsstring) (messageIndex : option nat) : option jsstring :=
  let textToCopy := textToCopy messages st text messageIndex in
  if Streaming.truthy textToCopy then Some textToCopy else None.

End Clipboard.

(** ** The scenarios of the specification *)

Module Scenario.

(** Scenario A. *)
Definition textA : jsstring := str "Contact [NAME_1] at [EMAIL].".

Definition johnSmith : Detection :=
  {| type := str "name"; original := str "John Smith";
     replacement := str "[NAME_1]"; confidence := 0.95%float;
     explanation := None; i := Some 0 |}.

Definition email : Detection :=
  {| type := str "email"; original := str "j@x.com";
     replacement := str "[EMAIL]"; confidence := 0.99%float;
     explanation := None; i := Some 1 |}.

Definition detectionsA : list Detection := [johnSmith; email].

(** Scenario B: [555-1234] tagged as [ssn] after both placeholders. *)
Definition textB : jsstring :=
  str "Contact [NAME_1] at [EMAIL]. Call 555-1234".

Definition taggedB : jsstring :=
  str "Contact [NAME_1] at [EMAIL]. Call [SSN_1]".

Definition ssn (k : nat) : Detection :=
  Tagging.manualDetection (str "ssn") (str "555-1234") (str "[SSN_1]") k.

(** Scenario C: [Acme Corp], three times, tagged as [org]. *)
Definition textC : jsstring :=
  str "Acme Corp hired [NAME_1]. acme corp pays; ACME CORP grows.".

Definition taggedC : jsstring :=
  str "[ORG_1] hired [NAME_1]. [ORG_1] pays; [ORG_1] grows.".

Definition org (k : nat) : Detection :=
  Tagging.manualDetection (str "org") (str "Acme Corp") (str "[ORG_1]") k.

(** Two occurrences of one placeholder around another one. *)
Definition textI : jsstring := str "[NAME_1] met [EMAIL] and [NAME_1]".

Definition detectionsI : list Detection :=
  [johnSmith; email; with_i johnSmith (Some 2)].

(** One detection, two occurrences of its placeholder. *)
Definition textX : jsstring := str "[NAME_1] and [NAME_1]".

(** Detections the reconstruction treats specially: an empty
    replacement, and a replacement with a substitution pattern. *)
Definition eraseB : Detection :=
  {| type := str "id"; original := str "b"; replacement := [];
     confidence := 0.9%float; explanation := None; i := Some 0 |}.

Definition quoteBob : Detection :=
  {| type := str "name"; original := str "Bob"; replacement := str "<$&>";
     confidence := 0.9%float; explanation := None; i := Some 0 |}.

(** Three occurrences behind a placeholder, in a message whose first
    detection has no placeholder in the text. *)
Definition textD : jsstring :=
  str "[NAME_1] Acme Corp, Acme Corp, Acme Corp".

Definition taggedD : jsstring :=
  str "[NAME_1] [ORG_1], [ORG_1], [ORG_1]".

(** A detection whose placeholder is absent from the text, as the
    streaming reconstruction leaves behind when an original is not found. *)
Definition absent : Detection :=
  {| type := str "phone"; original := str "555-0000";
     replacement := str "[PHONE_1]"; confidence := 0.9%float;
     explanation := None; i := Some 0 |}.

(** A word with a Latin-1 letter in both letter cases: the code units
    201 and 233 are the capital and the small e with acute accent. *)
Definition cafe : jsstring := str "caf" ++ ["233"%char].

Definition textL : jsstring :=
  str "CAF" ++ ["201"%char] ++ str " " ++ cafe.

End Scenario.

(** ** Specification-side definitions *)

(** The sign of a float is not negative (a zero of either sign and NaN
    included): the confidences of the data model. *)
Definition notNegative (x : spec_float) : Prop :=
  match x with
  | S754_zero _ | S754_nan => True
  | S754_infinity s | S754_finite s _ _ => s = false
  end.

(** A detection of the output of a tagging operation is kept from the
    input (possibly renumbered) or is the literal the operation creates. *)
Definition keptFrom (detections : list Detection) (d' : Detection) : Prop :=
  ∃ d v, d ∈ detections ∧ d' = with_i d v.

Definition createdBy (selectedEntityType selected : jsstring)
    (d' : Detection) : Prop :=
  ∃ placeholder k,
    d' = Tagging.manualDetection selectedEntityType selected placeholder k.

(** [p] occurs in [text] as a substring. *)
Definition occursIn (p text : jsstring) : Prop :=
  ∃ a b, text = a ++ p ++ b.

(** The detections at the head of the array that satisfy [f]: those the
    insertion loop walks over before it stops. *)
Fixpoint leadingRun (f : Detection → bool) (detections : list Detection)
  : list Detection :=
  match detections with
  | [] => []
  | d :: detections' => if f d then d :: leadingRun f detections' else []
  end.

(** The procedures of the specification, in its words. *)
Module Spec.
Import JsString.

(** The expected ordinal of the detection at array index [k] among the
    detections with the same replacement (the position resolver's
    binding). *)
Definition ordinalAmongSame (detections : list Detection) (k : nat)
    (d : Detection) : nat :=
  length (List.filter (λ d', bool_decide (replacement d' = replacement d))
                      (take k detections)).

(** Export reversal, one inactive detection: the literal occurrences of
    the replacement are counted from the start, and the one whose count is
    the expected ordinal is substituted with the original. *)
Definition restoreAt (detections : list Detection) (text : jsstring)
    (kd : nat * Detection) : jsstring :=
  match Tagging.occurrencesOf (replacement kd.2) text
          !! ordinalAmongSame detections kd.1 kd.2 with
  | Some index =>
    take index text ++ original kd.2
      ++ drop (index + length (replacement kd.2)) text
  | None => text
  end.

(** Export reversal: the inactive detections in descending [i] order (for
    an array that satisfies the index invariant, the reverse of the array
    order). *)
Definition effectiveText (text : jsstring) (detections : list Detection)
    (inactiveOccurrences : gset nat) : jsstring :=
  foldl (restoreAt detections) text
        (reverse (List.filter (λ kd, bool_decide (kd.1 ∈ inactiveOccurrences))
                              (imap pair detections))).

(** Streaming reconstruction, one detection: every literal occurrence of
    the original, letter case ignored, becomes the replacement.  The text
    is read left to right; after an occurrence the reading resumes behind
    it ([skip] counts the characters of the occurrence still to pass). *)
Fixpoint replaceEveryFrom (orig repl s : jsstring) (skip : nat) : jsstring :=
  match s with
  | [] => []
  | c :: s' =>
    match skip with
    | S skip' => replaceEveryFrom orig repl s' skip'
    | 0 =>
      if prefixBy eqIgnoreCase orig s
      then repl ++ replaceEveryFrom orig repl s' (length orig - 1)
      else c :: replaceEveryFrom orig repl s' 0
    end
  end.

Definition replaceEvery (orig repl s : jsstring) : jsstring :=
  replaceEveryFrom orig repl s 0.

(** The detections are taken in the given order. *)
Definition reconstructIn (order : list Detection) (accumulated : jsstring)
  : jsstring :=
  foldl (λ text d, replaceEvery (original d) (replacement d) text)
        accumulated order.

(** Sorted by [original.length], descending. *)
Definition longestFirst (order : list Detection) : Prop :=
  StronglySorted (λ a b, length (original b) ≤ length (original a)) order.

End Spec.

(** ** Definitions used to state the further properties *)

(** No message index is mapped to an empty set. *)
Definition noEmptySets (st : gmap nat (gset nat)) : Prop :=
  ∀ m s, st !! m = Some s → s ≠ ∅.

(** The occurrence indices of the detections with a given replacement. *)
Definition indicesWith (placeholder : jsstring)
    (detections : list Detection) : gset nat :=
  list_to_set
    (mjoin (imap (λ idx d,
       if bool_decide (replacement d = placeholder)
       then [occurrenceIndex d idx] else []) detections)).

(** The detections with the same original and replacement as [d]. *)
Definition sameEntity (d d' : Detection) : bool :=
  bool_decide (original d' = original d)
    && bool_decide (replacement d' = replacement d).

(** The indices [g k] of the detections of [l] with a given key. *)
Definition keyIndices (key : jsstring) (g : nat → nat)
    (l : list Detection) : list nat :=
  mjoin (imap (λ k d, if bool_decide (ResultDisplay.instanceKey d = key)
                      then [g k] else []) l).

(** The stretch of the anonymized text that a rendered part stands for,
    and the text the part displays. *)
Definition sourceOf (part : Render.Part) : jsstring :=
  match part with
  | Render.TextSpan content => content
  | Render.OriginalSpan _ placeholder _ => placeholder
  | Render.InteractiveLabel _ placeholder _ => placeholder
  end.

Definition displayed (part : Render.Part) : jsstring :=
  match part with
  | Render.TextSpan content => content
  | Render.OriginalSpan _ _ d => original d
  | Render.InteractiveLabel _ placeholder _ => placeholder
  end.

(** Matches that follow one another from [lo] on within a text of
    length [n]. *)
Fixpoint chained (lo n : nat) (results : list (nat * nat)) : Prop :=
  match results with
  | [] => True
  | (pos, len) :: results' =>
    lo ≤ pos ∧ pos + len ≤ n ∧ chained (pos + len) n results'
  end.

(** Every double quote written twice. *)
Fixpoint doubled (s : jsstring) : jsstring :=
  match s with
  | [] => []
  | c :: s' =>
    if Ascii.eqb c ExportUtils.quote then c :: c :: doubled s'
    else c :: doubled s'
  end.

(** A detection without its occurrence index. *)
Definition withoutIndex (d : Detection) : Detection := with_i d None.

(** The text and the thinking that the content and thinking chunks of a
    stream add up to. *)
Definition streamed (chunks : list Stream.Chunk) : jsstring :=
  mjoin ((λ chunk, match chunk with
                   | Stream.ContentChunk content => content
                   | _ => []
                   end) <$> chunks).

Definition thought (chunks : list Stream.Chunk) : jsstring :=
  mjoin ((λ chunk, match chunk with
                   | Stream.ThinkingChunk content => content
                   | _ => []
                   end) <$> chunks).

(* END OF DEFINITIONS *)

(** * Properties *)

(** A closed, decidable statement is settled by evaluating its decision
    procedure. *)
Ltac by_evaluation :=
  lazymatch goal with
  | |- ?P => refine (bool_decide_unpack P _); vm_compute; exact I
  end.

(** ** Binary64 comparisons used by the threshold *)

Section FloatFacts.

Local Open Scope float_scope.

Lemma SFltb_notNegative x t :
  SFltb (S754_zero false) t = false → notNegative x → SFltb x t = false.
Proof.
  unfold SFltb, SFcompare.
  destruct t as [st|st| |st mt et], x as [s|s| |s m e]; simpl;
    try congruence; try (intros ? ->); try destruct st; try destruct s;
    try congruence; try done.
Qed.

Lemma binary_round_aux_notNegative prec emax m e l :
  notNegative (binary_round_aux prec emax false m e l).
Proof.
  unfold binary_round_aux.
  destruct (shr_fexp prec emax m e l) as [mrs' e'].
  destruct (shr_fexp prec emax _ e' loc_Exact) as [mrs'' e''].
  destruct (shr_m mrs''); [done| |done].
  by destruct (Z.leb e'' (emax - prec)).
Qed.

Lemma SFmul_notNegative prec emax x m e :
  SFleb (S754_zero false) x = true →
  notNegative (SFmul prec emax x (S754_finite false m e)).
Proof.
  unfold SFleb, SFcompare.
  destruct x as [s|s| |s mx ex]; simpl; try done.
  - destruct s; [congruence|done].
  - destruct s; [congruence|]. intros _.
    apply binary_round_aux_notNegative.
Qed.

Lemma Prim2SF_100 : Prim2SF 100 = S754_finite false 7036874417766400 (-46).
Proof. vm_compute. reflexivity. Qed.

Lemma Prim2SF_0 : Prim2SF 0 = S754_zero false.
Proof. vm_compute. reflexivity. Qed.

(** A confidence that is not negative is never below a threshold that is
    not positive. *)
Lemma not_below_nonpositive (c t : float) :
  (0 <=? c) = true → (0 <? t) = false → (c * 100 <? t) = false.
Proof.
  rewrite leb_spec, !ltb_spec, mul_spec, Prim2SF_100, Prim2SF_0.
  intros Hc Ht. apply SFltb_notNegative; [done|].
  by apply SFmul_notNegative.
Qed.

(** [1.0 * 100] is never below a threshold of at most 100. *)
Lemma full_confidence_not_below (t : float) :
  (t <=? 100) = true → (1 * 100 <? t) = false.
Proof.
  replace (1 * 100) with 100 by (vm_compute; reflexivity).
  rewrite leb_spec, ltb_spec, Prim2SF_100.
  unfold SFleb, SFltb, SFcompare.
  destruct (Prim2SF t) as [s|s| |s m e]; try congruence.
  - destruct s; congruence.
  - destruct s; try congruence.
    rewrite (Z.compare_antisym e (-46)%Z).
    destruct (e ?= -46)%Z eqn:He; cbn [CompOpp]; try congruence.
    rewrite <- (Pos.compare_cont_antisym _ _ Eq).
    destruct (Pos.compare_cont Eq 7036874417766400 m); cbn [CompOpp];
      congruence.
Qed.

End FloatFacts.

(** ** Occurrence activation state *)

Section ActivationFacts.
Import Activation.

Lemma inactiveOf_handleToggleOccurrence messageIndex k makeActive st :
  inactiveOf (handleToggleOccurrence messageIndex k makeActive st)
             messageIndex
  = toggle (inactiveOf st messageIndex) k makeActive.
Proof.
  unfold handleToggleOccurrence.
  set (s := toggle _ _ _). unfold inactiveOf at 1.
  destruct (decide (size s = 0)) as [Hs|Hs].
  - rewrite lookup_delete_eq. simpl.
    apply size_empty_inv in Hs. by apply leibniz_equiv in Hs.
  - by rewrite lookup_insert_eq.
Qed.

Lemma inactiveOf_runToggles messageIndex calls st :
  inactiveOf (runToggles messageIndex calls st) messageIndex
  = foldl (λ s c, toggle s c.1 c.2) (inactiveOf st messageIndex) calls.
Proof.
  unfold runToggles. revert st.
  induction calls as [|c calls IH]; intros st; [done|].
  simpl. by rewrite IH, inactiveOf_handleToggleOccurrence.
Qed.

Lemma foldl_toggle_activate (calls : list (nat * bool)) (s : gset nat) :
  Forall (λ c, c.2 = true) calls →
  foldl (λ s c, toggle s c.1 c.2) s calls = s ∖ list_to_set calls.*1.
Proof.
  intros H. revert s.
  induction H as [|[k a] calls Ha _ IH]; intros s; simpl in *.
  - set_solver.
  - subst a. rewrite IH. unfold toggle. set_solver.
Qed.

Lemma foldl_toggle_deactivate (calls : list (nat * bool)) (s : gset nat) :
  Forall (λ c, c.2 = false) calls →
  foldl (λ s c, toggle s c.1 c.2) s calls = list_to_set calls.*1 ∪ s.
Proof.
  intros H. revert s.
  induction H as [|[k a] calls Ha _ IH]; intros s; simpl in *.
  - set_solver.
  - subst a. rewrite IH. unfold toggle. set_solver.
Qed.

(** Membership in a list built by [forEach] with a conditional push. *)
Lemma elem_of_conditional_push {B} (cond : nat → Detection → bool)
    (f : nat → Detection → B) (detections : list Detection) (x : B) :
  x ∈ mjoin (imap (λ idx d, if cond idx d then [f idx d] else [])
                  detections)
  ↔ ∃ idx d, detections !! idx = Some d ∧ cond idx d = true ∧ x = f idx d.
Proof.
  rewrite list_elem_of_join. split.
  - intros (l & Hx & Hl). apply elem_of_lookup_imap in Hl.
    destruct Hl as (idx & d & -> & Hd). exists idx, d.
    destruct (cond idx d); [|by apply elem_of_nil in Hx].
    apply list_elem_of_singleton in Hx. done.
  - intros (idx & d & Hd & Hc & ->).
    exists [f idx d]. split; [apply list_elem_of_singleton; done|].
    apply elem_of_lookup_imap. exists idx, d. by rewrite Hc.
Qed.

Lemma elem_of_indicesOf detections k :
  k ∈ indicesOf detections
  ↔ ∃ idx d, detections !! idx = Some d ∧ occurrenceIndex d idx = k.
Proof.
  unfold indicesOf. rewrite elem_of_list_to_set, elem_of_lookup_imap.
  naive_solver.
Qed.

Lemma elem_of_belowSet detections value k :
  k ∈ belowSet detections value
  ↔ ∃ idx d, detections !! idx = Some d ∧ belowThreshold d value = true
             ∧ occurrenceIndex d idx = k.
Proof.
  unfold belowSet. rewrite elem_of_list_to_set.
  pose proof (elem_of_conditional_push (λ _ d, belowThreshold d value)
                (λ idx d, occurrenceIndex d idx) detections k) as H.
  simpl in H. rewrite H. naive_solver.
Qed.

(** What the slider handler leaves in the inactive set of the message:
    the reset removes the occurrence indices of the detections, the
    second pass adds those below a positive threshold. *)
Lemma inactiveOf_applyConfidenceThreshold messageIndex detections value st :
  inactiveOf (applyConfidenceThreshold messageIndex detections value st)
             messageIndex
  = (inactiveOf st messageIndex ∖ indicesOf detections)
      ∪ (if (0 <? value)%float then belowSet detections value else ∅).
Proof.
  unfold applyConfidenceThreshold, handleSliderChange.
  rewrite inactiveOf_runToggles, foldl_app.
  set (P := inactiveOf st messageIndex).
  set (reset := mjoin (imap _ detections)).
  assert (Hreset : ∀ c, c ∈ reset ↔
            ∃ idx d, detections !! idx = Some d
                     ∧ occurrenceIndex d idx ∈ P
                     ∧ c = (occurrenceIndex d idx, true)).
  { intros c. unfold reset.
    pose proof (elem_of_conditional_push
                  (λ idx d, bool_decide (occurrenceIndex d idx ∈ P))
                  (λ idx d, (occurrenceIndex d idx, true))
                  detections c) as H.
    simpl in H. rewrite H. by setoid_rewrite bool_decide_eq_true. }
  rewrite (foldl_toggle_activate reset).
  2:{ apply Forall_forall. intros c Hc. apply Hreset in Hc.
      by destruct Hc as (? & ? & _ & _ & ->). }
  assert (HP : P ∖ list_to_set reset.*1 = P ∖ indicesOf detections).
  { apply set_eq. intros k.
    rewrite !elem_of_difference, elem_of_list_to_set, elem_of_indicesOf,
      list_elem_of_fmap.
    split; intros [HkP Hk]; split; try done.
    - intros (idx & d & Hd & <-). apply Hk.
      exists (occurrenceIndex d idx, true). split; [done|].
      apply Hreset. eauto.
    - intros (c & -> & Hc). apply Hreset in Hc.
      destruct Hc as (idx & d & Hd & _ & ->). apply Hk. eauto. }
  rewrite HP. destruct (0 <? value)%float; simpl; [|set_solver].
  set (deact := mjoin (imap _ detections)).
  assert (Hdeact : ∀ c, c ∈ deact ↔
            ∃ idx d, detections !! idx = Some d
                     ∧ belowThreshold d value = true
                     ∧ c = (occurrenceIndex d idx, false)).
  { intros c. unfold deact.
    apply (elem_of_conditional_push (λ _ d, belowThreshold d value)
             (λ idx d, (occurrenceIndex d idx, false))). }
  rewrite (foldl_toggle_deactivate deact).
  2:{ apply Forall_forall. intros c Hc. apply Hdeact in Hc.
      by destruct Hc as (? & ? & _ & _ & ->). }
  assert (HD : list_to_set deact.*1 = belowSet detections value).
  { apply set_eq. intros k.
    rewrite elem_of_list_to_set, elem_of_belowSet, list_elem_of_fmap.
    split.
    - intros (c & -> & Hc). apply Hdeact in Hc.
      destruct Hc as (idx & d & Hd & Hb & ->). eauto.
    - intros (idx & d & Hd & Hb & <-).
      exists (occurrenceIndex d idx, false). split; [done|].
      apply Hdeact. eauto. }
  rewrite HD. set_solver.
Qed.

End ActivationFacts.

Section ThresholdClaim.
Import Activation Scenario.

Lemma belowSet_subseteq_indicesOf detections value :
  belowSet detections value ⊆ indicesOf detections.
Proof.
  intros k. rewrite elem_of_belowSet, elem_of_indicesOf. naive_solver.
Qed.

Lemma belowSet_nonpositive detections value :
  Forall (λ d, (0 <=? confidence d)%float = true) detections →
  (0 <? value)%float = false →
  belowSet detections value = ∅.
Proof.
  intros Hc Hv. apply set_eq. intros k.
  rewrite elem_of_belowSet, elem_of_empty. split; [|done].
  intros (idx & d & Hd & Hb & _).
  rewrite Forall_forall in Hc.
  assert (d ∈ detections) as Hin by eauto using list_elem_of_lookup_2.
  unfold belowThreshold in Hb.
  rewrite (not_below_nonpositive _ _ (Hc d Hin) Hv) in Hb. done.
Qed.

(** C5, as the code has it.  The reset pass of [handleSliderChange]
    re-activates the occurrence indices of the detections it walks and
    nothing else.  So, for every detection list and every prior inactive
    set: applying [T1] and then [T2] leaves what applying [T2] alone
    leaves; an index of the prior set that no detection carries stays
    inactive; and when the prior set is made of occurrence indices of
    the detections (and no confidence is negative), the inactive set
    after threshold [T2] is exactly the set of occurrence indices of the
    detections with [confidence * 100 < T2]. *)
Theorem C5_threshold_resets_then_applies
    messageIndex detections (T1 T2 : float) st :
  inactiveOf
      (applyConfidenceThreshold messageIndex detections T2
         (applyConfidenceThreshold messageIndex detections T1 st))
      messageIndex
    = inactiveOf (applyConfidenceThreshold messageIndex detections T2 st)
                 messageIndex
  ∧ (∀ k, k ∈ inactiveOf st messageIndex → k ∉ indicesOf detections →
          k ∈ inactiveOf
                (applyConfidenceThreshold messageIndex detections T2 st)
                messageIndex)
  ∧ (inactiveOf st messageIndex ⊆ indicesOf detections →
     Forall (λ d, (0 <=? confidence d)%float = true) detections →
     inactiveOf (applyConfidenceThreshold messageIndex detections T2 st)
                messageIndex
     = belowSet detections T2).
Proof.
  rewrite !inactiveOf_applyConfidenceThreshold.
  pose proof (belowSet_subseteq_indicesOf detections T1) as H1.
  pose proof (belowSet_subseteq_indicesOf detections T2) as H2.
  split; [|split].
  - destruct (0 <? T1)%float, (0 <? T2)%float; set_solver.
  - set_solver.
  - intros Hsub Hconf. destruct (0 <? T2)%float eqn:HT2.
    + set_solver.
    + rewrite (belowSet_nonpositive _ _ Hconf HT2). set_solver.
Qed.

Lemma C5_threshold_witness :
  inactiveOf {[0 := {[1]}]} 0 ⊆ indicesOf detectionsA
  ∧ Forall (λ d, (0 <=? confidence d)%float = true) detectionsA
  ∧ inactiveOf (applyConfidenceThreshold 0 detectionsA 97 {[0 := {[1]}]}) 0
    = belowSet detectionsA 97
  ∧ inactiveOf
      (applyConfidenceThreshold 0 detectionsA 97
         (applyConfidenceThreshold 0 detectionsA 50 {[0 := {[5]}]})) 0
    = inactiveOf (applyConfidenceThreshold 0 detectionsA 97 {[0 := {[5]}]})
                 0.
Proof.
  assert (H1 : inactiveOf {[0 := {[1]}]} 0 ⊆ indicesOf detectionsA).
  { intros k Hk. apply elem_of_indicesOf.
    unfold inactiveOf in Hk. rewrite lookup_singleton_eq in Hk.
    simpl in Hk. apply elem_of_singleton in Hk as ->.
    exists 1, email. done. }
  assert (H2 : Forall (λ d, (0 <=? confidence d)%float = true) detectionsA).
  { repeat constructor. }
  split; [exact H1|]. split; [exact H2|]. split.
  - exact (proj2 (proj2 (C5_threshold_resets_then_applies
                           0 detectionsA 50 97 {[0 := {[1]}]})) H1 H2).
  - exact (proj1 (C5_threshold_resets_then_applies
                    0 detectionsA 50 97 {[0 := {[5]}]})).
Defined.

(** C5 as stated fails when the inactive set holds an index that no
    detection carries: the reset never visits it.  With one stale index
    5 and threshold 50 over the detections of scenario A, no detection is
    below the threshold and 5 stays inactive. *)
Lemma C5_stale_index_survives :
  inactiveOf (applyConfidenceThreshold 0 detectionsA 50 {[0 := {[5]}]}) 0
    = {[5]}
  ∧ belowSet detectionsA 50 = ∅
  ∧ ({[5]} : gset nat) ≠ ∅.
Proof.
  repeat split; by_evaluation.
Qed.

End ThresholdClaim.


(** ** Detections created by the tagging operations *)

Section CreatedDetections.
Import Tagging Activation.

Lemma with_i_id d : with_i d (i d) = d.
Proof. by destruct d. Qed.

Lemma with_i_with_i d v w : with_i (with_i d v) w = with_i d w.
Proof. done. Qed.

Lemma keptFrom_refl detections d : d ∈ detections → keptFrom detections d.
Proof. intros Hd. exists d, (i d). by rewrite with_i_id. Qed.

Lemma elem_of_renumberFrom from tail d' :
  d' ∈ renumberFrom from tail →
  ∃ d, d ∈ tail ∧ (d' = d ∨ ∃ k, d' = with_i d (Some k)).
Proof.
  unfold renumberFrom. rewrite elem_of_lookup_imap.
  intros (k & d & -> & Hd).
  apply list_elem_of_lookup_2 in Hd.
  exists d. split; [done|]. destruct (i d); eauto.
Qed.

Lemma elem_of_insertManual E S P k detections d' :
  d' ∈ insertManual E S P k detections →
  (∃ d, d ∈ detections ∧ (d' = d ∨ ∃ k', d' = with_i d (Some k')))
  ∨ d' = manualDetection E S P k.
Proof.
  unfold insertManual. rewrite elem_of_app, elem_of_cons.
  intros [Hd|[->|Hd]]; [left|by right|left].
  - apply elem_of_take in Hd as (j & Hj & _).
    exists d'. eauto using list_elem_of_lookup_2.
  - apply elem_of_renumberFrom in Hd as (d & Hd & Hd').
    exists d. split; [|done].
    apply list_elem_of_lookup_1 in Hd as [j Hj].
    rewrite lookup_drop in Hj. eauto using list_elem_of_lookup_2.
Qed.

Lemma insertManual_keeps_or_creates E S P k detections0 detections :
  Forall (λ d', keptFrom detections0 d' ∨ createdBy E S d') detections →
  Forall (λ d', keptFrom detections0 d' ∨ createdBy E S d')
         (insertManual E S P k detections).
Proof.
  rewrite !Forall_forall. intros H d' Hd'.
  apply elem_of_insertManual in Hd' as [(d & Hd & Hd')| ->].
  - destruct Hd' as [->|[k' ->]]; [by apply H|].
    destruct (H d Hd) as [(d0 & v0 & Hd0 & ->)|(P0 & k0 & ->)].
    + left. exists d0, (Some k'). by rewrite with_i_with_i.
    + right. by exists P0, k'.
  - right. by exists P, k.
Qed.

Lemma input_kept detections E S :
  Forall (λ d', keptFrom detections d' ∨ createdBy E S d') detections.
Proof.
  apply Forall_forall. intros d Hd. left. by apply keptFrom_refl.
Qed.

Lemma handleReplace_keeps_or_creates text detections S E text' detections' :
  handleReplace text detections S E = Some (text', detections') →
  Forall (λ d', keptFrom detections d' ∨ createdBy E S d') detections'.
Proof.
  unfold handleReplace. destruct E as [|c E]; [done|].
  destruct (find _ detections); intros [= <- <-].
  - apply input_kept.
  - apply insertManual_keeps_or_creates, input_kept.
Qed.

Lemma replaceAllStep_keeps_or_creates newText E S P detections0 detections pos :
  Forall (λ d', keptFrom detections0 d' ∨ createdBy E S d') detections →
  Forall (λ d', keptFrom detections0 d' ∨ createdBy E S d')
         (replaceAllStep newText E S P detections pos).
Proof.
  intros H. unfold replaceAllStep. destruct (existsb _ _); [done|].
  by apply insertManual_keeps_or_creates.
Qed.

Lemma foldl_replaceAllStep_keeps_or_creates newText E S P detections0
    positions acc :
  Forall (λ d', keptFrom detections0 d' ∨ createdBy E S d') acc →
  Forall (λ d', keptFrom detections0 d' ∨ createdBy E S d')
         (foldl (replaceAllStep newText E S P) acc positions).
Proof.
  revert acc.
  induction positions as [|pos positions IH]; intros acc Hacc; [done|].
  simpl. apply IH. by apply replaceAllStep_keeps_or_creates.
Qed.

Lemma handleReplaceAll_keeps_or_creates text detections S E text' detections' :
  handleReplaceAll text detections S E = Some (text', detections') →
  Forall (λ d', keptFrom detections d' ∨ createdBy E S d') detections'.
Proof.
  unfold handleReplaceAll. destruct E as [|c E]; [done|].
  intros [= <- <-].
  apply foldl_replaceAllStep_keeps_or_creates, input_kept.
Qed.

Lemma insertIndexLoop_le newText position rest idx insertIndex :
  insertIndex ≤ idx →
  insertIndexLoop newText position rest idx insertIndex ≤ idx + length rest.
Proof.
  revert idx insertIndex.
  induction rest as [|d rest IH]; intros idx insertIndex Hle; simpl; [lia|].
  destruct (appearsBefore newText position d); [|lia].
  specialize (IH (S idx) (S idx)). lia.
Qed.

Lemma findInsertIndex_le newText position detections :
  findInsertIndex newText position detections ≤ length detections.
Proof. apply (insertIndexLoop_le _ _ _ 0 0). lia. Qed.

(** The occurrence-index invariant survives an insertion. *)
Lemma insertManual_indexInvariant E S P k detections :
  k ≤ length detections →
  indexInvariant detections →
  indexInvariant (insertManual E S P k detections).
Proof.
  intros Hk Hinv j d. unfold insertManual.
  assert (Hlen : length (take k detections) = k) by (rewrite length_take; lia).
  destruct (decide (j < k)) as [Hj|Hj].
  - rewrite lookup_app_l by lia. rewrite lookup_take_lt by done. apply Hinv.
  - rewrite lookup_app_r by lia. rewrite Hlen.
    destruct (j - k) as [|n] eqn:Hn; simpl.
    + intros [= <-]. simpl. f_equal. lia.
    + unfold renumberFrom. rewrite list_lookup_imap, lookup_drop.
      destruct (detections !! (k + n)) as [d0|] eqn:Hd0; [|done].
      simpl. intros [= <-]. rewrite (Hinv _ _ Hd0). simpl. f_equal. lia.
Qed.

Lemma handleReplace_indexInvariant text detections S E text' detections' :
  handleReplace text detections S E = Some (text', detections') →
  indexInvariant detections → indexInvariant detections'.
Proof.
  unfold handleReplace. destruct E as [|c E]; [done|].
  destruct (find _ detections); intros [= <- <-] Hinv; [done|].
  apply insertManual_indexInvariant; [apply findInsertIndex_le|done].
Qed.

Lemma foldl_replaceAllStep_indexInvariant newText E S P positions acc :
  indexInvariant acc →
  indexInvariant (foldl (replaceAllStep newText E S P) acc positions).
Proof.
  revert acc.
  induction positions as [|pos positions IH]; intros acc Hacc; [done|].
  simpl. apply IH. unfold replaceAllStep.
  destruct (existsb _ _); [done|].
  apply insertManual_indexInvariant; [apply findInsertIndex_le|done].
Qed.

Lemma handleReplaceAll_indexInvariant text detections S E text' detections' :
  handleReplaceAll text detections S E = Some (text', detections') →
  indexInvariant detections → indexInvariant detections'.
Proof.
  unfold handleReplaceAll. destruct E as [|c E]; [done|].
  intros [= <- <-]. apply foldl_replaceAllStep_indexInvariant.
Qed.

(** A detection of full confidence is not in the inactive set left by a
    threshold of at most 100, when the detections carry their array index. *)
Lemma full_confidence_stays_active detections (T : float) messageIndex st
    idx d :
  indexInvariant detections →
  detections !! idx = Some d →
  confidence d = 1%float →
  (T <=? 100)%float = true →
  occurrenceIndex d idx
    ∉ inactiveOf (applyConfidenceThreshold messageIndex detections T st)
                 messageIndex.
Proof.
  intros Hinv Hd Hc HT.
  rewrite inactiveOf_applyConfidenceThreshold.
  assert (Hnb : occurrenceIndex d idx ∉ belowSet detections T).
  { rewrite elem_of_belowSet. intros (idx' & d' & Hd' & Hb & Heq).
    unfold occurrenceIndex in Heq.
    rewrite (Hinv _ _ Hd), (Hinv _ _ Hd') in Heq. simpl in Heq. subst idx'.
    assert (d' = d) as -> by congruence.
    unfold belowThreshold in Hb. rewrite Hc in Hb.
    by rewrite (full_confidence_not_below T HT) in Hb. }
  assert (Hin : occurrenceIndex d idx ∈ indicesOf detections).
  { apply elem_of_indicesOf. eauto. }
  destruct (0 <? T)%float; set_solver.
Qed.

(** C10.  Every detection in the output of [handleReplace] or
    [handleReplaceAll] is kept from the input (at most renumbered) or is
    the literal the operation creates, whose confidence is exactly 1.0;
    and for a message that satisfies the index invariant and a threshold
    [T] in [0, 100], a created detection is never in the inactive set that
    [applyConfidenceThreshold T] leaves on the updated message. *)
Theorem C10_manual_detections_never_below_threshold
    text detections S E text' detections' :
  handleReplace text detections S E = Some (text', detections')
  ∨ handleReplaceAll text detections S E = Some (text', detections') →
  indexInvariant detections →
  Forall (λ d', keptFrom detections d'
                ∨ (createdBy E S d' ∧ confidence d' = 1%float)) detections'
  ∧ ∀ (T : float) messageIndex st idx d',
      (0 <=? T)%float = true → (T <=? 100)%float = true →
      detections' !! idx = Some d' → createdBy E S d' →
      occurrenceIndex d' idx
        ∉ inactiveOf (applyConfidenceThreshold messageIndex detections' T st)
                     messageIndex.
Proof.
  intros Hrun Hinv.
  assert (Hshape : Forall (λ d', keptFrom detections d' ∨ createdBy E S d')
                          detections').
  { destruct Hrun as [Hrun|Hrun];
      eauto using handleReplace_keeps_or_creates,
                  handleReplaceAll_keeps_or_creates. }
  assert (Hinv' : indexInvariant detections').
  { destruct Hrun as [Hrun|Hrun];
      eauto using handleReplace_indexInvariant,
                  handleReplaceAll_indexInvariant. }
  split.
  - eapply Forall_impl; [exact Hshape|]. simpl.
    intros d' [Hk|Hc]; [by left|right]. split; [done|].
    by destruct Hc as (P & k & ->).
  - intros T messageIndex st idx d' _ HT Hd' (P & k & ->).
    by apply full_confidence_stays_active.
Qed.

End CreatedDetections.

Section CreatedDetectionsWitness.
Import Tagging Activation Scenario.

Lemma detectionsA_indexInvariant : indexInvariant detectionsA.
Proof. intros [|[|k]] d; simpl; intros [= <-]; done. Qed.

(** Scenario B: the new detection goes last and [i = 0, 1] stay. *)
Lemma scenarioB_handleReplace :
  handleReplace textB detectionsA (str "555-1234") (str "ssn")
  = Some (taggedB, [johnSmith; email; ssn 2]).
Proof. vm_compute. reflexivity. Qed.

Lemma C10_manual_detections_witness :
  (handleReplace textB detectionsA (str "555-1234") (str "ssn")
     = Some (taggedB, [johnSmith; email; ssn 2])
   ∨ handleReplaceAll textB detectionsA (str "555-1234") (str "ssn")
     = Some (taggedB, [johnSmith; email; ssn 2]))
  ∧ indexInvariant detectionsA
  ∧ Forall (λ d', keptFrom detectionsA d'
                  ∨ (createdBy (str "ssn") (str "555-1234") d'
                     ∧ confidence d' = 1%float))
           [johnSmith; email; ssn 2].
Proof.
  pose proof (or_introl scenarioB_handleReplace
    : handleReplace textB detectionsA (str "555-1234") (str "ssn")
        = Some (taggedB, [johnSmith; email; ssn 2])
      ∨ handleReplaceAll textB detectionsA (str "555-1234") (str "ssn")
        = Some (taggedB, [johnSmith; email; ssn 2])) as Hrun.
  split; [exact Hrun|]. split; [exact detectionsA_indexInvariant|].
  exact (proj1 (C10_manual_detections_never_below_threshold
                  _ _ _ _ _ _ Hrun detectionsA_indexInvariant)).
Defined.

End CreatedDetectionsWitness.

(** ** Toggling an entity *)

Section ToggleEntity.
Import ChatInterface Scenario.

(** With detections on the message, the handler always ends in the
    exception, whatever the arguments. *)
Lemma handleToggleEntity_throws messages messageIndex message detections
    originalText makeActive st :
  messages !! messageIndex = Some message →
  detected_pii message = Some detections →
  handleToggleEntity messages messageIndex originalText makeActive st
  = Thrown (str "ReferenceError: setInactiveReplacements is not defined").
Proof.
  intros Hm Hd. unfold handleToggleEntity. rewrite Hm. simpl. by rewrite Hd.
Qed.

(** C4 (the code at the failing input).  On the message of scenario A with
    every occurrence active, [toggleEntity("John Smith", false)] throws,
    and occurrence 0, whose original is "John Smith", is not in the
    inactive set afterwards; the sibling [handleToggleAllOccurrences] on the
    placeholder of the same detection does put 0 there. *)
Theorem C4_toggleEntity_does_not_deactivate :
  handleToggleEntity [mkMessage textA (Some (Some detectionsA))] 0
                     (str "John Smith") false (mkState ∅ ∅)
    = Thrown (str "ReferenceError: setInactiveReplacements is not defined")
  ∧ inactiveAfter
      (handleToggleEntity [mkMessage textA (Some (Some detectionsA))] 0
                          (str "John Smith") false (mkState ∅ ∅))
      (mkState ∅ ∅) 0 = ∅
  ∧ inactiveAfter
      (handleToggleAllOccurrences [mkMessage textA (Some (Some detectionsA))] 0
                                  (str "[NAME_1]") false (mkState ∅ ∅))
      (mkState ∅ ∅) 0 = {[0]}.
Proof.
  split; [reflexivity|]. split; by_evaluation.
Qed.

End ToggleEntity.

(** ** Export reversal *)

Section ExportReversalFacts.
Import ExportReversal Scenario.

(** Scenario A: deactivating occurrence 0 shows the name. *)
Lemma scenarioA_occurrence_0 :
  applyInactiveOccurrences textA detectionsA {[0]}
  = str "Contact John Smith at [EMAIL].".
Proof. vm_compute. reflexivity. Qed.

(** A detection whose placeholder occurs once in the text is restored
    only when its [i] is 0: the count of the only match is 0. *)
Lemma restoreOccurrence_counts_globally text d k index len :
  i d = Some (S k) →
  Regex.matches
    (Regex.matchPattern false (Regex.escapeRegExp (replacement d))) text
  = [(index, S len)] →
  restoreOccurrence text d = text.
Proof. intros Hi Hm. unfold restoreOccurrence. by rewrite Hm, Hi. Qed.

(** C1 (the code at the failing input).  In scenario A the placeholder
    [[EMAIL]] occurs once and its detection has [i = 1].  With occurrence 1
    inactive, the loop compares the running count of [[EMAIL]] matches (0
    at the only match) with [detection.i = 1]: nothing is substituted and
    the text comes back as it was, where the procedure of the
    specification shows the address. *)
Theorem C1_single_occurrence_not_restored :
  applyInactiveOccurrences textA detectionsA {[1]} = textA
  ∧ Spec.effectiveText textA detectionsA {[1]}
    = str "Contact [NAME_1] at j@x.com."
  ∧ Spec.effectiveText textA detectionsA {[0]}
    = applyInactiveOccurrences textA detectionsA {[0]}.
Proof. repeat split; vm_compute; reflexivity. Qed.

End ExportReversalFacts.

(** ** Replace-All invoked again *)

Section ReplaceAllAgain.
Import Tagging Scenario.

(** Scenario C: one placeholder value, three detections, [i] ascending
    from left to right; the detection of [[NAME_1]], which follows the first
    match, is renumbered. *)
Lemma scenarioC_handleReplaceAll :
  handleReplaceAll textC [johnSmith] (str "Acme Corp") (str "org")
  = Some (taggedC, [org 0; with_i johnSmith (Some 1); org 2; org 3]).
Proof. vm_compute. reflexivity. Qed.

(** C2 (the code at the failing input).  After Replace-All tagged both
    occurrences of "Acme Corp", invoking it again with the same substring
    and type finds the placeholder at offsets 0 and 12; the test
    [newText.indexOf(d.replacement) === position] holds only at the first
    offset, so a third detection is inserted for the second one. *)
Theorem C2_replaceAll_again_inserts_duplicate :
  handleReplaceAll (str "Acme Corp and Acme Corp") []
                   (str "Acme Corp") (str "org")
    = Some (str "[ORG_1] and [ORG_1]", [org 0; org 1])
  ∧ handleReplaceAll (str "[ORG_1] and [ORG_1]") [org 0; org 1]
                     (str "Acme Corp") (str "org")
    = Some (str "[ORG_1] and [ORG_1]", [org 0; org 1; org 2]).
Proof. split; vm_compute; reflexivity. Qed.

End ReplaceAllAgain.

(** ** The matches of a global regular expression *)

Section ScanFacts.
Import JsString Regex.

Variable m : jsstring → option nat.

(** Matches are found at or after the current offset, at increasing
    offsets. *)
Lemma scanRegex_lower_bound s k skip :
  Forall (λ r, k + skip ≤ r.1) (scanRegex m s k skip).
Proof.
  revert k skip. induction s as [|c s IH]; intros k skip; simpl.
  - destruct skip; [|done]. destruct (m []); [|done].
    constructor; [simpl; lia|done].
  - destruct skip as [|skip].
    + destruct (m (c :: s)) as [len|].
      * constructor; [simpl; lia|].
        eapply Forall_impl; [apply IH|]. simpl. intros; lia.
      * eapply Forall_impl; [apply IH|]. simpl. intros; lia.
    + eapply Forall_impl; [apply IH|]. simpl. intros; lia.
Qed.

Lemma scanRegex_NoDup s k skip : NoDup (scanRegex m s k skip).*1.
Proof.
  revert k skip. induction s as [|c s IH]; intros k skip; simpl.
  - destruct skip; [|constructor]. destruct (m []); simpl.
    + apply NoDup_singleton.
    + constructor.
  - destruct skip as [|skip]; [|apply IH].
    destruct (m (c :: s)) as [len|]; [|apply IH].
    simpl. constructor; [|apply IH].
    intros Hin. apply list_elem_of_fmap in Hin as (r & Hr & Hin).
    pose proof (scanRegex_lower_bound s (S k) (len - 1)) as Hlb.
    rewrite Forall_forall in Hlb. specialize (Hlb r Hin). lia.
Qed.

Lemma scanRegex_skip_drop s k skip :
  skip ≤ length s →
  scanRegex m s k skip = scanRegex m (drop skip s) (k + skip) 0.
Proof.
  revert k skip. induction s as [|c s IH]; intros k skip Hskip.
  - simpl in Hskip. replace skip with 0 by lia. by rewrite Nat.add_0_r.
  - destruct skip as [|skip].
    + by rewrite drop_0, Nat.add_0_r.
    + simpl in *. rewrite IH by lia. f_equal. lia.
Qed.

Lemma exec_lower_bound s k pos len :
  exec m s k = Some (pos, len) → k ≤ pos.
Proof.
  revert k. induction s as [|c s IH]; intros k; simpl.
  - destruct (m []); [|done]. intros [= <- _]. lia.
  - destruct (m (c :: s)); [intros [= <- _]; lia|].
    intros H. apply IH in H. lia.
Qed.

(** The scan is the loop of the source: take the next match with [exec],
    then resume behind it ([lastIndex = pos + len]).  Matches are not
    empty. *)
Lemma scanRegex_exec s k :
  (∀ s len, m s = Some len → 0 < len ≤ length s) →
  scanRegex m s k 0
  = match exec m s k with
    | None => []
    | Some (pos, len) =>
      (pos, len) :: scanRegex m (drop (pos - k + len) s) (pos + len) 0
    end.
Proof.
  intros Hm. revert k. induction s as [|c s IH]; intros k; simpl.
  - destruct (m []) as [len|] eqn:Hl; [|done].
    apply Hm in Hl. simpl in Hl. lia.
  - destruct (m (c :: s)) as [len|] eqn:Hl.
    + apply Hm in Hl. simpl in Hl. f_equal.
      rewrite scanRegex_skip_drop by lia.
      replace (k - k + len) with (S (len - 1)) by lia. simpl.
      f_equal. lia.
    + rewrite IH.
      destruct (exec m s (S k)) as [[pos len]|] eqn:He; [|done].
      apply exec_lower_bound in He.
      replace (pos - k + len) with (S (pos - S k + len)) by lia. done.
Qed.

End ScanFacts.

(** ** The position resolver *)

Section RenderFacts.
Import JsString Regex Render.

Lemma placeholderMatches_positions text :
  (placeholderMatches text).*1 = (matches matchPlaceholder text).*1.
Proof.
  unfold placeholderMatches. rewrite <- list_fmap_compose. done.
Qed.

Lemma placeholderMatches_NoDup text : NoDup (placeholderMatches text).*1.
Proof. rewrite placeholderMatches_positions. apply scanRegex_NoDup. Qed.

(** How many of the first [j] matches are the placeholder [P]. *)
Lemma seenBefore_cons (P : jsstring) (t : nat * jsstring) found j :
  length (List.filter (λ t, bool_decide (t.2 = P)) (take (S j) (t :: found)))
  = (if bool_decide (t.2 = P) then 1 else 0)
    + length (List.filter (λ t, bool_decide (t.2 = P)) (take j found)).
Proof. simpl. by destruct (bool_decide (t.2 = P)). Qed.

Lemma positionLoop_other detections found counts map pos :
  pos ∉ found.*1 →
  positionLoop detections found counts map !! pos = map !! pos.
Proof.
  revert counts map.
  induction found as [|[p P] found IH]; intros counts map Hpos; [done|].
  simpl in *. apply not_elem_of_cons in Hpos as [Hne Hpos].
  rewrite IH by done.
  destruct (matchingDetections detections P !! _); [|done].
  by rewrite lookup_insert_ne.
Qed.

Lemma positionLoop_lookup detections found counts map j pos P :
  NoDup found.*1 →
  found !! j = Some (pos, P) →
  positionLoop detections found counts map !! pos
  = match matchingDetections detections P
            !! (default 0 (counts !! P)
                + length (List.filter (λ t, bool_decide (t.2 = P))
                                      (take j found))) with
    | Some d => Some d
    | None => map !! pos
    end.
Proof.
  revert counts map j.
  induction found as [|[p0 P0] found IH]; intros counts map j Hnd Hj;
    [done|].
  apply NoDup_cons in Hnd as [Hp0 Hnd].
  destruct j as [|j].
  - simpl in Hj. injection Hj as -> ->.
    cbn [positionLoop]. rewrite positionLoop_other by done.
    simpl. rewrite Nat.add_0_r.
    destruct (matchingDetections detections P !! _); [|done].
    by rewrite lookup_insert_eq.
  - simpl in Hj. cbn [positionLoop].
    rewrite (IH _ _ j Hnd Hj). rewrite seenBefore_cons. simpl.
    assert (Hne : p0 ≠ pos).
    { intros ->. apply Hp0. simpl.
      apply list_elem_of_fmap. exists (pos, P). split; [done|].
      eauto using list_elem_of_lookup_2. }
    assert (Hidx :
      default 0 (<[P0 := default 0 (counts !! P0) + 1]> counts !! P)
        + length (List.filter (λ t, bool_decide (t.2 = P)) (take j found))
      = default 0 (counts !! P)
        + ((if bool_decide (P0 = P) then 1 else 0)
           + length (List.filter (λ t, bool_decide (t.2 = P))
                                 (take j found)))).
    { destruct (decide (P0 = P)) as [->|HP].
      - rewrite lookup_insert_eq, bool_decide_true by done. simpl. lia.
      - rewrite lookup_insert_ne, bool_decide_false by done. simpl. lia. }
    rewrite Hidx.
    destruct (matchingDetections detections P !! _); [done|].
    destruct (matchingDetections detections P0 !! _); [|done].
    by rewrite lookup_insert_ne.
Qed.

(** C6.  The [j]-th match of the placeholder grammar, at offset [pos] and
    spelling [P], is bound by [positionToDetection] to the detection at
    index [k] of the detections (in array order) whose replacement is [P],
    where [k] counts the earlier matches that spell [P]; the [i] fields of
    the detections play no part. *)
Theorem C6_kth_occurrence_binds_kth_detection
    anonymizedText detections j pos P :
  placeholderMatches anonymizedText !! j = Some (pos, P) →
  positionToDetection anonymizedText detections !! pos
  = matchingDetections detections P
      !! length (List.filter (λ t, bool_decide (t.2 = P))
                             (take j (placeholderMatches anonymizedText))).
Proof.
  intros Hj. unfold positionToDetection.
  rewrite (positionLoop_lookup _ _ _ _ j pos P
             (placeholderMatches_NoDup _) Hj).
  rewrite lookup_empty. simpl.
  by destruct (matchingDetections detections P !! _).
Qed.

Lemma C6_binding_witness :
  placeholderMatches Scenario.textI !! 2 = Some (25, str "[NAME_1]")
  ∧ positionToDetection Scenario.textI Scenario.detectionsI !! 25
    = matchingDetections Scenario.detectionsI (str "[NAME_1]")
        !! length (List.filter (λ t, bool_decide (t.2 = str "[NAME_1]"))
                               (take 2 (placeholderMatches Scenario.textI)))
  ∧ matchingDetections Scenario.detectionsI (str "[NAME_1]")
        !! length (List.filter (λ t, bool_decide (t.2 = str "[NAME_1]"))
                               (take 2 (placeholderMatches Scenario.textI)))
    = Some (with_i Scenario.johnSmith (Some 2)).
Proof.
  assert (H : placeholderMatches Scenario.textI !! 2
              = Some (25, str "[NAME_1]")) by (vm_compute; reflexivity).
  split; [exact H|]. split.
  - exact (C6_kth_occurrence_binds_kth_detection
             Scenario.textI Scenario.detectionsI 2 25 (str "[NAME_1]") H).
  - vm_compute. reflexivity.
Defined.

(** [replacementMap] keeps the first detection of every placeholder. *)
Lemma replacementMap_from (detections : list Detection)
    (map : gmap jsstring Detection) (P : jsstring) :
  foldl (λ map detection,
           match map !! replacement detection with
           | Some _ => map
           | None => <[replacement detection := detection]> map
           end) map detections !! P
  = match map !! P with
    | Some d => Some d
    | None => head (matchingDetections detections P)
    end.
Proof.
  revert map. induction detections as [|d detections IH]; intros map; simpl.
  - by destruct (map !! P).
  - rewrite IH. unfold matchingDetections. simpl.
    destruct (map !! replacement d) as [d0|] eqn:Hd0.
    + destruct (decide (replacement d = P)) as [<-|Hne].
      * by rewrite Hd0.
      * by rewrite bool_decide_false.
    + destruct (decide (replacement d = P)) as [<-|Hne].
      * by rewrite lookup_insert_eq, Hd0, bool_decide_true.
      * by rewrite lookup_insert_ne, bool_decide_false.
Qed.

Lemma replacementMap_lookup detections P :
  replacementMap detections !! P = head (matchingDetections detections P).
Proof. unfold replacementMap. by rewrite replacementMap_from, lookup_empty. Qed.

(** Every match gets its part. *)
Lemma tokenPart_in_partsLoop text detections io ir found lastIndex pos P :
  (pos, P) ∈ found →
  tokenPart text detections io ir pos P
    ∈ partsLoop text detections io ir found lastIndex.
Proof.
  revert lastIndex.
  induction found as [|[p0 P0] found IH]; intros lastIndex Hin.
  - by apply elem_of_nil in Hin.
  - simpl. apply elem_of_app. right.
    apply elem_of_cons in Hin as [[= -> ->]|Hin].
    + apply elem_of_cons. by left.
    + apply elem_of_cons. right. by apply IH.
Qed.

(** C7, as the code has it.  A match of placeholder [P] beyond the
    detections for [P] has no entry in [positionToDetection], but
    [processedContent] falls back on [replacementMap], the first
    detection whose replacement is [P].  The part pushed for the match
    is bound to that detection: the span of its original when it is
    inactive and a label holding it otherwise, and a click on either
    toggles the occurrence index of that detection.  The label holds no
    detection only when no detection has the replacement [P]. *)
Theorem C7_excess_occurrence_falls_back_on_first
    anonymizedText detections j pos P :
  placeholderMatches anonymizedText !! j = Some (pos, P) →
  length (matchingDetections detections P)
    ≤ length (List.filter (λ t, bool_decide (t.2 = P))
                          (take j (placeholderMatches anonymizedText))) →
  positionToDetection anonymizedText detections !! pos = None
  ∧ detectionFor anonymizedText detections pos P
    = head (matchingDetections detections P)
  ∧ ∀ inactiveOccurrences inactiveReplacements,
      let first := head (matchingDetections detections P) in
      let isInactive :=
        match first ≫= i with
        | Some k => bool_decide (k ∈ inactiveOccurrences)
        | None => bool_decide (P ∈ inactiveReplacements)
        end in
      ∃ part,
        part ∈ processedContent anonymizedText detections
                                inactiveOccurrences inactiveReplacements
        ∧ part = match first with
                 | Some d => if isInactive then OriginalSpan pos P d
                             else InteractiveLabel pos P (Some d)
                 | None => InteractiveLabel pos P None
                 end
        ∧ displayed part = match first with
                           | Some d => if isInactive then original d else P
                           | None => P
                           end
        ∧ ∀ k onToggleReplacement,
            first ≫= i = Some k →
            onClick true onToggleReplacement part
            = Some (ToggleOccurrence k isInactive).
Proof.
  intros Hj Hexcess.
  assert (Hnone : positionToDetection anonymizedText detections !! pos = None).
  { unfold positionToDetection.
    rewrite (positionLoop_lookup _ _ _ _ j pos P
               (placeholderMatches_NoDup _) Hj).
    rewrite lookup_empty. simpl.
    by rewrite (lookup_ge_None_2 _ _ Hexcess). }
  assert (Hfor : detectionFor anonymizedText detections pos P
                 = head (matchingDetections detections P)).
  { unfold detectionFor. by rewrite Hnone, replacementMap_lookup. }
  split; [done|]. split; [done|].
  intros io ir first isInactive.
  exists (tokenPart anonymizedText detections io ir pos P).
  split.
  { apply tokenPart_in_partsLoop. eauto using list_elem_of_lookup_2. }
  unfold tokenPart. rewrite Hfor. fold first. fold isInactive.
  destruct first as [d|]; [|by destruct isInactive].
  destruct isInactive; (split; [done|]); (split; [done|]);
    intros k r Hk; simpl in Hk; simpl; unfold clickOf; by rewrite Hk.
Qed.

Lemma C7_excess_occurrence_witness :
  placeholderMatches Scenario.textX !! 1 = Some (13, str "[NAME_1]")
  ∧ length (matchingDetections [Scenario.johnSmith] (str "[NAME_1]"))
    ≤ length (List.filter (λ t, bool_decide (t.2 = str "[NAME_1]"))
                          (take 1 (placeholderMatches Scenario.textX)))
  ∧ detectionFor Scenario.textX [Scenario.johnSmith] 13 (str "[NAME_1]")
    = head (matchingDetections [Scenario.johnSmith] (str "[NAME_1]"))
  ∧ ∃ part,
      part ∈ processedContent Scenario.textX [Scenario.johnSmith] {[0]} ∅
      ∧ part = OriginalSpan 13 (str "[NAME_1]") Scenario.johnSmith
      ∧ displayed part = str "John Smith"
      ∧ onClick true false part = Some (ToggleOccurrence 0 true).
Proof.
  assert (H1 : placeholderMatches Scenario.textX !! 1
               = Some (13, str "[NAME_1]")) by (vm_compute; reflexivity).
  assert (H2 : length (matchingDetections [Scenario.johnSmith]
                                          (str "[NAME_1]"))
               ≤ length (List.filter
                           (λ t, bool_decide (t.2 = str "[NAME_1]"))
                           (take 1 (placeholderMatches Scenario.textX))))
    by (vm_compute; lia).
  split; [exact H1|]. split; [exact H2|].
  pose proof (C7_excess_occurrence_falls_back_on_first
                Scenario.textX [Scenario.johnSmith] 1 13
                (str "[NAME_1]") H1 H2) as (_ & Hfirst & Hpart).
  split; [exact Hfirst|].
  destruct (Hpart {[0]} ∅) as (part & Hin & Hshape & Hshown & Hclick).
  exists part. split; [exact Hin|]. split; [exact Hshape|].
  split; [exact Hshown|]. exact (Hclick 0 false eq_refl).
Defined.

(** C7 as stated fails: the second [[NAME_1]] of the text has no detection
    of its own, yet it is rendered as a label bound to the detection of the
    first one, and as its original once occurrence 0 is inactive. *)
Lemma C7_excess_occurrence_is_bound :
  processedContent Scenario.textX [Scenario.johnSmith] ∅ ∅
    = [ InteractiveLabel 0 (str "[NAME_1]") (Some Scenario.johnSmith);
        TextSpan (str " and ");
        InteractiveLabel 13 (str "[NAME_1]") (Some Scenario.johnSmith) ]
  ∧ processedContent Scenario.textX [Scenario.johnSmith] {[0]} ∅
    = [ OriginalSpan 0 (str "[NAME_1]") Scenario.johnSmith;
        TextSpan (str " and ");
        OriginalSpan 13 (str "[NAME_1]") Scenario.johnSmith ].
Proof. split; vm_compute; reflexivity. Qed.

End RenderFacts.

(** ** Escaped patterns and substitution *)

Section PatternFacts.
Import JsString Regex.

Lemma backslash_isSyntaxChar c : Ascii.eqb c "\" = true → isSyntaxChar c = true.
Proof. intros H. apply Ascii.eqb_eq in H as ->. reflexivity. Qed.

(** The flag [i] on Latin-1 code units: the two letter cases of the e
    with acute accent match; the sharp s matches no S, the micro sign no
    M and the y with diaeresis no Y; the division sign 247 is not the
    small form of the multiplication sign 215. *)
Lemma eqIgnoreCase_latin1 :
  eqIgnoreCase "233" "201" = true
  ∧ eqIgnoreCase "223" "S" = false
  ∧ eqIgnoreCase "181" "M" = false
  ∧ eqIgnoreCase "255" "Y" = false
  ∧ eqIgnoreCase "247" "215" = false.
Proof. repeat split. Qed.

(** An escaped pattern matches exactly the text it was made from. *)
Lemma matchPattern_escapeRegExp ignoreCase S s :
  matchPattern ignoreCase (escapeRegExp S) s
  = if prefixBy (if ignoreCase then eqIgnoreCase else Ascii.eqb) S s
    then Some (length S) else None.
Proof.
  revert s. induction S as [|c S IH]; intros s; [done|].
  cbn [escapeRegExp].
  destruct (isSyntaxChar c) eqn:Hc.
  - cbn [matchPattern]. change (Ascii.eqb "\" "\") with true. cbv iota.
    destruct s as [|x s]; [done|]. cbn [prefixBy]. rewrite Hc. cbn [andb].
    destruct ((if ignoreCase then eqIgnoreCase else Ascii.eqb) c x); [|done].
    rewrite IH. simpl. by destruct (prefixBy _ S s).
  - cbn [matchPattern].
    destruct (Ascii.eqb c "\") eqn:Hb.
    { apply backslash_isSyntaxChar in Hb. congruence. }
    rewrite Hc.
    destruct s as [|x s]; [done|]. cbn [prefixBy].
    destruct ((if ignoreCase then eqIgnoreCase else Ascii.eqb) c x); [|done].
    rewrite IH. simpl. by destruct (prefixBy _ S s).
Qed.

(** A replacement without [$] is inserted as it is. *)
Lemma getSubstitution_plain matched whole position replaceValue :
  "$"%char ∉ replaceValue →
  getSubstitution matched whole position replaceValue = replaceValue.
Proof.
  induction replaceValue as [|c r IH]; intros Hno; [done|].
  apply not_elem_of_cons in Hno as [Hc Hr].
  cbn [getSubstitution].
  destruct (Ascii.eqb c "$") eqn:Hd.
  - apply Ascii.eqb_eq in Hd. congruence.
  - by rewrite IH.
Qed.

Lemma prefixBy_length eqc p s : prefixBy eqc p s = true → length p ≤ length s.
Proof.
  revert s. induction p as [|a p IH]; intros [|b s]; simpl; try done; [lia|].
  intros H. apply andb_true_iff in H as [_ H]. apply IH in H. lia.
Qed.

End PatternFacts.

(** ** Global replacement by an escaped pattern *)

Section ReplaceGlobalFacts.
Import JsString Regex.

Lemma scanRegex_ext (m1 m2 : jsstring → option nat) s k skip :
  (∀ s, m1 s = m2 s) → scanRegex m1 s k skip = scanRegex m2 s k skip.
Proof.
  intros Hm. revert k skip.
  induction s as [|c s IH]; intros k skip; simpl.
  - by rewrite Hm.
  - destruct skip; [|apply IH]. rewrite Hm.
    destruct (m2 (c :: s)); by rewrite IH.
Qed.

Lemma substring_empty (s : jsstring) a : substring s a a = [].
Proof. unfold substring. by rewrite Nat.sub_diag. Qed.

Lemma substring_app (s : jsstring) a b c :
  a ≤ b → b ≤ c → substring s a b ++ substring s b c = substring s a c.
Proof.
  intros Hab Hbc. unfold substring.
  replace (c - a) with ((b - a) + (c - b)) by lia.
  rewrite <- take_take_drop, drop_drop.
  by replace (a + (b - a)) with b by lia.
Qed.

Lemma substring_drop (s : jsstring) a b :
  a ≤ b → substring s a b ++ drop b s = drop a s.
Proof.
  intros Hab. unfold substring.
  replace (drop b s) with (drop (b - a) (drop a s)).
  - apply take_drop.
  - rewrite drop_drop. f_equal. lia.
Qed.

Lemma substring_next (pre s : jsstring) c :
  substring (pre ++ c :: s) (length pre) (S (length pre)) = [c].
Proof.
  unfold substring. rewrite drop_app_length.
  replace (S (length pre) - length pre) with 1 by lia. reflexivity.
Qed.

(** The text before the first match can be emitted early. *)
Lemma spliceMatches_shift whole replaceValue results src k :
  src ≤ k → Forall (λ r, k ≤ r.1) results →
  spliceMatches whole replaceValue results src
  = substring whole src k ++ spliceMatches whole replaceValue results k.
Proof.
  intros Hsrc Hres. destruct results as [|[pos len] results]; simpl.
  - by rewrite substring_drop.
  - apply Forall_cons in Hres as [Hpos _]. simpl in Hpos.
    rewrite <- (substring_app whole src k pos) by done.
    by rewrite <- app_assoc.
Qed.

Variables (orig repl : jsstring).
Hypothesis orig_not_empty : orig ≠ [].
Hypothesis repl_plain : "$"%char ∉ repl.

Let literal (s : jsstring) : option nat :=
  if prefixBy eqIgnoreCase orig s then Some (length orig) else None.

Lemma spliceMatches_replaceEveryFrom s pre skip :
  skip ≤ length s →
  spliceMatches (pre ++ s) repl (scanRegex literal s (length pre) skip)
                (length pre + skip)
  = Spec.replaceEveryFrom orig repl s skip.
Proof using orig_not_empty repl_plain.
  revert pre skip. induction s as [|c s IH]; intros pre skip Hskip.
  - simpl in Hskip. replace skip with 0 by lia. simpl.
    unfold literal. destruct orig; [done|]. simpl.
    rewrite Nat.add_0_r, app_nil_r. apply drop_all.
  - assert (Hpre : ∀ n, n ≤ length s →
        spliceMatches (pre ++ c :: s) repl
          (scanRegex literal s (S (length pre)) n) (S (length pre) + n)
        = Spec.replaceEveryFrom orig repl s n).
    { intros n Hn. specialize (IH (pre ++ [c]) n Hn).
      rewrite <- app_assoc, length_app in IH. simpl in IH.
      by rewrite Nat.add_1_r in IH. }
    destruct skip as [|skip]; simpl.
    + rewrite Nat.add_0_r. unfold literal at 1.
      destruct (prefixBy eqIgnoreCase orig (c :: s)) eqn:Hp.
      * simpl. rewrite substring_empty, getSubstitution_plain by done.
        simpl. f_equal.
        pose proof (prefixBy_length _ _ _ Hp) as Hlen. simpl in Hlen.
        assert (0 < length orig) by (destruct orig; simpl; [done|lia]).
        rewrite <- (Hpre (length orig - 1)) by lia.
        f_equal. lia.
      * rewrite (spliceMatches_shift _ _ _ _ (S (length pre))).
        -- rewrite substring_next. simpl. f_equal.
           rewrite <- (Hpre 0) by lia. by rewrite Nat.add_0_r.
        -- lia.
        -- eapply Forall_impl; [apply scanRegex_lower_bound|].
           simpl. intros; lia.
    + rewrite <- (Hpre skip) by (simpl in Hskip; lia).
      f_equal. lia.
Qed.

(** The regex replacement of the code is the replacement of the
    specification. *)
Lemma replaceGlobal_replaceEvery text :
  replaceGlobal (matchPattern true (escapeRegExp orig)) repl text
  = Spec.replaceEvery orig repl text.
Proof using orig_not_empty repl_plain.
  unfold replaceGlobal, matches, Spec.replaceEvery.
  rewrite (scanRegex_ext _ literal)
    by (intros s; apply matchPattern_escapeRegExp).
  apply (spliceMatches_replaceEveryFrom text [] 0). lia.
Qed.

End ReplaceGlobalFacts.

(** ** Sorting by the length of the original *)

Section SortFacts.
Import Streaming.

Lemma insertSorted_Permutation {A} (compareFn : A → A → Z) x l :
  insertSorted compareFn x l ≡ₚ x :: l.
Proof.
  induction l as [|y l IH]; simpl; [done|].
  destruct (compareFn x y <=? 0)%Z; [done|].
  rewrite IH. apply Permutation_swap.
Qed.

Lemma sortBy_Permutation {A} (compareFn : A → A → Z) l :
  sortBy compareFn l ≡ₚ l.
Proof.
  induction l as [|x l IH]; simpl; [done|].
  by rewrite insertSorted_Permutation, IH.
Qed.

Lemma byOriginalLength_le a b :
  (byOriginalLength a b <=? 0)%Z = true
  ↔ length (original b) ≤ length (original a).
Proof. unfold byOriginalLength. rewrite Z.leb_le. lia. Qed.

Lemma insertSorted_longestFirst x l :
  Spec.longestFirst l →
  Spec.longestFirst (insertSorted byOriginalLength x l).
Proof.
  unfold Spec.longestFirst.
  induction l as [|y l IH]; intros Hl; simpl.
  - repeat constructor.
  - apply StronglySorted_inv in Hl as [Hl Hy].
    destruct (byOriginalLength x y <=? 0)%Z eqn:Hxy.
    + apply byOriginalLength_le in Hxy.
      constructor; [by constructor|].
      constructor; [done|].
      eapply Forall_impl; [exact Hy|]. simpl. intros; lia.
    + assert (length (original x) ≤ length (original y)) as Hyx.
      { destruct (decide (length (original x) ≤ length (original y)));
          [done|].
        assert ((byOriginalLength x y <=? 0)%Z = true)
          by (apply byOriginalLength_le; lia).
        congruence. }
      constructor; [by apply IH|].
      rewrite insertSorted_Permutation. by constructor.
Qed.

Lemma sortBy_longestFirst l : Spec.longestFirst (sortBy byOriginalLength l).
Proof.
  induction l as [|x l IH]; simpl; [constructor|].
  by apply insertSorted_longestFirst.
Qed.

Lemma filter_longestFirst (f : Detection → bool) l :
  Spec.longestFirst l → Spec.longestFirst (List.filter f l).
Proof.
  unfold Spec.longestFirst. induction l as [|x l IH]; intros Hl; simpl.
  - constructor.
  - apply StronglySorted_inv in Hl as [Hl Hx].
    destruct (f x); [|by apply IH].
    constructor; [by apply IH|].
    rewrite Forall_forall in *. intros y Hy. apply Hx.
    apply list_elem_of_In in Hy. apply filter_In in Hy as [Hy _].
    by apply list_elem_of_In.
Qed.

Lemma filter_Permutation_bool {A} (f : A → bool) l l' :
  l ≡ₚ l' → List.filter f l ≡ₚ List.filter f l'.
Proof.
  induction 1 as [|x l l' _ IH|x y l|l l' l'' _ IH1 _ IH2]; simpl.
  - done.
  - destruct (f x); by rewrite IH.
  - destruct (f x), (f y); try done. apply Permutation_swap.
  - by rewrite IH1.
Qed.

End SortFacts.

(** ** The streaming reconstruction *)

Section StreamingFacts.
Import JsString Regex Streaming.

Lemma truthy_not_empty (s : jsstring) : truthy s = true ↔ s ≠ [].
Proof. by destruct s. Qed.

(** The loop of the code over any list of detections whose replacements
    carry no [$]: the guarded detections are replaced as the specification
    says, the others are passed over. *)
Lemma reconstruct_loop order text :
  Forall (λ d, "$"%char ∉ replacement d) order →
  foldl (λ finalContent detection,
           if usable detection
           then
             let regex :=
               matchPattern true (escapeRegExp (original detection)) in
             replaceGlobal regex (replacement detection) finalContent
           else finalContent) text order
  = Spec.reconstructIn (List.filter usable order) text.
Proof.
  intros Hplain. revert text.
  induction Hplain as [|d order Hd _ IH]; intros text; [done|].
  simpl. destruct (usable d) eqn:Hu.
  - simpl. rewrite <- IH. f_equal.
    apply andb_true_iff in Hu as [Ho _].
    apply replaceGlobal_replaceEvery; [by apply truthy_not_empty|done].
  - apply IH.
Qed.

Lemma replaceEvery_empty orig repl text :
  repl ≠ [] → Spec.replaceEvery orig repl text = [] → text = [].
Proof.
  intros Hrepl. unfold Spec.replaceEvery.
  destruct text as [|c text]; [done|]. simpl.
  destruct (prefixBy eqIgnoreCase orig (c :: text)); [|done].
  destruct repl; done.
Qed.

Lemma reconstructIn_empty order text :
  Forall (λ d, replacement d ≠ []) order →
  Spec.reconstructIn order text = [] → text = [].
Proof.
  intros Hrepl. revert text.
  induction Hrepl as [|d order Hd _ IH]; intros text; [done|].
  simpl. intros H. apply IH in H. by apply replaceEvery_empty in H.
Qed.

(** C9, as the code has it.  When the [complete] chunk carries detections
    but no anonymized text, the content stored is the accumulated content
    in which, for the detections with a non-empty original and a non-empty
    replacement taken longest original first, every literal occurrence of
    the original (letter case ignored) was replaced by the replacement;
    this for replacements without [$], which the replacement would
    otherwise expand as a substitution pattern. *)
Theorem C9_reconstruction_longest_original_first
    anonymized_text detections streamingContent :
  detections ≠ [] →
  truthy (default [] anonymized_text) = false →
  Forall (λ d, "$"%char ∉ replacement d) detections →
  ∃ order,
    order ≡ₚ List.filter usable detections
    ∧ Spec.longestFirst order
    ∧ contentToStore anonymized_text (Some detections) streamingContent
      = Spec.reconstructIn order streamingContent.
Proof.
  intros Hne Hno Hplain.
  exists (List.filter usable (sortBy byOriginalLength detections)).
  split; [|split].
  - apply filter_Permutation_bool, sortBy_Permutation.
  - apply filter_longestFirst, sortBy_longestFirst.
  - unfold contentToStore. destruct detections as [|d ds]; [done|].
    rewrite Hno. unfold reconstruct.
    rewrite reconstruct_loop
      by (by rewrite sortBy_Permutation).
    destruct (truthy (Spec.reconstructIn _ streamingContent)) eqn:Ht; [done|].
    assert (Spec.reconstructIn
              (List.filter usable (sortBy byOriginalLength (d :: ds)))
              streamingContent = []) as Hempty.
    { by destruct (Spec.reconstructIn _ streamingContent). }
    rewrite Hempty. eapply reconstructIn_empty; [|exact Hempty].
    apply Forall_forall. intros d' Hd'.
    apply list_elem_of_In, filter_In in Hd' as [_ Hu].
    apply andb_true_iff in Hu as [_ Hr]. by apply truthy_not_empty.
Qed.

Lemma C9_reconstruction_witness :
  Scenario.detectionsA ≠ []
  ∧ truthy (default [] None) = false
  ∧ Forall (λ d, "$"%char ∉ replacement d) Scenario.detectionsA
  ∧ ∃ order,
      order ≡ₚ List.filter usable Scenario.detectionsA
      ∧ Spec.longestFirst order
      ∧ contentToStore None (Some Scenario.detectionsA)
                       (str "Contact john smith at J@X.com.")
        = Spec.reconstructIn order (str "Contact john smith at J@X.com.").
Proof.
  assert (H1 : Scenario.detectionsA ≠ []) by done.
  assert (H2 : truthy (default [] None) = false) by reflexivity.
  assert (H3 : Forall (λ d, "$"%char ∉ replacement d) Scenario.detectionsA).
  { repeat constructor; by_evaluation. }
  split; [exact H1|]. split; [exact H2|]. split; [exact H3|].
  exact (C9_reconstruction_longest_original_first
           None Scenario.detectionsA (str "Contact john smith at J@X.com.")
           H1 H2 H3).
Defined.

(** The reconstruction of scenario A from a differently cased stream. *)
Lemma scenarioA_reconstruction :
  contentToStore None (Some Scenario.detectionsA)
                 (str "Contact john smith at J@X.com.")
  = Scenario.textA.
Proof. vm_compute. reflexivity. Qed.

(** C9 as stated fails on the guard and on substitution patterns: a
    detection with an empty replacement is passed over instead of erasing
    its original, and [$&] in a replacement is expanded to the matched
    text. *)
Lemma C9_guard_and_patterns :
  contentToStore None (Some [Scenario.eraseB]) (str "abc") = str "abc"
  ∧ Spec.reconstructIn [Scenario.eraseB] (str "abc") = str "ac"
  ∧ contentToStore None (Some [Scenario.quoteBob]) (str "Hi Bob")
    = str "Hi <Bob>"
  ∧ Spec.reconstructIn [Scenario.quoteBob] (str "Hi Bob") = str "Hi <$&>".
Proof. repeat split; vm_compute; reflexivity. Qed.

(** The reconstruction ignores the letter case of a Latin-1 letter like
    that of the letters a-z: the word in capitals is replaced as well. *)
Lemma reconstruction_latin1_letters :
  contentToStore None
    (Some [ {| type := str "org"; original := Scenario.cafe;
               replacement := str "[ORG_1]"; confidence := 0.9%float;
               explanation := None; i := Some 0 |} ])
    Scenario.textL
  = str "[ORG_1] [ORG_1]".
Proof. vm_compute. reflexivity. Qed.

End StreamingFacts.

(** ** Decimal numbers in placeholders *)

Section DecimalFacts.
Import JsString.

Lemma parseInt_uintChars u acc :
  foldl (λ acc c, 10 * acc + digitValue c) acc (uintChars u)
  = Nat.of_uint_acc u acc.
Proof.
  revert acc. induction u as [|u IH|u IH|u IH|u IH|u IH|u IH|u IH|u IH|u IH|u IH];
    intros acc; [done|..];
    cbn [uintChars foldl Nat.of_uint_acc]; rewrite IH, Nat.tail_mul_spec;
    f_equal;
    match goal with
    | |- context [digitValue ?c] =>
      let v := eval vm_compute in (digitValue c) in
      change (digitValue c) with v
    end; lia.
Qed.

Lemma parseInt_numberToString n : parseInt (numberToString n) = n.
Proof.
  unfold parseInt, numberToString. rewrite parseInt_uintChars.
  apply DecimalNat.Unsigned.of_to.
Qed.

Lemma uintChars_digits u : Forall (λ c, isDigit c = true) (uintChars u).
Proof. induction u; simpl; constructor; done. Qed.

Lemma numberToString_digits n :
  Forall (λ c, isDigit c = true) (numberToString n).
Proof. apply uintChars_digits. Qed.

Lemma numberToString_not_empty n : numberToString n ≠ [].
Proof.
  unfold numberToString.
  pose proof (DecimalNat.Unsigned.to_of (Nat.to_uint n)) as H.
  rewrite DecimalNat.Unsigned.of_to in H.
  destruct (Nat.to_uint n); done.
Qed.

End DecimalFacts.

(** ** The smallest unused number *)

Section NextFreeFacts.
Import Tagging.

Lemma nextFree_not_used (used : gset nat) fuel n :
  size (filter (λ x, n ≤ x) used) ≤ fuel →
  nextFree used fuel n ∉ used.
Proof.
  revert n. induction fuel as [|fuel IH]; intros n Hsize; simpl.
  - destruct (decide (n ∈ used)) as [Hn|Hn]; [|done].
    assert (n ∈ filter (λ x, n ≤ x) used) as Hin
      by (apply elem_of_filter; split; [lia|done]).
    assert (filter (λ x, n ≤ x) used = ∅) as Hempty.
    { apply leibniz_equiv, size_empty_inv. lia. }
    rewrite Hempty in Hin. by apply elem_of_empty in Hin.
  - destruct (decide (n ∈ used)) as [Hn|Hn]; [|done].
    apply IH.
    assert (filter (λ x, n ≤ x) used
            = {[n]} ∪ filter (λ x, S n ≤ x) used) as Hsplit.
    { apply set_eq. intros x.
      rewrite elem_of_union, elem_of_singleton, !elem_of_filter.
      split.
      - intros [Hx Hin]. destruct (decide (x = n)); [by left|right].
        split; [lia|done].
      - intros [->|[Hx Hin]]; (split; [lia|done]). }
    rewrite Hsplit, size_union, size_singleton in Hsize; [lia|].
    apply disjoint_singleton_l. rewrite elem_of_filter. lia.
Qed.

(** The number the allocation loop stops at is not in use. *)
Lemma nextFree_fresh (used : gset nat) : nextFree used (size used) 1 ∉ used.
Proof.
  apply nextFree_not_used. apply subseteq_size.
  intros x Hx. by apply elem_of_filter in Hx as [_ Hx].
Qed.

End NextFreeFacts.

(** ** Searching a text *)

Section SearchFacts.
Import JsString.

Lemma startsWith_app p t : startsWith p (p ++ t) = true.
Proof.
  unfold startsWith. induction p as [|a p IH]; simpl; [done|].
  by rewrite Ascii.eqb_refl, IH.
Qed.

Lemma startsWith_inv p s : startsWith p s = true → ∃ t, s = p ++ t.
Proof.
  unfold startsWith. revert s.
  induction p as [|a p IH]; intros s H; simpl in *; [by exists s|].
  destruct s as [|b s]; [done|].
  apply andb_true_iff in H as [Hab H].
  apply Ascii.eqb_eq in Hab as ->.
  apply IH in H as [t ->]. by exists t.
Qed.

Lemma startsWith_occursIn p s j :
  startsWith p (drop j s) = true → occursIn p s.
Proof.
  intros H. apply startsWith_inv in H as [t Ht].
  exists (take j s), t. by rewrite <- Ht, take_drop.
Qed.

Lemma occursIn_startsWith p a b :
  startsWith p (drop (length a) (a ++ p ++ b)) = true.
Proof. rewrite drop_app_length. apply startsWith_app. Qed.

(** [findAt] returns the first offset where the pattern matches. *)
Lemma findAt_first p s k j :
  j ≤ length s →
  startsWith p (drop j s) = true →
  (∀ j', j' < j → startsWith p (drop j' s) = false) →
  findAt p s k = Some (k + j).
Proof.
  revert s k. induction j as [|j IH]; intros s k Hj Hm Hfirst.
  - rewrite drop_0 in Hm. rewrite Nat.add_0_r.
    destruct s; simpl; by rewrite Hm.
  - destruct s as [|c s]; [simpl in Hj; lia|].
    cbn [findAt].
    pose proof (Hfirst 0 ltac:(lia)) as H0. simpl in H0. rewrite H0.
    replace (k + S j) with (S k + j) by lia.
    apply IH; [simpl in Hj; lia|done|].
    intros j' Hj'. apply (Hfirst (S j')). lia.
Qed.

Lemma findAt_None p s k :
  (∀ j, startsWith p (drop j s) = false) → findAt p s k = None.
Proof.
  revert k. induction s as [|c s IH]; intros k Hno.
  - simpl. by rewrite (Hno 0 : startsWith p [] = false).
  - cbn [findAt]. rewrite (Hno 0 : startsWith p (c :: s) = false).
    apply IH. intros j. apply (Hno (S j)).
Qed.

(** The loop over [indexOf(p, searchFrom)] takes its next offset as
    [exec] does. *)
Lemma exec_matchLiteral p s k :
  Regex.exec (Tagging.matchLiteral p) s k
  = (λ pos, (pos, length p)) <$> findAt p s k.
Proof.
  revert k. induction s as [|c s IH]; intros k; simpl;
    unfold Tagging.matchLiteral at 1.
  - by destruct (startsWith p []).
  - destruct (startsWith p (c :: s)); [done|]. apply IH.
Qed.

Lemma findAt_lower_bound p s k pos : findAt p s k = Some pos → k ≤ pos.
Proof.
  revert k. induction s as [|c s IH]; intros k; simpl.
  - destruct (startsWith p []); [|done]. intros [= <-]. lia.
  - destruct (startsWith p (c :: s)); [intros [= <-]; lia|].
    intros H. apply IH in H. lia.
Qed.

(** The offsets of a placeholder, as the loop of [handleReplaceAll]
    collects them: [pos = newText.indexOf(p, searchFrom)], then
    [searchFrom = pos + p.length]. *)
Lemma occurrences_loop p text searchFrom :
  p ≠ [] → searchFrom ≤ length text →
  (Regex.scanRegex (Tagging.matchLiteral p) (drop searchFrom text)
                   searchFrom 0).*1
  = match indexOfFrom p text searchFrom with
    | None => []
    | Some pos =>
      pos :: (Regex.scanRegex (Tagging.matchLiteral p)
                              (drop (pos + length p) text)
                              (pos + length p) 0).*1
    end.
Proof.
  intros Hp Hfrom. rewrite scanRegex_exec.
  2:{ intros s len. unfold Tagging.matchLiteral.
      destruct (startsWith p s) eqn:Hs; [|done]. intros [= <-].
      split; [destruct p; simpl; [done|lia]|by eapply prefixBy_length]. }
  rewrite exec_matchLiteral. unfold indexOfFrom.
  rewrite Nat.min_l by done.
  destruct (findAt p (drop searchFrom text) searchFrom) as [pos|] eqn:Hf;
    [|done].
  apply findAt_lower_bound in Hf. simpl. f_equal.
  rewrite drop_drop. do 3 f_equal. lia.
Qed.

Lemma indexOf_absent p s : ¬ occursIn p s → indexOf p s = None.
Proof.
  intros Hno. apply findAt_None. intros j.
  destruct (startsWith p (drop j s)) eqn:H; [|done].
  destruct Hno. by eapply startsWith_occursIn.
Qed.

Lemma findAt_Some_occursIn p s k q : findAt p s k = Some q → occursIn p s.
Proof.
  revert k. induction s as [|c s IH]; intros k; cbn [findAt].
  - destruct (startsWith p []) eqn:H; [|done].
    intros _. by apply (startsWith_occursIn p [] 0).
  - destruct (startsWith p (c :: s)) eqn:H.
    + intros _. by apply (startsWith_occursIn p (c :: s) 0).
    + intros Hf. apply IH in Hf as (a & b & ->).
      by exists (c :: a), b.
Qed.

Lemma indexOf_None_absent p s : indexOf p s = None → ¬ occursIn p s.
Proof.
  intros Hnone (a & b & ->).
  assert (∀ x (k : nat), findAt p (x ++ p ++ b) k ≠ None) as H.
  { clear. intros x. induction x as [|c x IH]; intros k.
    - simpl. destruct (p ++ b) eqn:Hpb; cbn [findAt];
        rewrite <- Hpb, startsWith_app; done.
    - cbn [app findAt]. destruct (startsWith p (c :: x ++ p ++ b)); [done|].
      apply IH. }
  by apply (H a 0).
Qed.

End SearchFacts.

(** ** Matches that start with a bracket *)

Section BracketFacts.
Import JsString Regex.

Variable m : jsstring → option nat.

(** The text of a match holds no opening bracket after its first
    character. *)
Hypothesis m_bracket :
  ∀ s len, m s = Some len → "["%char ∉ take (len - 1) (tail s).

(** A match that starts with a bracket is never skipped: the scan reports
    it. *)
Lemma scanRegex_finds pre s k skip len :
  "["%char ∉ take skip (pre ++ s) →
  head s = Some "["%char →
  m s = Some len →
  (k + length pre, len) ∈ scanRegex m (pre ++ s) k skip.
Proof using m_bracket.
  revert k skip. induction pre as [|c pre IH]; intros k skip Hskip Hhead Hm.
  - destruct s as [|c s]; [done|]. simpl in Hhead. injection Hhead as ->.
    destruct skip as [|skip].
    + simpl. rewrite Hm, Nat.add_0_r. apply elem_of_cons. by left.
    + simpl in Hskip. apply not_elem_of_cons in Hskip as [? _]. done.
  - replace (k + length (c :: pre)) with (S k + length pre) by (simpl; lia).
    cbn [app scanRegex]. destruct skip as [|skip].
    + destruct (m (c :: pre ++ s)) as [l|] eqn:Hl.
      * apply elem_of_cons. right. apply IH; [|done..].
        apply m_bracket in Hl. done.
      * apply IH; [|done..]. rewrite take_0. apply not_elem_of_nil.
    + apply IH; [|done..].
      simpl in Hskip. by apply not_elem_of_cons in Hskip as [_ ?].
Qed.

End BracketFacts.

Section PlaceholderFacts.
Import JsString Regex Tagging.

Lemma classRun_app cls (run rest : jsstring) :
  Forall (λ c, cls c = true) run →
  (∀ c, head rest = Some c → cls c = false) →
  classRun cls (run ++ rest) = length run.
Proof.
  intros Hrun Hrest. induction Hrun as [|c run Hc _ IH]; simpl.
  - destruct rest as [|c rest]; [done|]. simpl.
    by rewrite (Hrest c eq_refl).
  - by rewrite Hc, IH.
Qed.

Lemma classRun_take cls (s : jsstring) :
  Forall (λ c, cls c = true) (take (classRun cls s) s).
Proof.
  induction s as [|c s IH]; simpl; [constructor|].
  destruct (cls c) eqn:Hc; simpl; [|constructor].
  by constructor.
Qed.

Lemma length_placeholderOf T n :
  length (placeholderOf T n)
  = length (placeholderPrefix T) + length (numberToString n) + 1.
Proof.
  unfold placeholderOf. rewrite !length_app. simpl. lia.
Qed.

(** The numbered pattern matches the placeholder it describes. *)
Lemma matchNumbered_placeholderOf T n b :
  matchNumbered T (placeholderOf T n ++ b)
  = Some (length (placeholderOf T n)).
Proof.
  unfold matchNumbered. fold (placeholderPrefix T). cbv zeta.
  unfold placeholderOf. rewrite <- !app_assoc.
  rewrite startsWith_app, drop_app_length.
  rewrite (classRun_app isDigit (numberToString n)).
  - pose proof (numberToString_not_empty n) as Hne.
    destruct (length (numberToString n)) as [|run] eqn:Hlen.
    { by destruct (numberToString n). }
    rewrite <- Hlen, drop_app_length. cbn [app].
    change (Ascii.eqb "]" "]") with true. cbv iota.
    f_equal. rewrite !length_app. simpl. lia.
  - apply numberToString_digits.
  - simpl. by intros c [= <-].
Qed.

Lemma isDigit_not_bracket c : isDigit c = true → c ≠ "["%char.
Proof. by intros H ->. Qed.

Lemma matchNumbered_bracket T :
  "["%char ∉ T →
  ∀ s len, matchNumbered T s = Some len →
           "["%char ∉ take (len - 1) (tail s).
Proof.
  intros HT s len. unfold matchNumbered. fold (placeholderPrefix T).
  cbv zeta. destruct (startsWith (placeholderPrefix T) s) eqn:Hs; [|done].
  apply startsWith_inv in Hs as [t ->]. rewrite drop_app_length.
  destruct (classRun isDigit t) as [|run] eqn:Hrun; [done|].
  destruct (drop (S run) t) as [|c' t'] eqn:Hdrop; [done|].
  destruct (Ascii.eqb c' "]") eqn:Hc; [|done].
  apply Ascii.eqb_eq in Hc as ->. intros [= <-].
  unfold placeholderPrefix. simpl tail.
  replace (S (length (T ++ ["_"%char]) + S run + 1) - 1)
    with (length (T ++ ["_"%char]) + (S run + 1)) by lia.
  rewrite take_app_add.
  replace (take (S run + 1) t) with (take (S run) t ++ ["]"%char]).
  2:{ rewrite <- (take_drop (S run) t) at 2. rewrite Hdrop.
      rewrite take_app_add'; [done|].
      rewrite length_take. symmetry. apply Nat.min_l.
      destruct (decide (S run ≤ length t)); [done|].
      rewrite drop_ge in Hdrop by lia. done. }
  rewrite !not_elem_of_app. repeat split.
  - done.
  - by_evaluation.
  - intros Hin. rewrite <- Hrun in Hin.
    pose proof (classRun_take isDigit t) as Hd.
    rewrite Forall_forall in Hd. by apply Hd, isDigit_not_bracket in Hin.
  - by_evaluation.
Qed.

End PlaceholderFacts.

(** ** Fresh placeholders *)

Section FreshFacts.
Import JsString Regex Tagging.

(** The placeholder types of the table are made of capitals and
    underscores. *)
Lemma getPlaceholderType_plain E :
  ("["%char ∉ getPlaceholderType E) ∧ ("$"%char ∉ getPlaceholderType E).
Proof.
  unfold getPlaceholderType.
  destruct (list_find _ typeMapping) as [[k kv]|] eqn:Hfind.
  - apply list_find_Some in Hfind as (Hk & _ & _).
    apply list_elem_of_lookup_2 in Hk.
    assert (Forall (λ kv, ("["%char ∉ kv.2) ∧ ("$"%char ∉ kv.2))
                   typeMapping)
      as Hall by (repeat constructor; by_evaluation).
    rewrite Forall_forall in Hall. by apply Hall.
  - split; by_evaluation.
Qed.

(** A numbered placeholder in the text puts its number in
    [existingNumbers]. *)
Lemma existingNumbers_occursIn T n text :
  "["%char ∉ T →
  occursIn (placeholderOf T n) text →
  n ∈ existingNumbers T text.
Proof.
  intros HT (a & b & ->). unfold existingNumbers.
  apply elem_of_list_to_set, list_elem_of_fmap.
  exists (length a, length (placeholderOf T n)). split.
  - cbn [fst snd]. rewrite <- (parseInt_numberToString n) at 1. f_equal.
    unfold substring.
    replace (a ++ placeholderOf T n ++ b)
      with ((a ++ placeholderPrefix T)
              ++ numberToString n ++ "]"%char :: b)
      by (unfold placeholderOf; by rewrite <- !app_assoc).
    rewrite drop_app_length' by (rewrite length_app; lia).
    rewrite take_app_length'; [done|].
    rewrite length_placeholderOf. lia.
  - unfold matches.
    apply (scanRegex_finds _ (matchNumbered_bracket T HT) a _ 0 0).
    + rewrite take_0. apply not_elem_of_nil.
    + done.
    + apply matchNumbered_placeholderOf.
Qed.

(** The freshly allocated placeholder does not occur in the text. *)
Lemma fresh_placeholder_absent T text :
  "["%char ∉ T →
  ¬ occursIn
      (placeholderOf T
         (nextFree (existingNumbers T text)
                   (size (existingNumbers T text)) 1))
      text.
Proof.
  intros HT Hocc. apply existingNumbers_occursIn in Hocc; [|done].
  by apply nextFree_fresh in Hocc.
Qed.

End FreshFacts.

(** ** Manual tagging of a substring that is not in the text *)

Section NotFound.
Import JsString Tagging Scenario.

Lemma replace_absent S P text : indexOf S text = None → replace S P text = text.
Proof. intros H. unfold replace. by rewrite H. Qed.

Lemma findInsertIndex_no_position newText detections :
  findInsertIndex newText None detections = 0.
Proof.
  unfold findInsertIndex. destruct detections as [|d ds]; [done|].
  simpl. unfold appearsBefore. by destruct (indexOf (replacement d) newText).
Qed.

Lemma insertManual_front E S P detections :
  insertManual E S P 0 detections
  = manualDetection E S P 0 :: renumberFrom 1 detections.
Proof. unfold insertManual. by rewrite take_0, drop_0. Qed.

(** What the handler does with a substring that the text does not
    contain and that no detection records yet: [position] is [-1], which
    nothing tests, so a detection for a placeholder that occurs nowhere
    is inserted at index 0 and every other detection is renumbered.  The
    sibling [handleReplaceAll] inserts a detection only where the
    placeholder stands in the new text. *)
Lemma absent_selection_inserts_a_detection text detections S E :
  E ≠ [] →
  indexOf S text = None →
  (∀ d, d ∈ detections → taggedAs (getPlaceholderType E) S d = false) →
  ∃ placeholder,
    ¬ occursIn placeholder text
    ∧ handleReplace text detections S E
      = Some (text,
              manualDetection E S placeholder 0 :: renumberFrom 1 detections).
Proof.
  intros HE Habsent Hnone. unfold handleReplace.
  destruct E as [|c E]; [done|].
  set (T := getPlaceholderType (c :: E)) in *.
  rewrite (replace_absent _ _ _ Habsent).
  unfold choosePlaceholder.
  destruct (find (taggedAs T S) detections) as [d0|] eqn:Hfind.
  { apply find_some in Hfind as [Hin Htag].
    apply list_elem_of_In in Hin. rewrite (Hnone d0 Hin) in Htag. done. }
  set (used := existingNumbers T text).
  set (P := placeholderOf T (nextFree used (size used) 1)).
  assert (¬ occursIn P text) as Hfresh.
  { apply fresh_placeholder_absent, getPlaceholderType_plain. }
  exists P. split; [done|].
  rewrite (indexOf_absent _ _ Hfresh), findInsertIndex_no_position.
  by rewrite insertManual_front.
Qed.

(** C3, as the code has it by design.  When the selected substring does
    not occur in the text, manual tagging hands the text back unchanged
    through [onReplace], called as after a replacement: nothing reports
    that the substring was not found.  The detection array is handed
    back unchanged as well when one of its detections already records
    the substring with a placeholder of the chosen type. *)
Theorem C3_not_found_keeps_text_only text detections S E :
  E ≠ [] →
  indexOf S text = None →
  ∃ detections',
    handleReplace text detections S E = Some (text, detections')
    ∧ ((∃ d, d ∈ detections ∧ taggedAs (getPlaceholderType E) S d = true) →
       detections' = detections).
Proof.
  intros HE Habsent. unfold handleReplace.
  destruct E as [|c E]; [done|].
  set (T := getPlaceholderType (c :: E)).
  rewrite (replace_absent _ _ _ Habsent).
  destruct (find (taggedAs T S) detections) as [d0|] eqn:Hfind.
  - eexists. split; [reflexivity|]. done.
  - eexists. split; [reflexivity|].
    intros (d & Hd & Htag). apply list_elem_of_In in Hd.
    rewrite (find_none _ _ Hfind d Hd) in Htag. done.
Qed.

Lemma C3_not_found_witness :
  str "ssn" ≠ []
  ∧ indexOf (str "zzz") textA = None
  ∧ ∃ detections',
      handleReplace textA detectionsA (str "zzz") (str "ssn")
      = Some (textA, detections')
      ∧ ((∃ d, d ∈ detectionsA
               ∧ taggedAs (getPlaceholderType (str "ssn")) (str "zzz") d
                 = true) →
         detections' = detectionsA).
Proof.
  assert (H1 : str "ssn" ≠ []) by done.
  assert (H2 : indexOf (str "zzz") textA = None) by (vm_compute; reflexivity).
  split; [exact H1|]. split; [exact H2|].
  exact (C3_not_found_keeps_text_only textA detectionsA (str "zzz")
           (str "ssn") H1 H2).
Defined.

(** C3 as stated fails: the substring zzz does not occur in the text of
    scenario A, and tagging it as [ssn] reports nothing: [onReplace] is
    called, with a detection inserted at index 0 and the two detections
    of the message renumbered. *)
Lemma C3_not_found_inserts_detection :
  indexOf (str "zzz") textA = None
  ∧ handleReplace textA detectionsA (str "zzz") (str "ssn")
    = Some (textA,
            [ manualDetection (str "ssn") (str "zzz") (str "[SSN_1]") 0;
              with_i johnSmith (Some 1); with_i email (Some 2) ]).
Proof. split; vm_compute; reflexivity. Qed.

End NotFound.

(** ** The occurrences of a bracketed placeholder *)

Section OccurrenceFacts.
Import JsString Regex Tagging.

(** The placeholder: an opening bracket, then a body without one. *)
Variable body : jsstring.
Hypothesis body_no_bracket : "["%char ∉ body.

Let P : jsstring := "["%char :: body.

Lemma scanRegex_skip (m : jsstring → option nat) x rest k :
  scanRegex m (x ++ rest) k (length x) = scanRegex m rest (k + length x) 0.
Proof.
  revert k. induction x as [|c x IH]; intros k; simpl.
  - by rewrite Nat.add_0_r.
  - rewrite IH. f_equal. lia.
Qed.

(** No occurrence of the placeholder starts inside a piece of text that
    does not contain it, even when the placeholder follows the piece. *)
Lemma no_match_before seg rest j :
  ¬ occursIn P seg → j < length seg →
  startsWith P (drop j (seg ++ P ++ rest)) = false.
Proof using body_no_bracket.
  intros Hseg Hj.
  destruct (startsWith P (drop j (seg ++ P ++ rest))) eqn:Hm; [|done].
  exfalso. apply startsWith_inv in Hm as [t Ht].
  rewrite drop_app_le in Ht by lia.
  set (u := drop j seg) in *.
  assert (Hu : length u = length seg - j) by apply length_drop.
  destruct (decide (length P ≤ length u)) as [Hle|Hgt].
  - apply Hseg. exists (take j seg), (drop (length P) u).
    rewrite <- (take_drop j seg) at 1. f_equal. fold u.
    rewrite <- (take_drop (length P) u) at 1. f_equal.
    apply (f_equal (take (length P))) in Ht.
    rewrite take_app_le in Ht by done.
    by rewrite take_app_length in Ht.
  - apply (f_equal (λ l, l !! length u)) in Ht.
    rewrite lookup_app_r, Nat.sub_diag in Ht by done.
    destruct (length u) as [|n] eqn:Hn; [lia|].
    unfold P in Ht, Hgt. simpl in Ht, Hgt.
    rewrite lookup_app_l in Ht by lia. symmetry in Ht.
    apply list_elem_of_lookup_2 in Ht. done.
Qed.

Lemma matchLiteral_refl rest : matchLiteral P (P ++ rest) = Some (length P).
Proof. unfold matchLiteral. by rewrite startsWith_app. Qed.

(** The scan passes over such a piece and reports the placeholder behind
    it. *)
Lemma scanRegex_piece seg rest k :
  ¬ occursIn P seg →
  scanRegex (matchLiteral P) (seg ++ P ++ rest) k 0
  = (k + length seg, length P)
    :: scanRegex (matchLiteral P) rest (k + length seg + length P) 0.
Proof using body_no_bracket.
  intros Hseg.
  assert (Hno : ∀ j, j < length seg →
                     startsWith P (drop j (seg ++ P ++ rest)) = false)
    by (intros; by apply no_match_before).
  clear Hseg. revert k Hno. induction seg as [|c seg IH]; intros k Hno.
  - cbn [app length]. rewrite !Nat.add_0_r.
    pose proof (matchLiteral_refl rest) as Hm.
    change (P ++ rest) with ("["%char :: (body ++ rest)) in Hm |- *.
    cbn [scanRegex]. rewrite Hm. f_equal.
    replace (length P - 1) with (length body) by (unfold P; simpl; lia).
    rewrite scanRegex_skip. f_equal. unfold P. simpl. lia.
  - cbn [app scanRegex]. unfold matchLiteral at 1.
    pose proof (Hno 0 ltac:(simpl; lia)) as H0.
    change (startsWith P (c :: seg ++ P ++ rest) = false) in H0.
    rewrite H0, IH.
    + f_equal; [f_equal; simpl; lia|]. f_equal. simpl. lia.
    + intros j Hj. apply (Hno (S j)). simpl. lia.
Qed.

Lemma scanRegex_no_occurrence s k :
  ¬ occursIn P s → scanRegex (matchLiteral P) s k 0 = [].
Proof.
  revert k. induction s as [|c s IH]; intros k Hs; [done|].
  cbn [scanRegex]. unfold matchLiteral at 1.
  destruct (startsWith P (c :: s)) eqn:Hm.
  - destruct Hs. by apply (startsWith_occursIn P (c :: s) 0).
  - apply IH. intros (a & b & ->). apply Hs. by exists (c :: a), b.
Qed.

(** In a text made of four pieces without the placeholder, separated by
    the placeholder, it occurs at exactly the three joints. *)
Lemma occurrencesOf_three seg0 seg1 seg2 seg3 :
  ¬ occursIn P seg0 → ¬ occursIn P seg1 →
  ¬ occursIn P seg2 → ¬ occursIn P seg3 →
  occurrencesOf P (seg0 ++ P ++ seg1 ++ P ++ seg2 ++ P ++ seg3)
  = [ length seg0;
      length seg0 + length P + length seg1;
      length seg0 + length P + length seg1 + length P + length seg2 ].
Proof using body_no_bracket.
  intros H0 H1 H2 H3. unfold occurrencesOf, matches.
  rewrite scanRegex_piece by done.
  rewrite scanRegex_piece by done.
  rewrite scanRegex_piece by done.
  rewrite scanRegex_no_occurrence by done. done.
Qed.

Lemma indexOf_first_piece seg0 rest :
  ¬ occursIn P seg0 → indexOf P (seg0 ++ P ++ rest) = Some (length seg0).
Proof using body_no_bracket.
  intros H0. unfold indexOf.
  apply (findAt_first P _ 0 (length seg0)).
  - rewrite length_app. lia.
  - apply occursIn_startsWith.
  - intros j Hj. by apply no_match_before.
Qed.

End OccurrenceFacts.

(** ** Insertion by text position *)

Section InsertionFacts.
Import JsString Tagging.

Lemma insertIndexLoop_leadingRun newText position rest idx :
  insertIndexLoop newText position rest idx idx
  = idx + length (leadingRun (appearsBefore newText position) rest).
Proof.
  revert idx. induction rest as [|d rest IH]; intros idx; simpl; [lia|].
  destruct (appearsBefore newText position d); simpl; [|lia].
  rewrite IH. lia.
Qed.

Lemma findInsertIndex_leadingRun newText position detections :
  findInsertIndex newText position detections
  = length (leadingRun (appearsBefore newText position) detections).
Proof. apply (insertIndexLoop_leadingRun _ _ _ 0). Qed.

Lemma leadingRun_app f a l :
  Forall (λ d, f d = true) a → leadingRun f (a ++ l) = a ++ leadingRun f l.
Proof.
  induction 1 as [|d a Hd _ IH]; simpl; [done|]. by rewrite Hd, IH.
Qed.

Lemma leadingRun_take f l : take (length (leadingRun f l)) l = leadingRun f l.
Proof.
  induction l as [|d l IH]; simpl; [done|].
  destruct (f d); simpl; [|done]. by rewrite IH.
Qed.

Lemma leadingRun_Forall f l : Forall (λ d, f d = true) (leadingRun f l).
Proof.
  induction l as [|d l IH]; simpl; [constructor|].
  destruct (f d) eqn:Hd; by constructor.
Qed.

Lemma leadingRun_split f l :
  l = leadingRun f l ++ drop (length (leadingRun f l)) l.
Proof.
  rewrite <- (take_drop (length (leadingRun f l)) l) at 1.
  f_equal. apply leadingRun_take.
Qed.

Lemma filter_all_false {A} (f : A → bool) l :
  (∀ x, x ∈ l → f x = false) → List.filter f l = [].
Proof.
  induction l as [|x l IH]; intros H; [done|]. simpl.
  rewrite (H x) by (apply elem_of_cons; by left).
  apply IH. intros y Hy. apply H. apply elem_of_cons. by right.
Qed.

(** In an array where the detections that satisfy [f] come first, the
    leading run is all of them. *)
Lemma leadingRun_filter f l :
  (∀ j k d d', j ≤ k → l !! j = Some d → l !! k = Some d' →
               f d' = true → f d = true) →
  leadingRun f l = List.filter f l.
Proof.
  induction l as [|d l IH]; intros Hclosed; [done|]. simpl.
  destruct (f d) eqn:Hd.
  - f_equal. apply IH. intros j k x y Hjk Hx Hy.
    apply (Hclosed (S j) (S k)); [lia|done..].
  - symmetry. apply filter_all_false. intros y Hy.
    apply list_elem_of_lookup_1 in Hy as [k Hk].
    destruct (f y) eqn:Hfy; [|done].
    rewrite (Hclosed 0 (S k) d y) in Hd; [done|lia|done..].
Qed.

Lemma length_renumberFrom from l : length (renumberFrom from l) = length l.
Proof. apply length_imap. Qed.

Lemma renumberFrom_app from x y :
  renumberFrom from (x ++ y)
  = renumberFrom from x ++ renumberFrom (from + length x) y.
Proof.
  unfold renumberFrom. rewrite imap_app. f_equal.
  apply imap_ext. intros k d _. simpl.
  destruct (i d); [|done]. do 2 f_equal. lia.
Qed.

Lemma renumberFrom_cons from d l :
  renumberFrom from (d :: l)
  = match i d with Some _ => with_i d (Some from) | None => d end
    :: renumberFrom (S from) l.
Proof.
  unfold renumberFrom. simpl. rewrite Nat.add_0_r. f_equal.
  apply imap_ext. intros k d' _. simpl.
  destruct (i d'); [|done]. do 2 f_equal. lia.
Qed.

Lemma renumberFrom_renumberFrom from from' l :
  renumberFrom from' (renumberFrom from l) = renumberFrom from' l.
Proof.
  revert from from'. induction l as [|d l IH]; intros from from'; [done|].
  rewrite !renumberFrom_cons, IH. f_equal.
  destruct (i d) eqn:Hi; simpl; [done|by rewrite Hi].
Qed.

Lemma drop_renumberFrom from n l :
  drop n (renumberFrom from l) = renumberFrom (from + n) (drop n l).
Proof.
  revert from n. induction l as [|d l IH]; intros from n.
  - change (renumberFrom from []) with (@nil Detection).
    by rewrite !drop_nil.
  - destruct n as [|n].
    + by rewrite !drop_0, Nat.add_0_r.
    + rewrite renumberFrom_cons. simpl. rewrite IH. f_equal. lia.
Qed.

Lemma appearsBefore_with_i newText position d v :
  appearsBefore newText position (with_i d v)
  = appearsBefore newText position d.
Proof. done. Qed.

Lemma leadingRun_renumberFrom newText position from l :
  leadingRun (appearsBefore newText position) (renumberFrom from l)
  = renumberFrom from (leadingRun (appearsBefore newText position) l).
Proof.
  revert from. induction l as [|d l IH]; intros from; [done|].
  rewrite renumberFrom_cons. cbn [leadingRun].
  assert (appearsBefore newText position
            (match i d with Some _ => with_i d (Some from) | None => d end)
          = appearsBefore newText position d) as ->
    by (by destruct (i d)).
  destruct (appearsBefore newText position d); [|done].
  by rewrite renumberFrom_cons, IH.
Qed.

Lemma appearsBefore_mono newText q q' d :
  q ≤ q' →
  appearsBefore newText (Some q) d = true →
  appearsBefore newText (Some q') d = true.
Proof.
  unfold appearsBefore. intros Hq.
  destruct (indexOf (replacement d) newText) as [pos|]; [|done].
  rewrite !Nat.ltb_lt. lia.
Qed.

Lemma Forall_renumberFrom (f : Detection → bool) from l :
  (∀ d v, f (with_i d v) = f d) →
  Forall (λ d, f d = true) l →
  Forall (λ d, f d = true) (renumberFrom from l).
Proof.
  intros Hf Hl. revert from.
  induction Hl as [|d l Hd _ IH]; intros from; [constructor|].
  rewrite renumberFrom_cons. constructor; [|apply IH].
  destruct (i d); [by rewrite Hf|done].
Qed.

(** One pass of the [forEach] body, when the position is not recorded yet
    and the detections of [pre] all appear before it. *)
Lemma replaceAllStep_shape newText E sel P q pre r :
  existsb (λ d,
    bool_decide (original d = sel) && bool_decide (replacement d = P)
      && bool_decide (indexOf (replacement d) newText = Some q))
    (pre ++ r) = false →
  Forall (λ d, appearsBefore newText (Some q) d = true) pre →
  replaceAllStep newText E sel P (pre ++ r) q
  = (pre ++ leadingRun (appearsBefore newText (Some q)) r)
      ++ manualDetection E sel P
           (length pre
            + length (leadingRun (appearsBefore newText (Some q)) r))
      :: renumberFrom
           (S (length pre
               + length (leadingRun (appearsBefore newText (Some q)) r)))
           (drop (length (leadingRun (appearsBefore newText (Some q)) r)) r).
Proof.
  intros Hex Hpre. unfold replaceAllStep. rewrite Hex.
  rewrite findInsertIndex_leadingRun, leadingRun_app by done.
  unfold insertManual. rewrite length_app.
  rewrite take_app_add, drop_app_add, leadingRun_take. done.
Qed.

End InsertionFacts.

Section RecordedFacts.
Import JsString Tagging.

(** The test of the [forEach] body can hold only at the first offset of
    the placeholder. *)
Lemma recorded_first_only newText sel P q1 q (l : list Detection) :
  indexOf P newText = Some q1 → q ≠ q1 →
  existsb (λ d,
    bool_decide (original d = sel) && bool_decide (replacement d = P)
      && bool_decide (indexOf (replacement d) newText = Some q)) l = false.
Proof.
  intros Hfirst Hq. induction l as [|d l IH]; [done|].
  simpl. rewrite IH, orb_false_r.
  destruct (decide (replacement d = P)) as [HP|HP].
  - rewrite HP, Hfirst.
    rewrite (bool_decide_false (Some q1 = Some q)) by congruence.
    apply andb_false_r.
  - rewrite (bool_decide_false _ HP). by rewrite andb_false_r.
Qed.

Lemma not_recorded_yet newText sel P q (l : list Detection) :
  (∀ d, d ∈ l → original d = sel → replacement d ≠ P) →
  existsb (λ d,
    bool_decide (original d = sel) && bool_decide (replacement d = P)
      && bool_decide (indexOf (replacement d) newText = Some q)) l = false.
Proof.
  induction l as [|d l IH]; intros Hnew; [done|].
  simpl. rewrite IH, orb_false_r.
  2:{ intros d' Hd'. apply Hnew. by apply elem_of_cons; right. }
  destruct (decide (original d = sel)) as [Ho|Ho].
  - rewrite (bool_decide_false (replacement d = P)).
    + by rewrite andb_false_r.
    + apply Hnew; [apply elem_of_cons; by left|done].
  - by rewrite (bool_decide_false _ Ho).
Qed.

Lemma created_appearsBefore newText E sel P q1 q k :
  indexOf P newText = Some q1 → q1 < q →
  appearsBefore newText (Some q) (manualDetection E sel P k) = true.
Proof.
  intros Hfirst Hq. unfold appearsBefore. simpl. rewrite Hfirst.
  by apply Nat.ltb_lt.
Qed.

End RecordedFacts.

Section ThreeInsertions.
Import JsString Tagging.

Variables (newText E sel P : jsstring) (q1 q2 q3 : nat).
Variable detections : list Detection.

Hypothesis first_occurrence : indexOf P newText = Some q1.
Hypothesis q1_q2 : q1 < q2.
Hypothesis q2_q3 : q2 < q3.
Hypothesis not_recorded :
  ∀ d, d ∈ detections → original d = sel → replacement d ≠ P.

Let a := leadingRun (appearsBefore newText (Some q1)) detections.
Let r1 := drop (length a) detections.
Let b := leadingRun (appearsBefore newText (Some q2)) r1.
Let r2 := drop (length b) r1.
Let c := leadingRun (appearsBefore newText (Some q3)) r2.
Let r3 := drop (length c) r2.

(** The three passes of [forEach] over the offsets of the placeholder. *)
Lemma three_insertions :
  foldl (replaceAllStep newText E sel P) detections [q1; q2; q3]
  = a ++ manualDetection E sel P (length a)
      :: renumberFrom (length a + 1) b
      ++ manualDetection E sel P (length a + length b + 1)
      :: renumberFrom (length a + length b + 2) c
      ++ manualDetection E sel P (length a + length b + length c + 2)
      :: renumberFrom (length a + length b + length c + 3) r3.
Proof using first_occurrence q1_q2 q2_q3 not_recorded.
  cbn [foldl].
  (* first offset *)
  pose proof (replaceAllStep_shape newText E sel P q1 [] detections
                (not_recorded_yet newText sel P q1 _ not_recorded)
                (Forall_nil_2 _)) as E1.
  cbn [app length Nat.add] in E1. fold a r1 in E1. rewrite E1. clear E1.
  (* second offset *)
  assert (Ha2 : Forall (λ d, appearsBefore newText (Some q2) d = true)
                       (a ++ [manualDetection E sel P (length a)])).
  { apply Forall_app. split.
    - eapply Forall_impl; [apply leadingRun_Forall|]. simpl.
      intros d. apply appearsBefore_mono. lia.
    - repeat constructor.
      by apply (created_appearsBefore _ _ _ _ q1). }
  pose proof (replaceAllStep_shape newText E sel P q2 _
                (renumberFrom (S (length a)) r1)
                (recorded_first_only newText sel P q1 q2 _
                   first_occurrence ltac:(lia)) Ha2) as E2.
  rewrite <- app_assoc in E2. cbn [app] in E2. rewrite E2. clear E2.
  rewrite leadingRun_renumberFrom, length_renumberFrom. fold b.
  rewrite drop_renumberFrom, renumberFrom_renumberFrom. fold r2.
  rewrite length_app. cbn [length].
  (* third offset *)
  assert (Ha3 : Forall (λ d, appearsBefore newText (Some q3) d = true)
                  (((a ++ [manualDetection E sel P (length a)])
                      ++ renumberFrom (S (length a)) b)
                     ++ [manualDetection E sel P
                           (length a + 1 + length b)])).
  { repeat (apply Forall_app; split).
    - eapply Forall_impl; [apply leadingRun_Forall|]. simpl.
      intros d. apply appearsBefore_mono. lia.
    - repeat constructor.
      apply (created_appearsBefore _ _ _ _ q1); [done|lia].
    - apply Forall_renumberFrom; [done|].
      eapply Forall_impl; [apply leadingRun_Forall|]. simpl.
      intros d. apply appearsBefore_mono. lia.
    - repeat constructor.
      apply (created_appearsBefore _ _ _ _ q1); [done|lia]. }
  pose proof (replaceAllStep_shape newText E sel P q3 _
                (renumberFrom (S (length a + 1 + length b)) r2)
                (recorded_first_only newText sel P q1 q3 _
                   first_occurrence ltac:(lia)) Ha3) as E3.
  rewrite <- !app_assoc in E3. cbn [app] in E3.
  rewrite <- !app_assoc. cbn [app]. rewrite E3. clear E3.
  rewrite leadingRun_renumberFrom, length_renumberFrom. fold c.
  rewrite drop_renumberFrom, renumberFrom_renumberFrom. fold r3.
  repeat (rewrite !length_app; cbn [length]).
  rewrite length_renumberFrom.
  repeat (f_equal; try lia).
Qed.

End ThreeInsertions.

(** ** Replace-All over three occurrences *)

Section ReplaceAllThree.
Import JsString Regex Tagging.

Lemma find_all_false {A} (f : A → bool) l :
  (∀ x, x ∈ l → f x = false) → find f l = None.
Proof.
  induction l as [|x l IH]; intros H; [done|]. simpl.
  rewrite (H x) by (apply elem_of_cons; by left).
  apply IH. intros y Hy. apply H. apply elem_of_cons. by right.
Qed.

Lemma occursIn_take p n text : occursIn p (take n text) → occursIn p text.
Proof.
  intros (x & y & H). exists x, (y ++ drop n text).
  rewrite <- (take_drop n text) at 1. rewrite H. by rewrite <- !app_assoc.
Qed.

Lemma occursIn_drop p n text : occursIn p (drop n text) → occursIn p text.
Proof.
  intros (x & y & H). exists (take n text ++ x), y.
  rewrite <- (take_drop n text) at 1. rewrite H. by rewrite <- !app_assoc.
Qed.

Lemma occursIn_substring p text from to :
  occursIn p (substring text from to) → occursIn p text.
Proof. intros H. by apply occursIn_take, occursIn_drop in H. Qed.

(** A match lies within the text. *)
Lemma scanRegex_within (m : jsstring → option nat) s k skip :
  (∀ s len, m s = Some len → len ≤ length s) →
  Forall (λ r, r.1 + r.2 ≤ k + length s) (scanRegex m s k skip).
Proof.
  intros Hm. revert k skip. induction s as [|c s IH]; intros k skip; simpl.
  - destruct skip; [|done]. destruct (m []) as [len|] eqn:Hl; [|done].
    apply Hm in Hl. simpl in Hl. constructor; [simpl; lia|done].
  - assert (Hrest : ∀ skip',
              Forall (λ r, r.1 + r.2 ≤ k + S (length s))
                     (scanRegex m s (S k) skip')).
    { intros skip'. eapply Forall_impl; [apply IH|]. simpl. intros; lia. }
    destruct skip as [|skip]; [|apply Hrest].
    destruct (m (c :: s)) as [len|] eqn:Hl; [|apply Hrest].
    apply Hm in Hl. simpl in Hl. constructor; [simpl; lia|apply Hrest].
Qed.

Lemma placeholderOf_body T n :
  "["%char ∉ T →
  ∃ body, placeholderOf T n = "["%char :: body ∧ "["%char ∉ body.
Proof.
  intros HT. exists ((T ++ ["_"%char]) ++ numberToString n ++ ["]"%char]).
  split; [done|].
  rewrite !not_elem_of_app. repeat split; [done|by_evaluation| |by_evaluation].
  intros Hin. pose proof (numberToString_digits n) as Hd.
  rewrite Forall_forall in Hd. by apply Hd, isDigit_not_bracket in Hin.
Qed.

Lemma isDigit_not_dollar c : isDigit c = true → c ≠ "$"%char.
Proof. by intros H ->. Qed.

Lemma placeholderOf_plain T n : "$"%char ∉ T → "$"%char ∉ placeholderOf T n.
Proof.
  intros HT. unfold placeholderOf, placeholderPrefix.
  rewrite not_elem_of_app, not_elem_of_cons, !not_elem_of_app.
  repeat split; [done|done|by_evaluation| |by_evaluation].
  intros Hin. pose proof (numberToString_digits n) as Hd.
  rewrite Forall_forall in Hd. by apply Hd, isDigit_not_dollar in Hin.
Qed.

Lemma startsWith_placeholderOf T n :
  startsWith (placeholderPrefix T) (placeholderOf T n) = true.
Proof. apply startsWith_app. Qed.

(** C8, as the code has it.  When the pattern made from the selection
    matches the text at exactly three places and no detection records the
    selection with a placeholder of the chosen type, Replace-All allocates
    one placeholder that the text does not contain, puts it at the three
    places, and inserts exactly three detections with it, whose [i] are
    their array indices, ascending in the order of the places; the
    detections are otherwise kept in order ([a], [b], [c], [d]), those
    after the first insertion renumbered.  Untouched are the detections of
    [a]: the leading run of the array whose placeholders all occur in the
    new text before the first place. *)
Theorem C8_replaceAll_three_occurrences text detections sel E p1 p2 p3 :
  E ≠ [] →
  matches (matchPattern true (escapeRegExp sel)) text
  = [(p1, length sel); (p2, length sel); (p3, length sel)] →
  (∀ d, d ∈ detections → taggedAs (getPlaceholderType E) sel d = false) →
  ∃ n b c d,
    let P := placeholderOf (getPlaceholderType E) n in
    let newText :=
      take p1 text ++ P
        ++ substring text (p1 + length sel) p2 ++ P
        ++ substring text (p2 + length sel) p3 ++ P
        ++ drop (p3 + length sel) text in
    let a := leadingRun (appearsBefore newText (Some p1)) detections in
    ¬ occursIn P text
    ∧ detections = a ++ b ++ c ++ d
    ∧ handleReplaceAll text detections sel E
      = Some (newText,
              a ++ manualDetection E sel P (length a)
                :: renumberFrom (length a + 1) b
                ++ manualDetection E sel P (length a + length b + 1)
                :: renumberFrom (length a + length b + 2) c
                ++ manualDetection E sel P
                     (length a + length b + length c + 2)
                :: renumberFrom (length a + length b + length c + 3) d).
Proof.
  intros HE Hm Hnone.
  destruct E as [|e0 E]; [done|]. clear HE.
  set (Et := e0 :: E) in *. set (T := getPlaceholderType Et) in *.
  destruct (getPlaceholderType_plain Et) as [HTb HTd]. fold T in HTb, HTd.
  set (used := existingNumbers T text).
  set (n := nextFree used (size used) 1).
  set (P := placeholderOf T n).
  assert (Hfresh : ¬ occursIn P text)
    by (by apply fresh_placeholder_absent).
  destruct (placeholderOf_body T n HTb) as (body & HP & Hbody). fold P in HP.
  assert (Hplain : "$"%char ∉ P) by (by apply placeholderOf_plain).
  assert (Hchoose : choosePlaceholder text detections T sel = P).
  { unfold choosePlaceholder. by rewrite find_all_false. }
  set (seg0 := take p1 text).
  set (seg1 := substring text (p1 + length sel) p2).
  set (seg2 := substring text (p2 + length sel) p3).
  set (seg3 := drop (p3 + length sel) text).
  set (newText := seg0 ++ P ++ seg1 ++ P ++ seg2 ++ P ++ seg3).
  assert (HnewText :
    replaceGlobal (matchPattern true (escapeRegExp sel)) P text = newText).
  { unfold replaceGlobal. rewrite Hm. cbn [spliceMatches].
    rewrite !getSubstitution_plain by done.
    unfold newText, seg0, seg1, seg2, seg3, substring.
    by rewrite Nat.sub_0_r, drop_0. }
  assert (Hp1 : p1 ≤ length text).
  { pose proof (scanRegex_within (matchPattern true (escapeRegExp sel))
                  text 0 0) as Hw.
    unfold matches in Hm. rewrite Hm in Hw.
    assert (Forall (λ r : nat * nat, r.1 + r.2 ≤ 0 + length text)
              [(p1, length sel); (p2, length sel); (p3, length sel)]) as H.
    { apply Hw. intros s len. rewrite matchPattern_escapeRegExp.
      destruct (prefixBy eqIgnoreCase sel s) eqn:Hp; [|done].
      intros [= <-]. by eapply prefixBy_length. }
    apply Forall_cons in H as [H _]. simpl in H. lia. }
  assert (Hq1 : length seg0 = p1) by (unfold seg0; rewrite length_take; lia).
  assert (H0 : ¬ occursIn P seg0) by (intros H; by apply occursIn_take in H).
  assert (H1 : ¬ occursIn P seg1)
    by (intros H; by apply occursIn_substring in H).
  assert (H2 : ¬ occursIn P seg2)
    by (intros H; by apply occursIn_substring in H).
  assert (H3 : ¬ occursIn P seg3) by (intros H; by apply occursIn_drop in H).
  assert (Hocc : occurrencesOf P newText
                 = [ p1; p1 + length P + length seg1;
                     p1 + length P + length seg1 + length P + length seg2 ]).
  { unfold newText. rewrite HP in *. rewrite <- Hq1.
    by apply occurrencesOf_three. }
  assert (Hfirst : indexOf P newText = Some p1).
  { unfold newText. rewrite HP in *. rewrite <- Hq1.
    by apply indexOf_first_piece. }
  assert (HPlen : 0 < length P) by (rewrite HP; simpl; lia).
  assert (Hrec : ∀ d, d ∈ detections → original d = sel → replacement d ≠ P).
  { intros d Hd Ho HPd. specialize (Hnone d Hd).
    unfold taggedAs in Hnone.
    rewrite bool_decide_true, HPd in Hnone by done.
    pose proof (startsWith_placeholderOf T n) as Hs. fold P in Hs.
    by rewrite Hs in Hnone. }
  set (a := leadingRun (appearsBefore newText (Some p1)) detections).
  set (r1 := drop (length a) detections).
  set (b := leadingRun
              (appearsBefore newText (Some (p1 + length P + length seg1))) r1).
  set (r2 := drop (length b) r1).
  set (c := leadingRun
              (appearsBefore newText
                 (Some (p1 + length P + length seg1 + length P
                        + length seg2))) r2).
  exists n, b, c, (drop (length c) r2). cbv zeta.
  fold T P seg0 seg1 seg2 seg3 newText a.
  split; [done|]. split.
  - rewrite (leadingRun_split (appearsBefore newText (Some p1)) detections)
      at 1.
    fold a r1. f_equal.
    rewrite (leadingRun_split
               (appearsBefore newText
                  (Some (p1 + length P + length seg1))) r1) at 1.
    fold b r2. f_equal.
    apply leadingRun_split.
  - unfold handleReplaceAll. fold Et T. cbv zeta.
    rewrite Hchoose, HnewText, Hocc. do 2 f_equal.
    apply three_insertions; [done|lia|lia|done].
Qed.

Lemma C8_replaceAll_three_witness :
  str "org" ≠ []
  ∧ matches (matchPattern true (escapeRegExp (str "Acme Corp")))
            Scenario.textC
    = [(0, length (str "Acme Corp")); (26, length (str "Acme Corp"));
       (42, length (str "Acme Corp"))]
  ∧ (∀ d, d ∈ [Scenario.johnSmith] →
          taggedAs (getPlaceholderType (str "org")) (str "Acme Corp") d
          = false)
  ∧ ∃ n b c d,
      let P := placeholderOf (getPlaceholderType (str "org")) n in
      let newText :=
        take 0 Scenario.textC ++ P
          ++ substring Scenario.textC (0 + length (str "Acme Corp")) 26 ++ P
          ++ substring Scenario.textC (26 + length (str "Acme Corp")) 42 ++ P
          ++ drop (42 + length (str "Acme Corp")) Scenario.textC in
      let a :=
        leadingRun (appearsBefore newText (Some 0)) [Scenario.johnSmith] in
      ¬ occursIn P Scenario.textC
      ∧ [Scenario.johnSmith] = a ++ b ++ c ++ d
      ∧ handleReplaceAll Scenario.textC [Scenario.johnSmith]
                         (str "Acme Corp") (str "org")
        = Some (newText,
                a ++ manualDetection (str "org") (str "Acme Corp") P
                       (length a)
                  :: renumberFrom (length a + 1) b
                  ++ manualDetection (str "org") (str "Acme Corp") P
                       (length a + length b + 1)
                  :: renumberFrom (length a + length b + 2) c
                  ++ manualDetection (str "org") (str "Acme Corp") P
                       (length a + length b + length c + 2)
                  :: renumberFrom (length a + length b + length c + 3) d).
Proof.
  assert (H1 : str "org" ≠ []) by done.
  assert (H2 : matches (matchPattern true (escapeRegExp (str "Acme Corp")))
                       Scenario.textC
               = [(0, length (str "Acme Corp"));
                  (26, length (str "Acme Corp"));
                  (42, length (str "Acme Corp"))])
    by (vm_compute; reflexivity).
  assert (H3 : ∀ d, d ∈ [Scenario.johnSmith] →
                 taggedAs (getPlaceholderType (str "org"))
                          (str "Acme Corp") d = false).
  { intros d Hd. apply list_elem_of_singleton in Hd as ->.
    vm_compute. reflexivity. }
  split; [exact H1|]. split; [exact H2|]. split; [exact H3|].
  exact (C8_replaceAll_three_occurrences
           Scenario.textC [Scenario.johnSmith] (str "Acme Corp") (str "org")
           0 26 42 H1 H2 H3).
Defined.

(** C8 as stated fails on the detections before the first match: the
    insertion loop stops at the first detection whose placeholder is not
    in the text.  Here [[PHONE_1]] is absent and [[NAME_1]] stands at
    offset 0, before the first match at offset 9; the three detections are
    inserted in front of both, and the [i] of the [[NAME_1]] detection goes
    from 1 to 4. *)
Lemma C8_detection_before_first_match_renumbered :
  matches (matchPattern true (escapeRegExp (str "Acme Corp"))) Scenario.textD
    = [(9, 9); (20, 9); (31, 9)]
  ∧ indexOf (replacement Scenario.johnSmith) Scenario.taggedD = Some 0
  ∧ handleReplaceAll Scenario.textD
      [Scenario.absent; with_i Scenario.johnSmith (Some 1)]
      (str "Acme Corp") (str "org")
    = Some (Scenario.taggedD,
            [ Scenario.org 0; Scenario.org 1; Scenario.org 2;
              with_i Scenario.absent (Some 3);
              with_i Scenario.johnSmith (Some 4) ]).
Proof. repeat split; vm_compute; reflexivity. Qed.

End ReplaceAllThree.


(** * Further properties of the code *)

Section TaggingMore.
Import JsString Regex Tagging.

Lemma findAt_Some_startsWith p s k q :
  findAt p s k = Some q →
  ∃ j, q = k + j ∧ j ≤ length s ∧ startsWith p (drop j s) = true.
Proof.
  revert k. induction s as [|c s IH]; intros k; cbn [findAt].
  - destruct (startsWith p []) eqn:H; [|done]. intros [= <-].
    exists 0. by rewrite Nat.add_0_r.
  - destruct (startsWith p (c :: s)) eqn:H.
    + intros [= <-]. exists 0. rewrite Nat.add_0_r. simpl.
      repeat split; [lia|done].
    + intros Hq. apply IH in Hq as (j & -> & Hj & Hm).
      exists (S j). simpl. repeat split; [lia|lia|done].
Qed.

(** The allocation loop stops at the least number from [n] on that is
    not in use. *)
Lemma nextFree_least (used : gset nat) fuel n k :
  n ≤ k → k < nextFree used fuel n → k ∈ used.
Proof.
  revert n. induction fuel as [|fuel IH]; intros n Hn Hk; simpl in Hk.
  - destruct (decide (n ∈ used)); lia.
  - destruct (decide (n ∈ used)) as [Hin|Hin]; [|lia].
    destruct (decide (k = n)) as [->|Hne]; [done|].
    apply (IH (S n)); [lia|done].
Qed.

Lemma nextFree_lower (used : gset nat) fuel n : n ≤ nextFree used fuel n.
Proof.
  revert n. induction fuel as [|fuel IH]; intros n; simpl.
  - destruct (decide (n ∈ used)); lia.
  - destruct (decide (n ∈ used)); [|lia]. specialize (IH (S n)). lia.
Qed.

(** X3. The number of a newly allocated placeholder is the least
    positive integer that no token [[TYPE_n]] of the text carries: it is
    not in use, and every smaller positive number is. *)
Theorem allocated_number_is_the_least_unused
    anonymizedText detections placeholderType selected :
  find (taggedAs placeholderType selected) detections = None →
  ∃ n,
    choosePlaceholder anonymizedText detections placeholderType selected
    = placeholderOf placeholderType n
    ∧ 1 ≤ n
    ∧ (n ∉ existingNumbers placeholderType anonymizedText)
    ∧ ∀ k, 1 ≤ k → k < n →
           k ∈ existingNumbers placeholderType anonymizedText.
Proof.
  intros Hfind. unfold choosePlaceholder. rewrite Hfind.
  set (used := existingNumbers placeholderType anonymizedText).
  exists (nextFree used (size used) 1).
  repeat split.
  - apply nextFree_lower.
  - apply nextFree_fresh.
  - intros k Hk Hlt. by apply (nextFree_least used (size used) 1).
Qed.

Lemma allocated_number_witness :
  find (taggedAs (str "SSN") (str "555-1234")) Scenario.detectionsA = None
  ∧ ∃ n,
      choosePlaceholder (str "id [SSN_1] and [SSN_3]") Scenario.detectionsA
                        (str "SSN") (str "555-1234")
      = placeholderOf (str "SSN") n
      ∧ 1 ≤ n
      ∧ (n ∉ existingNumbers (str "SSN") (str "id [SSN_1] and [SSN_3]"))
      ∧ ∀ k, 1 ≤ k → k < n →
             k ∈ existingNumbers (str "SSN") (str "id [SSN_1] and [SSN_3]").
Proof.
  split; [reflexivity|].
  apply (allocated_number_is_the_least_unused
           (str "id [SSN_1] and [SSN_3]") Scenario.detectionsA
           (str "SSN") (str "555-1234")).
  reflexivity.
Defined.

(** X1. Manual tagging of a selection that occurs in the text and that
    no detection records yet with the chosen type: a placeholder that the
    text does not contain is allocated and put in the place of the first
    occurrence of the selection (the rest of the text is kept), and one
    detection for it is inserted behind the leading run of detections
    whose placeholders occur before that place; the detections behind it
    are renumbered. *)
Theorem manual_tagging_replaces_the_first_occurrence
    text detections sel E p :
  E ≠ [] →
  indexOf sel text = Some p →
  (∀ d, d ∈ detections → taggedAs (getPlaceholderType E) sel d = false) →
  ∃ n,
    let P := placeholderOf (getPlaceholderType E) n in
    let newText := take p text ++ P ++ drop (p + length sel) text in
    let a := leadingRun (appearsBefore newText (Some p)) detections in
    ¬ occursIn P text
    ∧ handleReplace text detections sel E
      = Some (newText,
              a ++ manualDetection E sel P (length a)
                :: renumberFrom (S (length a))
                                (drop (length a) detections)).
Proof.
  intros HE Hp Hnone. unfold handleReplace.
  destruct E as [|c E]; [done|].
  set (T := getPlaceholderType (c :: E)) in *.
  rewrite (find_all_false _ _ Hnone).
  unfold choosePlaceholder. rewrite (find_all_false _ _ Hnone).
  set (used := existingNumbers T text).
  set (n := nextFree used (size used) 1).
  exists n. cbv zeta. set (P := placeholderOf T n).
  destruct (getPlaceholderType_plain (c :: E)) as [HTb HTd]. fold T in HTb, HTd.
  assert (HPfresh : ¬ occursIn P text) by by apply fresh_placeholder_absent.
  split; [done|].
  assert (Hrep : replace sel P text
                 = take p text ++ P ++ drop (p + length sel) text).
  { unfold replace. rewrite Hp.
    by rewrite getSubstitution_plain by by apply placeholderOf_plain. }
  rewrite Hrep. set (newText := take p text ++ _).
  assert (Hpos : indexOf P newText = Some p).
  { destruct (placeholderOf_body T n HTb) as (body & HP & Hbody).
    unfold indexOf in Hp. apply findAt_Some_startsWith in Hp as (j & Hj & Hle & _).
    simpl in Hj. subst j.
    pose proof (indexOf_first_piece body Hbody (take p text)
                  (drop (p + length sel) text)) as Hfirst.
    rewrite <- HP in Hfirst. rewrite length_take_le in Hfirst by done.
    apply Hfirst. intros Hocc. by apply HPfresh, (occursIn_take P p). }
  rewrite Hpos, findInsertIndex_leadingRun. unfold insertManual.
  by rewrite (leadingRun_take (appearsBefore newText (Some p)) detections).
Qed.

Lemma manual_tagging_witness :
  str "ssn" ≠ []
  ∧ indexOf (str "555-1234") Scenario.textB = Some 34
  ∧ (∀ d, d ∈ Scenario.detectionsA →
          taggedAs (getPlaceholderType (str "ssn")) (str "555-1234") d = false)
  ∧ ∃ n,
      let P := placeholderOf (getPlaceholderType (str "ssn")) n in
      let newText := take 34 Scenario.textB ++ P
                       ++ drop (34 + length (str "555-1234")) Scenario.textB in
      let a := leadingRun (appearsBefore newText (Some 34))
                          Scenario.detectionsA in
      ¬ occursIn P Scenario.textB
      ∧ handleReplace Scenario.textB Scenario.detectionsA
                      (str "555-1234") (str "ssn")
        = Some (newText,
                a ++ manualDetection (str "ssn") (str "555-1234") P (length a)
                  :: renumberFrom (S (length a))
                                  (drop (length a) Scenario.detectionsA)).
Proof.
  assert (H1 : str "ssn" ≠ []) by done.
  assert (H2 : indexOf (str "555-1234") Scenario.textB = Some 34)
    by (vm_compute; reflexivity).
  assert (H3 : ∀ d, d ∈ Scenario.detectionsA →
            taggedAs (getPlaceholderType (str "ssn")) (str "555-1234") d
            = false).
  { intros d Hd. unfold Scenario.detectionsA in Hd.
    apply elem_of_cons in Hd as [->|Hd]; [reflexivity|].
    apply elem_of_cons in Hd as [->|Hd]; [reflexivity|].
    by apply elem_of_nil in Hd. }
  split; [exact H1|]. split; [exact H2|]. split; [exact H3|].
  exact (manual_tagging_replaces_the_first_occurrence
           Scenario.textB Scenario.detectionsA (str "555-1234") (str "ssn")
           34 H1 H2 H3).
Defined.

(** X2. Replace-All of a selection that no detection records yet with
    the chosen type: a placeholder that the text does not contain is
    allocated, and the new text is the old one with every occurrence of
    the selection, letter case ignored and read left to right without
    overlap, replaced by it. *)
Theorem replaceAll_substitutes_every_occurrence text detections sel E :
  E ≠ [] →
  sel ≠ [] →
  (∀ d, d ∈ detections → taggedAs (getPlaceholderType E) sel d = false) →
  ∃ n detections',
    let P := placeholderOf (getPlaceholderType E) n in
    ¬ occursIn P text
    ∧ handleReplaceAll text detections sel E
      = Some (Spec.replaceEvery sel P text, detections').
Proof.
  intros HE Hsel Hnone. unfold handleReplaceAll.
  destruct E as [|c E]; [done|].
  set (T := getPlaceholderType (c :: E)) in *.
  unfold choosePlaceholder. rewrite (find_all_false _ _ Hnone).
  set (used := existingNumbers T text).
  set (n := nextFree used (size used) 1).
  destruct (getPlaceholderType_plain (c :: E)) as [HTb HTd]. fold T in HTb, HTd.
  exists n. eexists. cbv zeta. split.
  - by apply fresh_placeholder_absent.
  - rewrite replaceGlobal_replaceEvery; [reflexivity|done|].
    by apply placeholderOf_plain.
Qed.

Lemma replaceAll_every_occurrence_witness :
  str "org" ≠ [] ∧ str "Acme Corp" ≠ []
  ∧ ∃ n detections',
      let P := placeholderOf (getPlaceholderType (str "org")) n in
      ¬ occursIn P Scenario.textC
      ∧ handleReplaceAll Scenario.textC [] (str "Acme Corp") (str "org")
        = Some (Spec.replaceEvery (str "Acme Corp") P Scenario.textC,
                detections').
Proof.
  split; [done|]. split; [done|].
  apply (replaceAll_substitutes_every_occurrence
           Scenario.textC [] (str "Acme Corp") (str "org")); [done..|].
  intros d Hd. by apply elem_of_nil in Hd.
Defined.

(** The letter case of a Latin-1 letter is ignored as well: both words
    of the text are replaced. *)
Lemma replaceAll_latin1_letters :
  fst <$> handleReplaceAll Scenario.textL [] Scenario.cafe (str "org")
  = Some (str "[ORG_1] [ORG_1]")
  ∧ (λ r, length r.2) <$> handleReplaceAll Scenario.textL [] Scenario.cafe
                                           (str "org")
    = Some 2.
Proof. split; vm_compute; reflexivity. Qed.

(** Replace-All of a selection that the text does not contain, in any
    letter case, and that no detection records: the text and the
    detection array are handed back as they are. *)
Lemma replaceAll_absent_selection_inserts_nothing text detections sel E :
  E ≠ [] →
  matches (matchPattern true (escapeRegExp sel)) text = [] →
  (∀ d, d ∈ detections → taggedAs (getPlaceholderType E) sel d = false) →
  handleReplaceAll text detections sel E = Some (text, detections).
Proof.
  intros HE Hno Hnone. unfold handleReplaceAll.
  destruct E as [|c E]; [done|].
  set (T := getPlaceholderType (c :: E)) in *.
  unfold choosePlaceholder. rewrite (find_all_false _ _ Hnone).
  set (used := existingNumbers T text).
  set (n := nextFree used (size used) 1).
  unfold replaceGlobal. rewrite Hno. cbn [spliceMatches]. rewrite drop_0.
  assert (Hfresh : ¬ occursIn (placeholderOf T n) text).
  { apply fresh_placeholder_absent, getPlaceholderType_plain. }
  destruct (placeholderOf_body T n) as (body & HP & _).
  { apply getPlaceholderType_plain. }
  rewrite HP in *. unfold occurrencesOf, matches.
  by rewrite (scanRegex_no_occurrence body) by done.
Qed.

Lemma sublist_insertManual E sel P k detections :
  sublist (withoutIndex <$> detections)
          (withoutIndex <$> insertManual E sel P k detections).
Proof.
  unfold insertManual. rewrite <- (take_drop k detections) at 1.
  rewrite !fmap_app, fmap_cons. apply sublist_app; [done|].
  apply sublist_cons_r. left.
  assert (Heq : withoutIndex <$> renumberFrom (S k) (drop k detections)
                = withoutIndex <$> drop k detections).
  { generalize (S k), (drop k detections). intros from l.
    unfold renumberFrom. rewrite fmap_imap.
    rewrite <- (imap_const withoutIndex l).
    apply imap_ext. intros j d _. simpl. by destruct (i d). }
  by rewrite Heq.
Qed.

(** X4. Manual tagging and Replace-All keep the occurrence-index
    invariant and never drop or reorder a detection: when every detection
    carries its array index as [i] before, every detection does after, and
    the detections handed over are, their [i] apart, a subsequence of the
    detections handed back. *)
Theorem tagging_keeps_the_detections_and_their_order
    text detections sel E text' detections' :
  handleReplace text detections sel E = Some (text', detections')
  ∨ handleReplaceAll text detections sel E = Some (text', detections') →
  sublist (withoutIndex <$> detections) (withoutIndex <$> detections')
  ∧ (indexInvariant detections → indexInvariant detections').
Proof.
  intros Hrun. split.
  - destruct Hrun as [Hrun|Hrun].
    + unfold handleReplace in Hrun. destruct E as [|c E]; [done|].
      destruct (find _ detections); injection Hrun as <- <-; [done|].
      apply sublist_insertManual.
    + unfold handleReplaceAll in Hrun. destruct E as [|c E]; [done|].
      injection Hrun as <- <-.
      generalize (occurrencesOf
        (choosePlaceholder text detections (getPlaceholderType (c :: E)) sel)
        (replaceGlobal (matchPattern true (escapeRegExp sel))
           (choosePlaceholder text detections
              (getPlaceholderType (c :: E)) sel) text)).
      intros positions.
      set (step := replaceAllStep _ _ _ _).
      assert (Hgen : ∀ acc,
                sublist (withoutIndex <$> acc)
                        (withoutIndex <$> foldl step acc positions)).
      { induction positions as [|pos positions IH]; intros acc; [done|].
        simpl. etrans; [|apply IH]. unfold step, replaceAllStep.
        destruct (existsb _ _); [done|]. apply sublist_insertManual. }
      apply Hgen.
  - destruct Hrun as [Hrun|Hrun].
    + by apply (handleReplace_indexInvariant _ _ _ _ _ _ Hrun).
    + by apply (handleReplaceAll_indexInvariant _ _ _ _ _ _ Hrun).
Qed.

Lemma tagging_keeps_the_detections_witness :
  sublist (withoutIndex <$> Scenario.detectionsA)
          (withoutIndex <$> [Scenario.johnSmith; Scenario.email;
                             Scenario.ssn 2])
  ∧ (indexInvariant Scenario.detectionsA →
     indexInvariant [Scenario.johnSmith; Scenario.email; Scenario.ssn 2]).
Proof.
  apply (tagging_keeps_the_detections_and_their_order
           Scenario.textB Scenario.detectionsA (str "555-1234") (str "ssn")
           Scenario.taggedB).
  left. vm_compute. reflexivity.
Defined.

End TaggingMore.

Section EscapedPatterns.
Import JsString Regex.





End EscapedPatterns.

Section Retagging.
Import JsString Regex Tagging.

(** X5. Manual tagging of a selection that a detection already
    records with the chosen type: the placeholder of the first such
    detection is used again for the first occurrence of the selection,
    and the detection array is handed back as it is, without a detection
    for the occurrence just tagged. *)
Theorem retagging_reuses_the_placeholder_and_adds_no_detection
    text detections sel E d p :
  E ≠ [] →
  find (taggedAs (getPlaceholderType E) sel) detections = Some d →
  indexOf sel text = Some p →
  "$"%char ∉ replacement d →
  handleReplace text detections sel E
  = Some (take p text ++ replacement d ++ drop (p + length sel) text,
          detections).
Proof.
  intros HE Hfind Hp Hplain. unfold handleReplace.
  destruct E as [|c E]; [done|].
  unfold choosePlaceholder. rewrite Hfind. unfold replace. rewrite Hp.
  by rewrite getSubstitution_plain.
Qed.

Lemma retagging_witness :
  str "name" ≠ []
  ∧ handleReplace (str "[NAME_1] met John Smith") Scenario.detectionsA
                  (str "John Smith") (str "name")
    = Some (str "[NAME_1] met [NAME_1]", Scenario.detectionsA).
Proof.
  split; [done|].
  pose proof (retagging_reuses_the_placeholder_and_adds_no_detection
                (str "[NAME_1] met John Smith") Scenario.detectionsA
                (str "John Smith") (str "name") Scenario.johnSmith 13
                ltac:(done) eq_refl eq_refl ltac:(by_evaluation)) as W.
  vm_compute in W. vm_compute. exact W.
Defined.

End Retagging.

Section ChainFacts.
Import JsString Regex.

Lemma chained_weaken lo lo' n results :
  lo ≤ lo' → chained lo' n results → chained lo n results.
Proof.
  destruct results as [|[pos len] results]; [done|]. simpl.
  intros ? (? & ? & ?). repeat split; [lia|done..].
Qed.

Lemma scanRegex_chained (m : jsstring → option nat) s k skip :
  (∀ s len, m s = Some len → 0 < len ≤ length s) →
  chained (k + skip) (k + length s) (scanRegex m s k skip).
Proof.
  intros Hm. revert k skip. induction s as [|c s IH]; intros k skip; simpl.
  - destruct skip; [|done]. destruct (m []) as [len|] eqn:Hl; [|done].
    apply Hm in Hl. simpl in Hl. lia.
  - destruct skip as [|skip].
    + destruct (m (c :: s)) as [len|] eqn:Hl.
      * apply Hm in Hl. simpl in Hl. simpl. repeat split; [lia..|].
        replace (k + len) with (S k + (len - 1)) by lia.
        replace (k + S (length s)) with (S k + length s) by lia.
        apply IH.
      * replace (k + S (length s)) with (S k + length s) by lia.
        apply (chained_weaken _ (S k + 0)); [lia|apply IH].
    + replace (k + S (length s)) with (S k + length s) by lia.
      replace (k + S skip) with (S k + skip) by lia. apply IH.
Qed.

Lemma matchPlaceholder_bounds s len :
  matchPlaceholder s = Some len → 0 < len ≤ length s.
Proof.
  unfold matchPlaceholder. destruct s as [|c s]; [done|].
  destruct (Ascii.eqb c "["); [|done].
  destruct (classRun isPlaceholderChar s) as [|run] eqn:Hrun; [done|].
  destruct (drop (S run) s) as [|c' rest] eqn:Hdrop; [done|].
  destruct (Ascii.eqb c' "]"); [|done]. intros [= <-].
  assert (S run < length s).
  { apply (f_equal length) in Hdrop. rewrite length_drop in Hdrop.
    simpl in Hdrop. lia. }
  simpl. lia.
Qed.

End ChainFacts.

Section RenderingProperties.
Import JsString Regex Render.

Lemma sourceOf_tokenPart text detections io ir matchStart placeholder :
  sourceOf (tokenPart text detections io ir matchStart placeholder)
  = placeholder.
Proof.
  unfold tokenPart. destruct (match _ ≫= i with Some _ => _ | None => _ end);
    destruct (detectionFor _ _ _ _); done.
Qed.

Lemma displayed_tokenPart_active text detections matchStart placeholder :
  displayed (tokenPart text detections ∅ ∅ matchStart placeholder)
  = placeholder.
Proof.
  unfold tokenPart.
  destruct (detectionFor _ _ _ _ ≫= i) as [k|];
    rewrite bool_decide_eq_false_2 by set_solver; done.
Qed.

Lemma partsLoop_spells (f : Part → jsstring) text detections io ir
    results lastIndex :
  (∀ matchStart placeholder,
     f (tokenPart text detections io ir matchStart placeholder)
     = placeholder) →
  (∀ content, f (TextSpan content) = content) →
  chained lastIndex (length text) results →
  mjoin (f <$> partsLoop text detections io ir
                 ((λ r, (r.1, substring text r.1 (r.1 + r.2))) <$> results)
                 lastIndex)
  = drop lastIndex text.
Proof.
  intros Htoken Htext. revert lastIndex.
  induction results as [|[pos len] results IH]; intros lastIndex Hch.
  - simpl. destruct (lastIndex <? length text) eqn:Hlt; simpl.
    + by rewrite Htext, app_nil_r.
    + apply Nat.ltb_ge in Hlt. by rewrite drop_ge.
  - destruct Hch as (Hlo & Hhi & Hch). cbn [fmap list_fmap partsLoop fst snd].
    rewrite fmap_app, fmap_cons, join_app. cbn [mjoin list_join].
    rewrite Htoken.
    assert (Hlen : length (substring text pos (pos + len)) = len).
    { unfold substring. rewrite length_take, length_drop. lia. }
    rewrite Hlen, IH by done.
    rewrite (substring_drop text pos (pos + len)) by lia.
    destruct (lastIndex <? pos) eqn:Hlt; simpl.
    + apply Nat.ltb_lt in Hlt. rewrite Htext, app_nil_r.
      apply substring_drop. lia.
    + apply Nat.ltb_ge in Hlt. by replace lastIndex with pos by lia.
Qed.

(** X7. Rendering loses no text: the parts that [processedContent]
    pushes, each read as the stretch of text it stands for (a span as its
    content, a placeholder token as the placeholder), spell the anonymized
    text exactly; and with nothing inactive what is displayed is the
    anonymized text itself. *)
Theorem rendered_parts_spell_the_text
    anonymizedText detections inactiveOccurrences inactiveReplacements :
  mjoin (sourceOf <$> processedContent anonymizedText detections
                        inactiveOccurrences inactiveReplacements)
  = anonymizedText
  ∧ mjoin (displayed <$> processedContent anonymizedText detections ∅ ∅)
    = anonymizedText.
Proof.
  assert (Hch : chained 0 (length anonymizedText)
                        (matches matchPlaceholder anonymizedText)).
  { apply (scanRegex_chained matchPlaceholder anonymizedText 0 0).
    apply matchPlaceholder_bounds. }
  unfold processedContent, placeholderMatches. split.
  - rewrite (partsLoop_spells sourceOf); [done| |done|done].
    intros. apply sourceOf_tokenPart.
  - rewrite (partsLoop_spells displayed); [done| |done|done].
    intros. apply displayed_tokenPart_active.
Qed.

End RenderingProperties.

Section ToggleFacts.
Import Activation ChatInterface.

Lemma handleToggleOccurrence_other m m' k a st :
  m' ≠ m → handleToggleOccurrence m k a st !! m' = st !! m'.
Proof.
  intros Hm. unfold handleToggleOccurrence.
  destruct (decide _).
  - by rewrite lookup_delete_ne.
  - by rewrite lookup_insert_ne.
Qed.

Lemma handleToggleOccurrence_lookup m k a st :
  handleToggleOccurrence m k a st !! m
  = (if decide (toggle (inactiveOf st m) k a = ∅) then None
     else Some (toggle (inactiveOf st m) k a)).
Proof.
  unfold handleToggleOccurrence.
  destruct (decide (size _ = 0)) as [Hs|Hs].
  - rewrite lookup_delete_eq.
    apply size_empty_inv in Hs. apply leibniz_equiv in Hs.
    by rewrite decide_True.
  - rewrite lookup_insert_eq. rewrite decide_False; [done|].
    intros He. apply Hs. rewrite He. apply size_empty.
Qed.

Lemma inactiveOf_noEmptySets st m :
  noEmptySets st →
  st !! m = (if decide (inactiveOf st m = ∅) then None
             else Some (inactiveOf st m)).
Proof.
  intros Hst. unfold inactiveOf.
  destruct (st !! m) as [s|] eqn:Hs; simpl.
  - rewrite decide_False; [done|]. by apply (Hst m).
  - by rewrite decide_True.
Qed.

Lemma handleToggleOccurrence_noEmptySets m k a st :
  noEmptySets st → noEmptySets (handleToggleOccurrence m k a st).
Proof.
  intros Hst m' s Hs. destruct (decide (m' = m)) as [->|Hm].
  - rewrite handleToggleOccurrence_lookup in Hs.
    destruct (decide _); congruence.
  - rewrite handleToggleOccurrence_other in Hs by done. by apply (Hst m').
Qed.

(** The set that [handleToggleAllOccurrences] builds from the set of the
    message. *)
Lemma foldl_toggle_matching placeholder makeActive detections (s : gset nat) :
  foldl (λ s '(index, detection),
           if bool_decide (replacement detection = placeholder)
           then toggle s (occurrenceIndex detection index) makeActive
           else s)
        s (imap pair detections)
  = (if makeActive then s ∖ indicesWith placeholder detections
     else indicesWith placeholder detections ∪ s).
Proof.
  set (calls := mjoin (imap (λ idx d,
         if bool_decide (replacement d = placeholder)
         then [(occurrenceIndex d idx, makeActive)] else []) detections)).
  assert (Hfold : ∀ (g : nat → nat) (l : list Detection) (s : gset nat),
    foldl (λ s '(index, detection),
             if bool_decide (replacement detection = placeholder)
             then toggle s (occurrenceIndex detection index) makeActive
             else s)
          s (imap (λ k, pair (g k)) l)
    = foldl (λ s c, toggle s c.1 c.2) s
        (mjoin (imap (λ idx d,
           if bool_decide (replacement d = placeholder)
           then [(occurrenceIndex d (g idx), makeActive)] else []) l))).
  { intros g l. revert g.
    induction l as [|d l IH]; intros g s0; [done|].
    cbn [imap mjoin list_join foldl]. rewrite foldl_app.
    specialize (IH (g ∘ S)). unfold compose in *. rewrite <- IH.
    by destruct (bool_decide (replacement d = placeholder)). }
  etrans; [exact (Hfold id detections s)|]. simpl. fold calls.
  assert (Hcalls : ∀ c, c ∈ calls ↔
            ∃ idx d, detections !! idx = Some d
                     ∧ bool_decide (replacement d = placeholder) = true
                     ∧ c = (occurrenceIndex d idx, makeActive)).
  { intros c. apply (elem_of_conditional_push
      (λ _ d, bool_decide (replacement d = placeholder))
      (λ idx d, (occurrenceIndex d idx, makeActive))). }
  assert (HI : list_to_set calls.*1 = indicesWith placeholder detections).
  { apply set_eq. intros k. unfold indicesWith.
    rewrite !elem_of_list_to_set, list_elem_of_fmap.
    pose proof (elem_of_conditional_push
      (λ _ d, bool_decide (replacement d = placeholder))
      (λ idx d, occurrenceIndex d idx) detections k) as H.
    simpl in H. rewrite H. split.
    - intros (c & -> & Hc). apply Hcalls in Hc.
      destruct Hc as (idx & d & Hd & Hb & ->). eauto.
    - intros (idx & d & Hd & Hb & ->).
      exists (occurrenceIndex d idx, makeActive). split; [done|].
      apply Hcalls. eauto. }
  destruct makeActive.
  - rewrite foldl_toggle_activate, HI; [done|].
    apply Forall_forall. intros c Hc. apply Hcalls in Hc.
    by destruct Hc as (? & ? & _ & _ & ->).
  - rewrite foldl_toggle_deactivate, HI; [done|].
    apply Forall_forall. intros c Hc. apply Hcalls in Hc.
    by destruct Hc as (? & ? & _ & _ & ->).
Qed.

End ToggleFacts.

Section ToggleProperties.
Import Activation ChatInterface.

(** X8. The map of inactive occurrences never holds an empty set:
    [handleToggleOccurrence] and [handleToggleAllOccurrences] delete the
    entry of a message when its last inactive occurrence is removed, so
    a map without empty sets stays one. *)
Theorem toggles_never_store_an_empty_set
    messages messageIndex k placeholder makeActive st :
  noEmptySets (inactiveOccurrences st) →
  noEmptySets (handleToggleOccurrence messageIndex k makeActive
                 (inactiveOccurrences st))
  ∧ ∀ st', handleToggleAllOccurrences messages messageIndex placeholder
             makeActive st = Completed st' →
           noEmptySets (inactiveOccurrences st').
Proof.
  intros Hst. split; [by apply handleToggleOccurrence_noEmptySets|].
  intros st'. unfold handleToggleAllOccurrences.
  destruct (messages !! messageIndex) as [message|]; [|done].
  destruct (reasoning message) as [[detections|]|]; [|done|].
  2:{ intros [= <-]. done. }
  intros [= <-]. cbn [inactiveOccurrences].
  set (s := foldl _ _ _).
  intros m' s' Hs'. destruct (decide (size s = 0)) as [Hs|Hs].
  - apply lookup_delete_Some in Hs' as [_ Hs']. by apply (Hst m').
  - apply lookup_insert_Some in Hs' as [[_ <-]|[_ Hs']].
    + intros He. apply Hs. rewrite He. apply size_empty.
    + by apply (Hst m').
Qed.

Lemma toggles_never_store_an_empty_set_witness :
  let messages :=
    [mkMessage Scenario.textA (Some (Some Scenario.detectionsA))] in
  let st := mkState {[0 := {[0]}]} ∅ in
  noEmptySets (inactiveOccurrences st)
  ∧ handleToggleOccurrence 0 0 true (inactiveOccurrences st) = ∅
  ∧ handleToggleAllOccurrences messages 0 (str "[NAME_1]") true st
    = Completed (mkState ∅ ∅)
  ∧ noEmptySets (handleToggleOccurrence 0 0 true (inactiveOccurrences st))
  ∧ noEmptySets (inactiveOccurrences (mkState ∅ ∅)).
Proof.
  intros messages st.
  assert (H : noEmptySets (inactiveOccurrences st)).
  { intros m s Hs. unfold st in Hs. cbn [inactiveOccurrences] in Hs.
    apply lookup_singleton_Some in Hs as [_ <-]. by_evaluation. }
  assert (H1 : handleToggleOccurrence 0 0 true (inactiveOccurrences st) = ∅)
    by by_evaluation.
  assert (H2 : handleToggleAllOccurrences messages 0 (str "[NAME_1]") true st
               = Completed (mkState ∅ ∅)).
  { vm_compute. reflexivity. }
  pose proof (toggles_never_store_an_empty_set messages 0 0
                (str "[NAME_1]") true st H) as [W1 W2].
  split; [exact H|]. split; [exact H1|]. split; [exact H2|].
  split; [exact W1|]. exact (W2 _ H2).
Defined.

(** X9. Clicking an item of the detection list twice restores the map
    of inactive occurrences exactly: the item's [onToggle] flips the
    occurrence, and two flips leave a map without empty sets as it
    was. *)
Theorem list_item_toggled_twice_restores_state
    messageIndex detection arrayIndex st :
  noEmptySets st →
  let click st :=
    let call := ResultDisplay.onToggle (inactiveOf st messageIndex)
                                       detection arrayIndex in
    handleToggleOccurrence messageIndex call.1 call.2 st in
  click (click st) = st.
Proof.
  intros Hst click. unfold click, ResultDisplay.onToggle. cbn [fst snd].
  set (k := occurrenceIndex detection arrayIndex).
  rewrite negb_involutive.
  rewrite inactiveOf_handleToggleOccurrence.
  apply map_eq. intros m. destruct (decide (m = messageIndex)) as [->|Hm].
  2:{ by rewrite !handleToggleOccurrence_other. }
  rewrite handleToggleOccurrence_lookup, inactiveOf_handleToggleOccurrence.
  rewrite (inactiveOf_noEmptySets st messageIndex Hst).
  set (s := inactiveOf st messageIndex).
  assert (Hs : toggle (toggle s k (bool_decide (k ∈ s))) k
                 (bool_decide (k ∈ toggle s k (bool_decide (k ∈ s)))) = s).
  { unfold toggle. destruct (decide (k ∈ s)) as [Hk|Hk].
    - rewrite (bool_decide_eq_true_2 _ Hk).
      rewrite bool_decide_eq_false_2 by set_solver.
      apply set_eq. intros x. destruct (decide (x = k)); set_solver.
    - rewrite (bool_decide_eq_false_2 _ Hk).
      rewrite bool_decide_eq_true_2 by set_solver. set_solver. }
  rewrite !negb_involutive. by rewrite Hs.
Qed.

Lemma list_item_toggled_twice_witness :
  noEmptySets ∅
  ∧ handleToggleOccurrence 0 0 true
      (handleToggleOccurrence 0 0 false ∅) = ∅.
Proof.
  assert (H : noEmptySets ∅).
  { intros m s Hs. by rewrite lookup_empty in Hs. }
  split; [exact H|].
  pose proof (list_item_toggled_twice_restores_state
                0 Scenario.johnSmith 0 ∅ H) as W.
  vm_compute in W. vm_compute. exact W.
Defined.

(** X10. [handleToggleAllOccurrences] on a message with detections
    removes from, or adds to, the inactive set of that message the
    occurrence indices of exactly the detections whose replacement is the
    placeholder; the sets of the other messages and the inactive entities
    are left as they are. *)
Theorem toggleAll_toggles_the_detections_of_the_placeholder
    messages messageIndex message detections placeholder makeActive st :
  messages !! messageIndex = Some message →
  detected_pii message = Some detections →
  ∃ st',
    handleToggleAllOccurrences messages messageIndex placeholder
                               makeActive st = Completed st'
    ∧ inactiveOf (inactiveOccurrences st') messageIndex
      = (if makeActive
         then inactiveOf (inactiveOccurrences st) messageIndex
                ∖ indicesWith placeholder detections
         else indicesWith placeholder detections
                ∪ inactiveOf (inactiveOccurrences st) messageIndex)
    ∧ (∀ m, m ≠ messageIndex →
         inactiveOccurrences st' !! m = inactiveOccurrences st !! m)
    ∧ inactiveEntities st' = inactiveEntities st.
Proof.
  intros Hm Hd. unfold handleToggleAllOccurrences. rewrite Hm.
  unfold detected_pii in Hd.
  destruct (reasoning message) as [[detections'|]|]; [|done|done].
  injection Hd as ->.
  eexists. split; [done|]. cbn [inactiveOccurrences inactiveEntities].
  rewrite foldl_toggle_matching.
  set (s := if makeActive then _ else _).
  split; [|split; [|done]].
  - unfold inactiveOf at 1. destruct (decide (size s = 0)) as [Hs|Hs].
    + rewrite lookup_delete_eq. simpl.
      apply size_empty_inv in Hs. by apply leibniz_equiv in Hs.
    + by rewrite lookup_insert_eq.
  - intros m Hne. destruct (decide (size s = 0)).
    + by rewrite lookup_delete_ne.
    + by rewrite lookup_insert_ne.
Qed.

Lemma toggleAll_witness :
  ∃ st',
    handleToggleAllOccurrences
      [mkMessage Scenario.textA (Some (Some Scenario.detectionsA))] 0
      (str "[EMAIL]") false (mkState ∅ ∅) = Completed st'
    ∧ inactiveOf (inactiveOccurrences st') 0
      = indicesWith (str "[EMAIL]") Scenario.detectionsA ∪ inactiveOf ∅ 0
    ∧ (∀ m, m ≠ 0 → inactiveOccurrences st' !! m = (∅ : gmap nat (gset nat)) !! m)
    ∧ inactiveEntities st' = ∅.
Proof.
  apply (toggleAll_toggles_the_detections_of_the_placeholder
           [mkMessage Scenario.textA (Some (Some Scenario.detectionsA))] 0
           (mkMessage Scenario.textA (Some (Some Scenario.detectionsA)))
           Scenario.detectionsA (str "[EMAIL]") false (mkState ∅ ∅));
    reflexivity.
Defined.

End ToggleProperties.

Section CountFacts.
Import Activation.

Lemma foldl_pointwise {A B} (f g : A → B → A) (l : list B) (a : A) :
  (∀ a b, f a b = g a b) → foldl f a l = foldl g a l.
Proof.
  intros Hfg. revert a. induction l as [|b l IH]; intros a; [done|].
  simpl. by rewrite Hfg, IH.
Qed.

Lemma foldl_count_from {A} (f : A → bool) (l : list A) (n : nat) :
  foldl (λ c x, if f x then S c else c) n l
  = n + length (List.filter f l).
Proof.
  revert n. induction l as [|x l IH]; intros n; simpl; [lia|].
  rewrite IH. destruct (f x); simpl; lia.
Qed.

Lemma length_filter_negb {A} (f : A → bool) (l : list A) :
  length (List.filter f l) + length (List.filter (λ x, negb (f x)) l)
  = length l.
Proof.
  induction l as [|x l IH]; simpl; [done|].
  destruct (f x); simpl; lia.
Qed.

(** Counting the indexed entries that satisfy a test on the index and
    the detection, when the test only depends on the detection. *)
Lemma length_filter_indexed (f : nat * Detection → bool)
    (g : Detection → bool) (h : nat → nat) (l : list Detection) :
  (∀ idx d, l !! idx = Some d → f (h idx, d) = g d) →
  length (List.filter f (imap (λ k, pair (h k)) l))
  = length (List.filter g l).
Proof.
  revert h. induction l as [|d l IH]; intros h Hfg; [done|].
  cbn [imap List.filter]. rewrite (Hfg 0 d eq_refl).
  change (imap ((λ k, pair (h k)) ∘ S) l)
    with (imap (λ k, pair ((h ∘ S) k)) l).
  assert (Hl : length (List.filter f (imap (λ k, pair ((h ∘ S) k)) l))
               = length (List.filter g l)).
  { apply IH. intros idx d' Hd'. apply (Hfg (S idx) d' Hd'). }
  destruct (g d); simpl; [f_equal|]; exact Hl.
Qed.

End CountFacts.

Section CountProperties.
Import Activation ResultDisplay.

(** X11. The counts written by the CSV and PDF exports are the counts
    the result panel displays: both count the detections whose
    occurrence index ([i], or the array index without one) is in the
    inactive set, and active and inactive add up to the number of
    detections.  An export without an inactive set counts every
    detection as active. *)
Theorem export_counts_are_the_displayed_counts
    detections inactiveOccurrences :
  let counts := countOccurrences detections inactiveOccurrences in
  ExportUtils.activeCount detections (Some inactiveOccurrences)
    = active counts
  ∧ ExportUtils.inactiveCount detections (Some inactiveOccurrences)
    = inactive counts
  ∧ active counts + inactive counts = total counts
  ∧ ExportUtils.activeCount detections None = length detections
  ∧ ExportUtils.inactiveCount detections None = 0.
Proof.
  intros counts. unfold counts, countOccurrences,
    ExportUtils.inactiveCount, ExportUtils.activeCount. cbn [active inactive total].
  set (l := imap pair detections).
  assert (Hl : length l = length detections) by apply length_imap.
  set (isIn := λ x : nat * Detection,
         bool_decide (occurrenceIndex x.2 x.1 ∈ inactiveOccurrences)).
  assert (Hin : foldl (λ inactiveCount '(idx, detection),
                   if bool_decide (occurrenceIndex detection idx
                                     ∈ inactiveOccurrences)
                   then S inactiveCount else inactiveCount) 0 l
                = length (List.filter isIn l)).
  { etrans; [|apply (foldl_count_from isIn l 0)].
    apply foldl_pointwise. by intros c [idx d]. }
  assert (Hact : length (List.filter (λ '(index, detection),
                   ExportUtils.isActive (Some inactiveOccurrences)
                                        index detection) l)
                 = length (List.filter (λ x, negb (isIn x)) l)).
  { f_equal. apply List.filter_ext. by intros [idx d]. }
  assert (Hnone : length (List.filter (λ '(index, detection),
                    ExportUtils.isActive None index detection) l)
                  = length l).
  { clear. induction l as [|[idx d] l IH]; [done|]. simpl. by rewrite IH. }
  rewrite Hin, Hact, Hnone, Hl.
  pose proof (length_filter_negb isIn l) as Hsum. rewrite Hl in Hsum.
  repeat split; lia.
Qed.

End CountProperties.

Section ThresholdCounts.
Import Activation ResultDisplay.

(** X12. After the slider is moved to a threshold, the inactive count
    the panel shows is the number of detections whose confidence is below
    it (none for a threshold that is not positive), whatever was inactive
    before, provided the detections carry their array index as [i]. *)
Theorem threshold_sets_the_inactive_count
    messageIndex detections (value : float) st :
  indexInvariant detections →
  inactive (countOccurrences detections
              (inactiveOf (applyConfidenceThreshold messageIndex detections
                             value st) messageIndex))
  = (if (0 <? value)%float
     then length (List.filter (λ d, belowThreshold d value) detections)
     else 0).
Proof.
  intros Hinv. unfold countOccurrences. cbn [inactive].
  rewrite inactiveOf_applyConfidenceThreshold.
  set (s := _ ∪ _).
  set (g := λ d, (0 <? value)%float && belowThreshold d value).
  assert (Hg : ∀ idx d, detections !! idx = Some d →
                 bool_decide (occurrenceIndex d idx ∈ s) = g d).
  { intros idx d Hd. unfold occurrenceIndex. rewrite (Hinv idx d Hd).
    simpl. unfold g, s.
    assert (Hidx : idx ∈ indicesOf detections).
    { apply elem_of_indicesOf. exists idx, d. split; [done|].
      unfold occurrenceIndex. by rewrite (Hinv idx d Hd). }
    destruct (0 <? value)%float; simpl.
    - destruct (belowThreshold d value) eqn:Hb.
      + apply bool_decide_eq_true_2, elem_of_union_r, elem_of_belowSet.
        exists idx, d. repeat split; try done.
        unfold occurrenceIndex. by rewrite (Hinv idx d Hd).
      + apply bool_decide_eq_false_2. intros [Hin|Hin]%elem_of_union.
        * set_solver.
        * apply elem_of_belowSet in Hin as (idx' & d' & Hd' & Hb' & Hk).
          unfold occurrenceIndex in Hk. rewrite (Hinv idx' d' Hd') in Hk.
          simpl in Hk. subst idx'. congruence.
    - apply bool_decide_eq_false_2. set_solver. }
  etrans.
  { apply (foldl_pointwise _
      (λ c x, if bool_decide (occurrenceIndex x.2 x.1 ∈ s) then S c else c)).
    by intros c [idx d]. }
  rewrite (foldl_count_from
             (λ x, bool_decide (occurrenceIndex x.2 x.1 ∈ s))).
  simpl.
  rewrite (length_filter_indexed
             (λ x, bool_decide (occurrenceIndex x.2 x.1 ∈ s)) g id).
  2:{ intros idx d Hd. by apply Hg. }
  unfold g. destruct (0 <? value)%float; simpl; [done|].
  clear. by induction detections.
Qed.

Lemma threshold_sets_the_inactive_count_witness :
  indexInvariant Scenario.detectionsA
  ∧ inactive (countOccurrences Scenario.detectionsA
                (inactiveOf (applyConfidenceThreshold 0 Scenario.detectionsA
                               95 {[0 := {[5]}]}) 0))
    = (if (0 <? 95)%float
       then length (List.filter (λ d, belowThreshold d 95)
                                Scenario.detectionsA)
       else 0).
Proof.
  split; [apply detectionsA_indexInvariant|].
  apply (threshold_sets_the_inactive_count 0 Scenario.detectionsA 95
           {[0 := {[5]}]} detectionsA_indexInvariant).
Defined.

End ThresholdCounts.

Section DetectionListFacts.
Import ResultDisplay Render.

(** The array that the result panel fills is the map of the rendering. *)
Lemma filledSlots_detectionByIndex l : filledSlots l = detectionByIndex l.
Proof. done. Qed.

Lemma detectionByIndex_snoc l d :
  detectionByIndex (l ++ [d])
  = match i d with
    | Some k => <[k := d]> (detectionByIndex l)
    | None => detectionByIndex l
    end.
Proof. unfold detectionByIndex. by rewrite foldl_app. Qed.

(** Every entry is a detection of the list, filed under its own [i]. *)
Lemma detectionByIndex_Some l k d :
  detectionByIndex l !! k = Some d → d ∈ l ∧ i d = Some k.
Proof.
  induction l as [|x l IH] using rev_ind.
  - unfold detectionByIndex. simpl. by rewrite lookup_empty.
  - rewrite detectionByIndex_snoc. destruct (i x) as [j|] eqn:Hx.
    + intros [[-> ->]|[_ H]]%lookup_insert_Some.
      * split; [set_solver|done].
      * destruct (IH H). split; [set_solver|done].
    + intros H. destruct (IH H). split; [set_solver|done].
Qed.

Lemma detectionByIndex_invariant l :
  indexInvariant l → ∀ k, detectionByIndex l !! k = l !! k.
Proof.
  induction l as [|x l IH] using rev_ind; intros Hinv k.
  - unfold detectionByIndex. simpl. by rewrite lookup_empty.
  - assert (Hl : indexInvariant l).
    { intros j d Hd. apply (Hinv j d). by apply lookup_app_l_Some. }
    assert (Hx : i x = Some (length l)).
    { apply (Hinv (length l) x). by rewrite list_lookup_middle. }
    rewrite detectionByIndex_snoc, Hx.
    destruct (decide (k = length l)) as [->|Hk].
    + by rewrite lookup_insert_eq, list_lookup_middle.
    + rewrite lookup_insert_ne by done. rewrite IH by done.
      destruct (decide (k < length l)).
      * by rewrite lookup_app_l.
      * rewrite !lookup_ge_None_2; [done| |lia].
        rewrite length_app. simpl. lia.
Qed.

Lemma maxIndex_invariant l :
  indexInvariant l → maxIndex l = length l - 1.
Proof.
  unfold maxIndex.
  induction l as [|x l IH] using rev_ind; intros Hinv; [done|].
  assert (Hl : indexInvariant l).
  { intros j d Hd. apply (Hinv j d). by apply lookup_app_l_Some. }
  assert (Hx : i x = Some (length l)).
  { apply (Hinv (length l) x). by rewrite list_lookup_middle. }
  rewrite fmap_app, foldr_app. simpl. rewrite Hx. simpl.
  rewrite length_app. simpl.
  specialize (IH Hl). revert IH.
  generalize ((λ d, default 0 (i d)) <$> l). intros ns.
  assert (Hgen : ∀ a, foldr Nat.max a ns = Nat.max a (foldr Nat.max 0 ns)).
  { induction ns as [|n ns IHn]; intros a; simpl; [lia|].
    rewrite IHn. lia. }
  rewrite (Hgen (_ `max` 0)). intros ->. lia.
Qed.

Lemma omap_pointwise {A B} (f g : A → option B) (l : list A) :
  (∀ x, x ∈ l → f x = g x) → omap f l = omap g l.
Proof.
  induction l as [|x l IH]; intros Hfg; [done|]. simpl.
  rewrite (Hfg x) by set_solver.
  assert (Hl : omap f l = omap g l).
  { apply IH. intros y Hy. apply Hfg. set_solver. }
  destruct (g x); [f_equal|]; exact Hl.
Qed.

Lemma omap_lookup_seq {A} (l : list A) :
  omap (λ k, l !! k) (seq 0 (length l)) = l.
Proof.
  induction l as [|x l IH] using rev_ind; [done|].
  rewrite length_app. simpl. rewrite seq_app, omap_app. simpl.
  rewrite list_lookup_middle by done. simpl. f_equal.
  rewrite <- IH at 2. apply omap_pointwise.
  intros k Hk%elem_of_seq. by rewrite lookup_app_l by lia.
Qed.

End DetectionListFacts.

Section DetectionListProperties.
Import ResultDisplay Render.

(** X13. When every detection carries its array index as [i], the list
    of detections of the result panel is the detection array itself:
    nothing is dropped and nothing is reordered; and the map
    [detectionByIndex] of the renderer holds at every index the detection
    the array holds there. *)
Theorem detection_list_is_the_array_under_the_index_invariant
    anonymizedText detected_pii :
  indexInvariant detected_pii →
  detectionsArray anonymizedText detected_pii = detected_pii
  ∧ ∀ k, detectionByIndex detected_pii !! k = detected_pii !! k.
Proof.
  intros Hinv. split; [|intros k; by apply detectionByIndex_invariant].
  unfold detectionsArray.
  destruct detected_pii as [|d0 l] eqn:Hl; [done|]. rewrite <- Hl in *.
  assert (H0 : i d0 = Some 0) by (apply (Hinv 0); by rewrite Hl).
  rewrite H0, maxIndex_invariant, filledSlots_detectionByIndex by done.
  replace (length detected_pii - 1 + 1) with (length detected_pii)
    by (rewrite Hl; simpl; lia).
  etrans; [|apply (omap_lookup_seq detected_pii)].
  apply omap_pointwise. intros k _. by apply detectionByIndex_invariant.
Qed.

Lemma detection_list_witness :
  indexInvariant Scenario.detectionsA
  ∧ detectionsArray Scenario.textA Scenario.detectionsA
    = Scenario.detectionsA.
Proof.
  split; [apply detectionsA_indexInvariant|].
  apply (proj1 (detection_list_is_the_array_under_the_index_invariant
                  Scenario.textA Scenario.detectionsA
                  detectionsA_indexInvariant)).
Defined.

(** X14. When the first detection has an [i], every listed detection is
    one of the detections and has an [i], and the list is in strictly
    ascending order of [i]: a detection without [i] is not listed, and
    of the detections that share an [i] one only is. *)
Theorem detection_list_is_ordered_by_i
    anonymizedText d0 rest k0 :
  i d0 = Some k0 →
  let listed := detectionsArray anonymizedText (d0 :: rest) in
  Forall (λ d, d ∈ d0 :: rest ∧ is_Some (i d)) listed
  ∧ StronglySorted (λ a b, default 0 (i a) < default 0 (i b)) listed.
Proof.
  intros H0 listed. unfold listed, detectionsArray. rewrite H0.
  rewrite filledSlots_detectionByIndex. set (l := d0 :: rest). generalize (maxIndex l + 1). intros n.
  assert (Hgen : ∀ from n,
    Forall (λ d, d ∈ l ∧ is_Some (i d) ∧ from ≤ default 0 (i d))
           (omap (λ k, detectionByIndex l !! k) (seq from n))
    ∧ StronglySorted (λ a b, default 0 (i a) < default 0 (i b))
           (omap (λ k, detectionByIndex l !! k) (seq from n))).
  { intros from m. revert from.
    induction m as [|m IH]; intros from; simpl.
    { split; constructor. }
    destruct (IH (S from)) as [IH1 IH2].
    destruct (detectionByIndex l !! from) as [d|] eqn:Hd; simpl.
    - apply detectionByIndex_Some in Hd as [Hin Hi].
      split.
      + constructor; [by rewrite Hi; simpl; eauto|].
        eapply Forall_impl; [exact IH1|]. simpl. intros x (? & ? & ?).
        repeat split; try done. lia.
      + constructor; [done|]. rewrite Hi. simpl.
        eapply Forall_impl; [exact IH1|]. simpl. intros x (? & ? & ?). lia.
    - split; [|done].
      eapply Forall_impl; [exact IH1|]. simpl. intros x (? & ? & ?).
      repeat split; try done. lia. }
  destruct (Hgen 0 n) as [H1 H2]. split; [|done].
  eapply Forall_impl; [exact H1|]. simpl. by intros x (? & ? & ?).
Qed.

Lemma detection_list_is_ordered_witness :
  i Scenario.johnSmith = Some 0
  ∧ Forall (λ d, d ∈ Scenario.detectionsA ∧ is_Some (i d))
           (detectionsArray Scenario.textA Scenario.detectionsA)
  ∧ StronglySorted (λ a b, default 0 (i a) < default 0 (i b))
           (detectionsArray Scenario.textA Scenario.detectionsA).
Proof.
  split; [reflexivity|].
  apply (detection_list_is_ordered_by_i Scenario.textA Scenario.johnSmith
           [Scenario.email] 0 eq_refl).
Defined.

End DetectionListProperties.

Section InstanceFacts.
Import ResultDisplay Render JsString.

(** The key separates original and replacement when the replacements
    hold no bar. *)
Lemma instanceKey_inj (o1 o2 r1 r2 : jsstring) :
  "|"%char ∉ r1 → "|"%char ∉ r2 →
  o1 ++ "|"%char :: r1 = o2 ++ "|"%char :: r2 → o1 = o2 ∧ r1 = r2.
Proof.
  intros H1 H2. revert o2.
  induction o1 as [|c o1 IH]; intros [|c' o2]; simpl; intros He.
  - by injection He as ->.
  - injection He as <- ->. exfalso. apply H1. set_solver.
  - injection He as -> <-. exfalso. apply H2. set_solver.
  - injection He as -> Hr. destruct (IH o2 Hr) as [-> ->]. done.
Qed.

Lemma keyIndices_cons key g d l :
  keyIndices key g (d :: l)
  = (if bool_decide (instanceKey d = key) then [g 0] else [])
      ++ keyIndices key (g ∘ S) l.
Proof. done. Qed.

Lemma instanceMap_from (key : jsstring) (g : nat → nat)
    (l : list Detection) (map : gmap jsstring (list nat)) :
  default [] (foldl (λ map '(index, detection),
                       let key := instanceKey detection in
                       <[key := default [] (map !! key) ++ [index]]> map)
                    map (imap (λ k, pair (g k)) l) !! key)
  = default [] (map !! key) ++ keyIndices key g l.
Proof.
  revert g map. induction l as [|d l IH]; intros g map.
  { simpl. unfold keyIndices. simpl. by rewrite app_nil_r. }
  rewrite keyIndices_cons. cbn [imap foldl].
  change (imap ((λ k, pair (g k)) ∘ S) l)
    with (imap (λ k, pair ((g ∘ S) k)) l).
  rewrite IH. cbv zeta.
  destruct (bool_decide (instanceKey d = key)) eqn:Hk.
  - apply bool_decide_eq_true in Hk. rewrite Hk, lookup_insert_eq. simpl.
    by rewrite <- app_assoc.
  - apply bool_decide_eq_false in Hk. by rewrite lookup_insert_ne.
Qed.

Lemma length_keyIndices key g l :
  length (keyIndices key g l)
  = length (List.filter (λ d, bool_decide (instanceKey d = key)) l).
Proof.
  revert g. induction l as [|d l IH]; intros g; [done|].
  rewrite keyIndices_cons, length_app, IH. simpl.
  by destruct (bool_decide _).
Qed.

Lemma keyIndices_find key g l a d :
  (∀ x y, g x = g y → x = y) →
  l !! a = Some d → instanceKey d = key →
  list_find (λ x, x = g a) (keyIndices key g l)
  = Some (length (List.filter (λ d, bool_decide (instanceKey d = key))
                              (take a l)), g a).
Proof.
  intros Hg. revert g a Hg. induction l as [|d0 l IH]; intros g a Hg Ha Hk.
  { done. }
  rewrite keyIndices_cons. destruct a as [|a]; simpl in Ha.
  - injection Ha as ->. rewrite bool_decide_eq_true_2 by done. simpl.
    by rewrite decide_True.
  - assert (Hrec := IH (λ x, g (S x)) a). simpl in Hrec.
    change (g ∘ S) with (λ x, g (S x)).
    rewrite firstn_cons. cbn [List.filter].
    destruct (bool_decide (instanceKey d0 = key)); simpl.
    + rewrite decide_False by (intros Heq; by apply Hg in Heq).
      rewrite Hrec; [done| |done..].
      intros x y Hxy. apply Hg in Hxy. lia.
    + rewrite Hrec; [done| |done..].
      intros x y Hxy. apply Hg in Hxy. lia.
Qed.

End InstanceFacts.

Section InstanceProperties.
Import ResultDisplay Render JsString.

(** X15. The label of a list item counts the detections of the same
    entity: for the item at [arrayIndex], "instance p of n" gives the
    number [n] of listed detections with the same original and
    replacement and its rank [p] among them, and there is no label when
    it is the only one.  This holds when no replacement contains the bar
    that joins original and replacement in the key. *)
Theorem instance_label_counts_the_same_entity
    detectionsArray arrayIndex detection :
  detectionsArray !! arrayIndex = Some detection →
  Forall (λ d, "|"%char ∉ replacement d) detectionsArray →
  let n := length (List.filter (sameEntity detection) detectionsArray) in
  let p := S (length (List.filter (sameEntity detection)
                                  (take arrayIndex detectionsArray))) in
  instanceLabel detectionsArray arrayIndex detection
  = (if 1 <? n
     then str " (instance " ++ numberToString p ++ str " of "
            ++ numberToString n ++ str ")"
     else []).
Proof.
  intros Ha Hbar n p. unfold instanceLabel, instanceMap.
  set (key := instanceKey detection).
  pose proof (instanceMap_from key id detectionsArray ∅) as Hmap.
  rewrite lookup_empty in Hmap. simpl in Hmap.
  change (imap (λ k, pair k) detectionsArray)
    with (imap pair detectionsArray) in Hmap.
  rewrite Hmap. clear Hmap.
  assert (Hsame : ∀ l, (∀ d, d ∈ l → d ∈ detectionsArray) →
            List.filter (λ d, bool_decide (instanceKey d = key)) l
            = List.filter (sameEntity detection) l).
  { intros l Hl. apply List.filter_ext_in. intros d' Hd'.
    apply list_elem_of_In in Hd'. apply Hl in Hd'.
    unfold sameEntity, key, instanceKey.
    assert (Hb : "|"%char ∉ replacement detection).
    { apply (proj1 (Forall_forall _ _) Hbar).
      by apply list_elem_of_lookup_2 in Ha. }
    assert (Hb' : "|"%char ∉ replacement d').
    { by apply (proj1 (Forall_forall _ _) Hbar). }
    destruct (decide (original d' = original detection)) as [Ho|Ho],
             (decide (replacement d' = replacement detection)) as [Hr|Hr].
    - rewrite Ho, Hr, !bool_decide_eq_true_2; done.
    - rewrite (bool_decide_eq_false_2 (replacement d' = _)) by done.
      rewrite andb_false_r. apply bool_decide_eq_false_2.
      intros He. by apply instanceKey_inj in He as [_ ?].
    - rewrite (bool_decide_eq_false_2 (original d' = _)) by done.
      apply bool_decide_eq_false_2.
      intros He. by apply instanceKey_inj in He as [? _].
    - rewrite (bool_decide_eq_false_2 (original d' = _)) by done.
      apply bool_decide_eq_false_2.
      intros He. by apply instanceKey_inj in He as [? _]. }
  rewrite length_keyIndices, Hsame by done. fold n.
  destruct (1 <? n); [|done].
  unfold instancePosition.
  pose proof (keyIndices_find key id detectionsArray arrayIndex detection
                (λ x y H, H) Ha eq_refl) as Hfind.
  change (id arrayIndex) with arrayIndex in Hfind. rewrite Hfind.
  rewrite Hsame.
  2:{ intros d Hd. by apply elem_of_take in Hd as (? & ?%list_elem_of_lookup_2 & _). }
  fold p. by rewrite Nat.add_1_r.
Qed.

Lemma instance_label_witness :
  Forall (λ d, "|"%char ∉ replacement d)
         [Scenario.org 0; Scenario.org 1; Scenario.org 2]
  ∧ instanceLabel [Scenario.org 0; Scenario.org 1; Scenario.org 2] 1
                  (Scenario.org 1)
    = str " (instance 2 of 3)".
Proof.
  assert (H : Forall (λ d, "|"%char ∉ replacement d)
                     [Scenario.org 0; Scenario.org 1; Scenario.org 2]).
  { repeat constructor; by_evaluation. }
  split; [exact H|].
  pose proof (instance_label_counts_the_same_entity
                [Scenario.org 0; Scenario.org 1; Scenario.org 2] 1
                (Scenario.org 1) eq_refl H) as W.
  vm_compute in W. vm_compute. exact W.
Defined.

End InstanceProperties.

Section FloatOrder.
Local Open Scope float_scope.

(** Exchanging the arguments of a comparison reverses its result. *)
Lemma SFcompare_antisym x y :
  SFcompare y x = option_map CompOpp (SFcompare x y).
Proof.
  destruct x as [s|s| |s m e], y as [s'|s'| |s' m' e']; simpl; try done;
    try (by destruct s); try (by destruct s'); try (by destruct s, s').
  destruct s, s'; try done.
  - rewrite (Z.compare_antisym e e').
    destruct (e ?= e')%Z; cbn [CompOpp]; try done.
    by rewrite (Pos.compare_cont_antisym m m' Eq).
  - rewrite (Z.compare_antisym e e').
    destruct (e ?= e')%Z; cbn [CompOpp]; try done.
    by rewrite (Pos.compare_cont_antisym m m' Eq).
Qed.

(** A number that is not NaN is below a bound exactly when the bound is
    not at most it. *)
Lemma ltb_negb_leb (x c : float) :
  is_nan x = false → is_nan c = false → (x <? c) = negb (c <=? x).
Proof.
  unfold is_nan. rewrite !FloatAxioms.eqb_spec, FloatAxioms.ltb_spec, FloatAxioms.leb_spec.
  unfold SFltb, SFleb, SFeqb. intros Hx Hc.
  rewrite (SFcompare_antisym (Prim2SF x) (Prim2SF c)).
  destruct (SFcompare (Prim2SF x) (Prim2SF c)) as [[]|] eqn:Hcmp; try done.
  exfalso.
  destruct (Prim2SF x) as [s|s| |s m e], (Prim2SF c) as [s'|s'| |s' m' e'];
    simpl in Hx, Hc, Hcmp; try done.
Qed.

Lemma Prim2SF_09 : Prim2SF 0.9 = S754_finite false 8106479329266893 (-53).
Proof. vm_compute. reflexivity. Qed.

Lemma Prim2SF_07 : Prim2SF 0.7 = S754_finite false 6305039478318694 (-53).
Proof. vm_compute. reflexivity. Qed.

(** What is at least 0.9 is at least 0.7. *)
Lemma leb_09_07 (x : float) : (0.9 <=? x) = true → (0.7 <=? x) = true.
Proof.
  rewrite !FloatAxioms.leb_spec, Prim2SF_09, Prim2SF_07.
  unfold SFleb, SFcompare.
  destruct (Prim2SF x) as [s|s| |s m e]; [exact id|exact id|exact id|].
  destruct s; [exact id|].
  destruct (-53 ?= e)%Z; [|exact id|exact id].
  change (Pos.compare_cont Eq 8106479329266893 m)
    with (8106479329266893 ?= m)%positive.
  change (Pos.compare_cont Eq 6305039478318694 m)
    with (6305039478318694 ?= m)%positive.
  destruct (Pos.compare_spec 8106479329266893 m) as [He|Hlt|Hgt].
  - intros _. subst m. reflexivity.
  - intros _.
    assert (Hm : (6305039478318694 ?= m)%positive = Lt).
    { apply Pos.compare_lt_iff. lia. }
    by rewrite Hm.
  - intros H. discriminate H.
Qed.

End FloatOrder.

Section ConfidenceProperties.
Import ResultDisplay ExportUtils.

Lemma is_nan_09 : is_nan 0.9%float = false.
Proof. vm_compute. reflexivity. Qed.

Lemma is_nan_07 : is_nan 0.7%float = false.
Proof. vm_compute. reflexivity. Qed.

(** The three tests on a confidence that is not NaN: exactly one
    holds, and it is the one the colour shows. *)
Lemma range_of_confidence d :
  is_nan (confidence d) = false →
  match getConfidenceColor (confidence d) with
  | success => isHigh d = true ∧ isMedium d = false ∧ isLow d = false
  | warning => isHigh d = false ∧ isMedium d = true ∧ isLow d = false
  | error => isHigh d = false ∧ isMedium d = false ∧ isLow d = true
  end.
Proof.
  intros Hnan. unfold getConfidenceColor, isHigh, isMedium, isLow.
  rewrite (ltb_negb_leb _ 0.9%float Hnan is_nan_09).
  rewrite (ltb_negb_leb _ 0.7%float Hnan is_nan_07).
  destruct (0.9 <=? confidence d)%float eqn:H9.
  - rewrite (leb_09_07 _ H9). done.
  - by destruct (0.7 <=? confidence d)%float.
Qed.

(** A NaN confidence passes none of the tests. *)
Lemma nan_in_no_range d :
  is_nan (confidence d) = true →
  isHigh d = false ∧ isMedium d = false ∧ isLow d = false.
Proof.
  unfold is_nan, isHigh, isMedium, isLow.
  rewrite FloatAxioms.eqb_spec, !FloatAxioms.leb_spec, !FloatAxioms.ltb_spec.
  unfold SFeqb, SFleb, SFltb.
  destruct (Prim2SF (confidence d)) as [s|s| |s m e].
  - discriminate.
  - by destruct s.
  - by rewrite Prim2SF_09, Prim2SF_07.
  - unfold SFcompare at 1. rewrite Z.compare_refl, Pos.compare_cont_refl.
    by destruct s.
Qed.

(** X16. The confidence ranges of the PDF export partition the active
    detections when every confidence is a number: every detection is in
    exactly one of High, Medium and Low, namely the one whose colour the
    result panel gives it (success, warning, error), so the three counts
    add up to the active count of the export.  A detection whose
    confidence is NaN is in none of the ranges. *)
Theorem confidence_ranges_partition_the_detections
    detections inactiveOccurrences :
  Forall (λ d, is_nan (confidence d) = false) detections →
  let ranges :=
    confidenceRanges (activeDetections detections inactiveOccurrences) in
  high ranges + medium ranges + low ranges
  = activeCount detections inactiveOccurrences
  ∧ Forall (λ d,
      (getConfidenceColor (confidence d) = success ↔ isHigh d = true)
      ∧ (getConfidenceColor (confidence d) = warning ↔ isMedium d = true)
      ∧ (getConfidenceColor (confidence d) = error ↔ isLow d = true))
      detections
  ∧ ∀ d, is_nan (confidence d) = true →
         isHigh d = false ∧ isMedium d = false ∧ isLow d = false.
Proof.
  intros Hnum ranges. unfold ranges, confidenceRanges. clear ranges.
  cbn [high medium low]. split; [|split; [|apply nan_in_no_range]].
  - assert (Hactive : Forall (λ d, is_nan (confidence d) = false)
                        (activeDetections detections inactiveOccurrences)).
    { apply Forall_forall. intros d Hd. unfold activeDetections in Hd.
      apply list_elem_of_fmap in Hd as ([idx d'] & -> & Hd).
      apply list_elem_of_In, List.filter_In in Hd as [Hd _].
      apply list_elem_of_In, elem_of_lookup_imap in Hd
        as (k & d'' & [= -> ->] & Hd).
      apply list_elem_of_lookup_2 in Hd.
      by apply (proj1 (Forall_forall _ _) Hnum). }
    replace (activeCount detections inactiveOccurrences)
      with (length (activeDetections detections inactiveOccurrences))
      by (unfold activeDetections, activeCount; apply length_fmap).
    induction Hactive as [|d l Hd _ IH]; [done|].
    pose proof (range_of_confidence d Hd) as Hr. cbn [List.filter length].
    destruct (getConfidenceColor (confidence d));
      destruct Hr as (H1 & H2 & H3); rewrite H1, H2, H3; cbn [length]; lia.
  - eapply Forall_impl; [exact Hnum|]. intros d Hd. simpl.
    pose proof (range_of_confidence d Hd) as Hr.
    destruct (getConfidenceColor (confidence d));
      destruct Hr as (-> & -> & ->); repeat split; done.
Qed.

Lemma confidence_ranges_witness :
  Forall (λ d, is_nan (confidence d) = false) Scenario.detectionsA
  ∧ (let ranges :=
       confidenceRanges
         (activeDetections Scenario.detectionsA (Some {[1]})) in
     high ranges + medium ranges + low ranges
     = activeCount Scenario.detectionsA (Some {[1]})).
Proof.
  assert (H : Forall (λ d, is_nan (confidence d) = false)
                     Scenario.detectionsA).
  { repeat constructor. }
  split; [exact H|].
  exact (proj1 (confidence_ranges_partition_the_detections
                  Scenario.detectionsA (Some {[1]}) H)).
Defined.

End ConfidenceProperties.

Section CsvFacts.
Import JsString Regex ExportUtils.

Lemma eqIgnoreCase_quote x : eqIgnoreCase quote x = Ascii.eqb quote x.
Proof. destruct x as [[] [] [] [] [] [] [] []]; reflexivity. Qed.

Lemma matchPattern_quote s :
  matchPattern false [quote] s
  = matchPattern true (escapeRegExp [quote]) s.
Proof.
  destruct s as [|x s]; [reflexivity|].
  destruct x as [[] [] [] [] [] [] [] []]; reflexivity.
Qed.

Lemma replaceEvery_quote s :
  Spec.replaceEvery [quote] [quote; quote] s = doubled s.
Proof.
  unfold Spec.replaceEvery. induction s as [|c s IH]; [done|].
  cbn [Spec.replaceEveryFrom prefixBy doubled length Nat.sub].
  rewrite eqIgnoreCase_quote, andb_true_r, Ascii.eqb_sym.
  destruct (Ascii.eqb c quote) eqn:Hc.
  - apply Ascii.eqb_eq in Hc as ->. simpl. by rewrite IH.
  - by rewrite IH.
Qed.

Lemma csvField_doubled s : csvField s = quote :: doubled s ++ [quote].
Proof.
  unfold csvField.
  assert (H : replaceGlobal (matchPattern false [quote]) [quote; quote] s
              = replaceGlobal (matchPattern true (escapeRegExp [quote]))
                              [quote; quote] s).
  { unfold replaceGlobal, matches. f_equal.
    apply scanRegex_ext. apply matchPattern_quote. }
  rewrite H, replaceGlobal_replaceEvery; [|done|by_evaluation].
  by rewrite replaceEvery_quote.
Qed.

Lemma doubled_inj a b : doubled a = doubled b → a = b.
Proof.
  revert b. induction a as [|c a IH]; intros [|c' b]; simpl.
  - done.
  - by destruct (Ascii.eqb c' quote).
  - by destruct (Ascii.eqb c quote).
  - destruct (Ascii.eqb c quote) eqn:Hc, (Ascii.eqb c' quote) eqn:Hc'.
    + intros [= -> _ H]. f_equal. by apply IH.
    + intros [= -> H]. apply Ascii.eqb_eq in Hc. subst c'.
      by rewrite Ascii.eqb_refl in Hc'.
    + intros [= -> H]. apply Ascii.eqb_eq in Hc'. subst c'.
      by rewrite Ascii.eqb_refl in Hc.
    + intros [= -> H]. f_equal. by apply IH.
Qed.

(** X17. The quoting of a text column of the CSV export loses nothing:
    the column is the text between two double quotes with every double
    quote of the text written twice, and two different texts never give
    the same column. *)
Theorem csv_field_quoting_is_injective a b :
  csvField a = quote :: doubled a ++ [quote]
  ∧ (csvField a = csvField b → a = b).
Proof.
  split; [apply csvField_doubled|].
  rewrite !csvField_doubled. intros [= H].
  apply app_inv_tail in H. by apply doubled_inj.
Qed.

End CsvFacts.

Section ExportReversalMore.
Import JsString Regex ExportReversal.

Lemma sortBy_singleton {A} (compareFn : A → A → Z) (x : A) :
  sortBy compareFn [x] = [x].
Proof. done. Qed.

(** Under the index invariant the detections whose [i] is [k] are the
    detection at index [k]. *)
Lemma filter_isInactive_singleton detections k d :
  indexInvariant detections → detections !! k = Some d →
  List.filter (isInactive {[k]}) detections = [d].
Proof.
  intros Hinv Hk.
  rewrite <- (take_drop_middle detections k d Hk).
  rewrite List.filter_app. cbn [List.filter].
  assert (Hd : isInactive {[k]} d = true).
  { unfold isInactive. rewrite (Hinv k d Hk).
    apply bool_decide_eq_true_2. set_solver. }
  rewrite Hd.
  assert (Hother : ∀ l, (∀ j x, l !! j = Some x → i x ≠ Some k) →
                        List.filter (isInactive {[k]}) l = []).
  { induction l as [|x l IH]; intros Hl; [done|]. simpl.
    assert (Hx : isInactive {[k]} x = false).
    { unfold isInactive. destruct (i x) as [j|] eqn:Hj; [|done].
      apply bool_decide_eq_false_2. intros Hin.
      apply elem_of_singleton in Hin. subst j.
      by apply (Hl 0 x). }
    rewrite Hx. apply IH. intros j y Hy. apply (Hl (S j) y Hy). }
  rewrite !Hother; [done| |].
  - intros j x Hx Hi. rewrite lookup_drop in Hx.
    pose proof (Hinv _ _ Hx) as Hj. rewrite Hi in Hj.
    injection Hj as Hj. lia.
  - intros j x Hx Hi. apply lookup_take_Some in Hx as [Hx Hlt].
    pose proof (Hinv _ _ Hx) as Hj. rewrite Hi in Hj.
    injection Hj as Hj. lia.
Qed.

Lemma nthExec_lookup results n :
  Forall (λ r, 0 < r.2) results → nthExec results n = results !! n.
Proof.
  intros Hpos. revert n.
  induction Hpos as [|[index len] results Hlen _ IH]; intros n; [done|].
  destruct n as [|n]; [done|]. simpl in *.
  destruct len; [lia|]. simpl. apply IH.
Qed.

Lemma scanRegex_matchLiteral_length p s k skip :
  Forall (λ r, r.2 = length p) (scanRegex (Tagging.matchLiteral p) s k skip).
Proof.
  revert k skip. induction s as [|c s IH]; intros k skip; simpl.
  - destruct skip; [|done]. unfold Tagging.matchLiteral.
    destruct (startsWith p []); by constructor.
  - destruct skip; [|apply IH]. unfold Tagging.matchLiteral at 1.
    destruct (startsWith p (c :: s)); [constructor; [done|]|]; apply IH.
Qed.

Lemma same_length_matches (n : nat) (results : list (nat * nat)) :
  Forall (λ r, r.2 = n) results →
  results = (λ index, (index, n)) <$> results.*1.
Proof.
  induction 1 as [|[index len] results Hr _ IH]; [done|].
  simpl in Hr. subst len. rewrite fmap_cons. cbn [fst].
  rewrite fmap_cons. by f_equal.
Qed.

(** The matches of the escaped placeholder are its occurrences. *)
Lemma matches_escaped p text :
  matches (matchPattern false (escapeRegExp p)) text
  = (λ index, (index, length p)) <$> Tagging.occurrencesOf p text.
Proof.
  unfold Tagging.occurrencesOf, matches.
  rewrite (scanRegex_ext _ (Tagging.matchLiteral p))
    by (intros s; apply matchPattern_escapeRegExp).
  apply same_length_matches, scanRegex_matchLiteral_length.
Qed.

(** The indexed entries of a list whose index is [k]. *)
Lemma filter_index_singleton (g : nat → nat) (l : list Detection) k d
    (target : nat) :
  l !! k = Some d → g k = target → (∀ j, j ≠ k → g j ≠ target) →
  List.filter (λ kd : nat * Detection,
                 bool_decide (kd.1 ∈ ({[target]} : gset nat)))
              (imap (λ j, pair (g j)) l)
  = [(target, d)].
Proof.
  assert (Hnone : ∀ (g : nat → nat) (l : list Detection),
            (∀ j, g j ≠ target) →
            List.filter (λ kd : nat * Detection,
                           bool_decide (kd.1 ∈ ({[target]} : gset nat)))
                        (imap (λ j, pair (g j)) l) = []).
  { clear. intros g l. revert g.
    induction l as [|x l IH]; intros g Hg; [done|].
    cbn [imap List.filter fst].
    rewrite bool_decide_eq_false_2 by (specialize (Hg 0); set_solver).
    apply (IH (g ∘ S)). intros j. apply Hg. }
  revert g k. induction l as [|x l IH]; intros g k Hk Hg Hother; [done|].
  cbn [imap List.filter fst]. destruct k as [|k]; simpl in Hk.
  - injection Hk as ->. rewrite Hg.
    rewrite bool_decide_eq_true_2 by set_solver. f_equal.
    apply (Hnone (g ∘ S)). intros j. apply Hother. lia.
  - rewrite bool_decide_eq_false_2.
    2:{ specialize (Hother 0 ltac:(lia)). set_solver. }
    apply (IH (g ∘ S) k Hk Hg). intros j Hj. apply Hother. lia.
Qed.

End ExportReversalMore.

Section ExportReversalProperties.
Import JsString Regex ExportReversal.

(** X18. Export reversal with one inactive occurrence [k], when the
    detections carry their array index as [i]: the occurrence number [k]
    of the placeholder of detection [k], counting all the occurrences of
    that placeholder in the text from 0, is replaced by the original, and
    the text is left as it is when the placeholder occurs [k] times or
    fewer.  This is the effective text of the specification when the
    detections before [k] all have that placeholder. *)
Theorem export_reversal_of_one_occurrence text detections k d :
  indexInvariant detections →
  detections !! k = Some d →
  replacement d ≠ [] →
  applyInactiveOccurrences text detections {[k]}
  = match Tagging.occurrencesOf (replacement d) text !! k with
    | Some index =>
      take index text ++ original d
        ++ drop (index + length (replacement d)) text
    | None => text
    end
  ∧ (Forall (λ d', replacement d' = replacement d) (take k detections) →
     applyInactiveOccurrences text detections {[k]}
     = Spec.effectiveText text detections {[k]}).
Proof.
  intros Hinv Hk Hrep.
  assert (Hcode : applyInactiveOccurrences text detections {[k]}
    = match Tagging.occurrencesOf (replacement d) text !! k with
      | Some index =>
        take index text ++ original d
          ++ drop (index + length (replacement d)) text
      | None => text
      end).
  { unfold applyInactiveOccurrences.
    rewrite (filter_isInactive_singleton detections k d Hinv Hk).
    rewrite sortBy_singleton. cbn [foldl]. unfold restoreOccurrence.
    rewrite (Hinv k d Hk). change (default 0 (Some k)) with k.
    rewrite matches_escaped.
    generalize (Tagging.occurrencesOf (replacement d) text). intros occ.
    rewrite nthExec_lookup.
    2:{ apply Forall_fmap, Forall_forall. intros index _. simpl.
        destruct (replacement d); [done|simpl; lia]. }
    rewrite list_lookup_fmap.
    destruct (occ !! k) as [index|]; simpl; [|reflexivity].
    unfold substring. by rewrite drop_0, Nat.sub_0_r. }
  split; [exact Hcode|].
  intros Hsame. rewrite Hcode. unfold Spec.effectiveText.
  assert (Hfilter :
    List.filter (λ kd : nat * Detection,
                   bool_decide (kd.1 ∈ ({[k]} : gset nat)))
                (imap pair detections) = [(k, d)]).
  { by apply (filter_index_singleton (λ j, j) detections k d k). }
  rewrite Hfilter. cbn [reverse rev_append foldl]. unfold Spec.restoreAt.
  cbn [fst snd].
  assert (Hord : Spec.ordinalAmongSame detections k d = k).
  { unfold Spec.ordinalAmongSame.
    assert (Hall : ∀ l, Forall (λ d', replacement d' = replacement d) l →
              List.filter (λ d', bool_decide (replacement d' = replacement d))
                          l = l).
    { induction 1 as [|x l Hx _ IH]; [done|]. simpl.
      by rewrite bool_decide_eq_true_2, IH. }
    rewrite Hall by done. apply length_take_le.
    apply lookup_lt_Some in Hk. lia. }
  by rewrite Hord.
Qed.

Lemma export_reversal_of_one_occurrence_witness :
  indexInvariant Scenario.detectionsA
  ∧ applyInactiveOccurrences Scenario.textA Scenario.detectionsA {[0]}
    = str "Contact John Smith at [EMAIL].".
Proof.
  split; [apply detectionsA_indexInvariant|].
  pose proof (proj1 (export_reversal_of_one_occurrence
                Scenario.textA Scenario.detectionsA 0 Scenario.johnSmith
                detectionsA_indexInvariant eq_refl ltac:(done))) as W.
  vm_compute in W. vm_compute. exact W.
Defined.

End ExportReversalProperties.

Section ClipboardProperties.
Import ChatInterface.

Lemma applyInactiveOccurrences_none text detections inactiveIndices :
  (∀ d, d ∈ detections →
        ExportReversal.isInactive inactiveIndices d = false) →
  ExportReversal.applyInactiveOccurrences text detections inactiveIndices
  = text.
Proof.
  intros Hnone. unfold ExportReversal.applyInactiveOccurrences.
  by rewrite filter_all_false.
Qed.

(** X19. Copying a message restores the originals of those detections
    only whose own [i] is in the inactive set of the message: when no
    detection has such an [i] (the set may hold other indices, and a
    detection without [i] counts for none), the text is copied as it is;
    an empty text is not copied at all. *)
Theorem copy_restores_only_detections_with_an_inactive_i
    messages st text messageIndex message detections :
  messages !! messageIndex = Some message →
  detected_pii message = Some detections →
  (∀ d k, d ∈ detections → i d = Some k →
          k ∉ Activation.inactiveOf (inactiveOccurrences st) messageIndex) →
  Clipboard.copyToClipboard messages st text (Some messageIndex)
  = (if Streaming.truthy text then Some text else None)
  ∧ Clipboard.copyToClipboard messages st text None
    = (if Streaming.truthy text then Some text else None).
Proof.
  intros Hm Hd Hnone. split; [|done].
  unfold Clipboard.copyToClipboard.
  assert (Htext : Clipboard.textToCopy messages st text (Some messageIndex)
                  = text).
  { unfold Clipboard.textToCopy. rewrite Hm. simpl. rewrite Hd.
    destruct (inactiveOccurrences st !! messageIndex) as [s|] eqn:Hs;
      [|done].
    destruct (0 <? size s); [|done].
    apply applyInactiveOccurrences_none. intros d Hin.
    unfold ExportReversal.isInactive.
    destruct (i d) as [k|] eqn:Hi; [|done].
    apply bool_decide_eq_false_2.
    specialize (Hnone d k Hin Hi).
    unfold Activation.inactiveOf in Hnone. by rewrite Hs in Hnone. }
  by rewrite Htext.
Qed.

Lemma copy_restores_witness :
  let messages := [mkMessage Scenario.textA (Some (Some Scenario.detectionsA))] in
  let st := mkState {[0 := {[5]}]} ∅ in
  (∀ d k, d ∈ Scenario.detectionsA → i d = Some k →
          k ∉ Activation.inactiveOf (inactiveOccurrences st) 0)
  ∧ Clipboard.copyToClipboard messages st Scenario.textA (Some 0)
    = Some Scenario.textA.
Proof.
  intros messages st.
  assert (H : ∀ d k, d ∈ Scenario.detectionsA → i d = Some k →
                     k ∉ Activation.inactiveOf (inactiveOccurrences st) 0).
  { intros d k Hd Hk. unfold Scenario.detectionsA in Hd.
    repeat (apply elem_of_cons in Hd as [->|Hd];
            [injection Hk as <-; by_evaluation|]).
    by apply elem_of_nil in Hd. }
  split; [exact H|].
  exact (proj1 (copy_restores_only_detections_with_an_inactive_i
                  messages st Scenario.textA 0
                  (mkMessage Scenario.textA (Some (Some Scenario.detectionsA)))
                  Scenario.detectionsA eq_refl eq_refl H)).
Defined.

End ClipboardProperties.

Section InstructionPanelProperties.
Import InstructionPanel Trim.

(** X24. The saved instructions never hold a blank text or the same
    text twice, and saving drops none of them: a text that is neither
    blank nor saved yet is appended behind the saved ones, which are
    kept in their order; a blank text or one saved already leaves the
    list as it is; so a list without blanks and without duplicates stays
    one, and saving the same text again changes nothing. *)
Theorem saved_instructions_stay_distinct instructions savedInstructions :
  NoDup savedInstructions →
  Forall (λ s, isBlank s = false) savedInstructions →
  let saved := handleSaveInstructions instructions savedInstructions in
  NoDup saved
  ∧ Forall (λ s, isBlank s = false) saved
  ∧ (isBlank instructions = false → instructions ∉ savedInstructions →
     saved = savedInstructions ++ [instructions])
  ∧ (isBlank instructions = true ∨ instructions ∈ savedInstructions →
     saved = savedInstructions)
  ∧ (isBlank instructions = false → instructions ∈ saved)
  ∧ handleSaveInstructions instructions saved = saved.
Proof.
  intros Hnodup Hblank saved. unfold saved, handleSaveInstructions.
  destruct (isBlank instructions) eqn:Hb; cbn [negb andb].
  { by repeat split. }
  destruct (decide (instructions ∈ savedInstructions)) as [Hin|Hin].
  - rewrite (bool_decide_eq_true_2 _ Hin). cbn [negb].
    rewrite (bool_decide_eq_true_2 _ Hin). by repeat split.
  - rewrite (bool_decide_eq_false_2 _ Hin). cbn [negb].
    rewrite bool_decide_eq_true_2 by set_solver. cbn [negb].
    split; [|split; [|split; [done|split; [|split; [|done]]]]].
    + apply NoDup_app. repeat split; [done| |apply NoDup_singleton].
      intros x Hx Hx'. apply list_elem_of_singleton in Hx'. by subst.
    + apply Forall_app. split; [done|]. by constructor.
    + intros [?|?]; done.
    + intros _. set_solver.
Qed.

Lemma saved_instructions_witness :
  NoDup [str "keep names"]
  ∧ Forall (λ s, isBlank s = false) [str "keep names"]
  ∧ handleSaveInstructions (str "mask dates") [str "keep names"]
    = [str "keep names"; str "mask dates"]
  ∧ NoDup (handleSaveInstructions (str "mask dates") [str "keep names"]).
Proof.
  assert (H1 : NoDup [str "keep names"]) by apply NoDup_singleton.
  assert (H2 : Forall (λ s, isBlank s = false) [str "keep names"])
    by (by repeat constructor).
  split; [exact H1|]. split; [exact H2|].
  pose proof (saved_instructions_stay_distinct (str "mask dates")
                [str "keep names"] H1 H2) as (W1 & _ & W2 & _).
  split; [|exact W1]. apply W2; [reflexivity|].
  intros Hin. apply list_elem_of_singleton in Hin. discriminate Hin.
Defined.

End InstructionPanelProperties.

Section ChatFacts.

Lemma updateMessage_length id updates prev :
  length (Chat.updateMessage id updates prev) = length prev.
Proof. apply length_fmap. Qed.

Lemma updateMessage_ids id updates prev :
  Chat.id <$> Chat.updateMessage id updates prev = Chat.id <$> prev.
Proof.
  unfold Chat.updateMessage. rewrite <- list_fmap_compose.
  apply list_fmap_ext. intros k msg _. simpl.
  by destruct (bool_decide _).
Qed.

Lemma updateMessage_unique id updates prev k msg :
  prev !! k = Some msg → Chat.id msg = id →
  (∀ j m, prev !! j = Some m → Chat.id m = id → j = k) →
  Chat.updateMessage id updates prev
  = <[k := Chat.applyUpdates msg updates]> prev.
Proof.
  intros Hk Hid Huniq. apply list_eq. intros j.
  unfold Chat.updateMessage. rewrite list_lookup_fmap.
  destruct (decide (j = k)) as [->|Hj].
  - rewrite Hk, list_lookup_insert_eq by (by eapply lookup_lt_Some).
    simpl. by rewrite bool_decide_eq_true_2.
  - rewrite list_lookup_insert_ne by done.
    destruct (prev !! j) as [m|] eqn:Hm; [|done]. simpl.
    rewrite bool_decide_eq_false_2; [done|].
    intros Hm'. by apply Hj, (Huniq j m).
Qed.

Lemma updateMessage_absent id updates prev :
  (∀ m, m ∈ prev → Chat.id m ≠ id) →
  Chat.updateMessage id updates prev = prev.
Proof.
  intros Hno. unfold Chat.updateMessage.
  rewrite <- (list_fmap_id prev) at 2. apply list_fmap_ext.
  intros k m Hm. simpl. rewrite bool_decide_eq_false_2; [done|].
  apply Hno. by eapply list_elem_of_lookup_2.
Qed.

End ChatFacts.

Section ChatProperties.

(** X20. A manual tagging or a Replace-All on the message at
    [messageIndex], whose id no other message has, replaces the content
    and the detections of that message and nothing else: the other
    fields of its reasoning, and all other messages, are as they were.
    Without a message at that index the handler throws. *)
Theorem tagging_updates_the_message_only
    messages messageIndex message originalText newText newDetections :
  messages !! messageIndex = Some message →
  (∀ j m, messages !! j = Some m → Chat.id m = Chat.id message →
          j = messageIndex) →
  Chat.handleReplace messages messageIndex originalText newText
                     (Some newDetections)
  = Some (<[messageIndex :=
             Chat.mkMessage (Chat.id message) (Chat.type message) newText
               (Chat.timestamp message)
               (Some (Chat.withDetections (Chat.reasoning message)
                                          newDetections))
               (Chat.isProcessing message)]> messages)
  ∧ Chat.handleReplaceAll messages messageIndex originalText newText
                          (Some newDetections)
    = Chat.handleReplace messages messageIndex originalText newText
                         (Some newDetections)
  ∧ Chat.handleReplace messages (length messages) originalText newText
                       (Some newDetections) = None.
Proof.
  intros Hm Huniq. split; [|split; [done|]].
  - unfold Chat.handleReplace. rewrite Hm. f_equal.
    by rewrite (updateMessage_unique _ _ _ messageIndex message).
  - unfold Chat.handleReplace. by rewrite lookup_ge_None_2.
Qed.

Lemma tagging_updates_the_message_witness :
  let question := Chat.mkMessage (str "1-a") Chat.user (str "Hi Ann") 1
                                 None None in
  let answer := Chat.mkMessage (str "2-b") Chat.assistant (str "Hi Ann") 2
                  (Some (Chat.mkReasoning (Some (str "no name")) (Some [])
                           (Some 1.5%float) (Some 1) None None None None))
                  (Some false) in
  let detection :=
    Tagging.manualDetection (str "name") (str "Ann") (str "[NAME_1]") 0 in
  (∀ j m, [question; answer] !! j = Some m → Chat.id m = Chat.id answer →
          j = 1)
  ∧ Chat.handleReplace [question; answer] 1 (str "Ann") (str "Hi [NAME_1]")
                       (Some [detection])
    = Some [question;
            Chat.mkMessage (str "2-b") Chat.assistant (str "Hi [NAME_1]") 2
              (Some (Chat.mkReasoning (Some (str "no name"))
                       (Some [detection]) (Some 1.5%float) (Some 1)
                       None None None None))
              (Some false)].
Proof.
  intros question answer detection.
  assert (H : ∀ j m, [question; answer] !! j = Some m →
                     Chat.id m = Chat.id answer → j = 1).
  { intros [|[|j]] m Hj Hid; [|done|done].
    injection Hj as <-. discriminate Hid. }
  split; [exact H|].
  exact (proj1 (tagging_updates_the_message_only [question; answer] 1
                  answer (str "Ann") (str "Hi [NAME_1]") [detection]
                  eq_refl H)).
Defined.

End ChatProperties.

Section StreamFacts.
Import Stream.

Lemma streamLoop_prefix {S} (onChunk : Chunk → S → S) model processingTime
    pre rest failure fullContent thinking s :
  Forall (λ chunk, isTerminal chunk = false) pre →
  streamLoop onChunk model processingTime (pre ++ rest) failure
             fullContent thinking s
  = streamLoop onChunk model processingTime rest failure
               (fullContent ++ streamed pre) (thinking ++ thought pre)
               (foldl (λ s chunk, onChunk chunk s) s pre).
Proof.
  intros Hpre. revert fullContent thinking s.
  induction Hpre as [|chunk pre Hc _ IH]; intros fullContent thinking s.
  - unfold streamed, thought. simpl. by rewrite !app_nil_r.
  - cbn [app streamLoop foldl].
    destruct chunk; try done; rewrite IH; unfold streamed, thought;
      cbn [fmap list_fmap mjoin list_join];
      by rewrite ?app_nil_l, ?app_assoc.
Qed.

(** Updating by the id of the last message, which no other message
    has. *)
Lemma updateMessage_last id updates old (u am : Chat.Message) :
  (∀ m, m ∈ old → Chat.id m ≠ id) → Chat.id u ≠ id → Chat.id am = id →
  Chat.updateMessage id updates (old ++ [u; am])
  = old ++ [u; Chat.applyUpdates am updates].
Proof.
  intros Hold Hu Ham. unfold Chat.updateMessage.
  rewrite fmap_app. f_equal.
  - rewrite <- (list_fmap_id old) at 2. apply list_fmap_ext.
    intros k m Hm. simpl. rewrite bool_decide_eq_false_2; [done|].
    apply Hold. by eapply list_elem_of_lookup_2.
  - simpl. rewrite bool_decide_eq_false_2 by done.
    by rewrite bool_decide_eq_true_2.
Qed.

(** While no terminal chunk has come, the callback adds the content to
    [streamingContent] and keeps the assistant message in processing. *)
Lemma onChunk_prefix assistantId old u now' pre v content :
  (∀ m, m ∈ old → Chat.id m ≠ assistantId) →
  Chat.id u ≠ assistantId →
  Forall (λ chunk, isTerminal chunk = false) pre →
  ∃ v' content',
    foldl (λ s chunk, onChunk assistantId chunk s)
          (v, old ++ [u; Chat.mkMessage assistantId Chat.assistant content
                                        now' None (Some true)])
          pre
    = (v', old ++ [u; Chat.mkMessage assistantId Chat.assistant content'
                                     now' None (Some true)])
    ∧ streamingContent v' = streamingContent v ++ streamed pre.
Proof.
  intros Hold Hu Hpre. revert v content.
  induction Hpre as [|chunk pre Hc _ IH]; intros v content.
  - exists v, content. unfold streamed. simpl. by rewrite app_nil_r.
  - cbn [foldl].
    destruct chunk as [c|c|msg| | |]; try done;
      cbn [onChunk]; rewrite ?updateMessage_last by done;
      unfold Chat.applyUpdates; cbn;
      match goal with
      | |- context [foldl _ (?v0, old ++ [u; Chat.mkMessage _ _ ?c0 _ _ _]) pre] =>
        destruct (IH v0 c0) as (v' & content' & Hfold & Hs)
      end;
      exists v', content'; (split; [exact Hfold|]);
      rewrite Hs; unfold streamed; cbn;
      by rewrite ?app_assoc.
Qed.

End StreamFacts.

Section StreamProperties.
Import Stream.

Lemma find_isTerminal_prefix pre chunk post :
  Forall (λ chunk, isTerminal chunk = false) pre →
  isTerminal chunk = true →
  find isTerminal (pre ++ chunk :: post) = Some chunk.
Proof.
  intros Hpre Hc. induction Hpre as [|c pre Hn _ IH]; simpl.
  - by rewrite Hc.
  - by rewrite Hn.
Qed.

Lemma find_isTerminal_none pre :
  Forall (λ chunk, isTerminal chunk = false) pre →
  find isTerminal pre = None.
Proof.
  intros Hpre. induction Hpre as [|c pre Hn _ IH]; simpl; [done|].
  by rewrite Hn.
Qed.

(** X21. A submission whose stream reaches a [complete] chunk: the
    user message and the assistant message are appended, the assistant
    message ends with the content chosen from the chunk or rebuilt from
    the streamed text, with the reasoning of the chunk (its processing
    time filled in when it has none) and out of processing; the hook is
    out of processing without error and keeps the text of the response;
    the input is cleared.  Whatever the stream holds behind the chunk is
    never read.  The ids of the two new messages are supposed distinct
    from one another and from the ids in use. *)
Theorem completed_stream_stores_the_final_content
    customInstructions selectedModel userId assistantId now now'
    processingTime pre anonymizedText reasoning post failure before :
  Trim.isBlank (inputText before) = false →
  isProcessing (hook before) = false →
  userId ≠ assistantId →
  (∀ m, m ∈ messages before → Chat.id m ≠ assistantId) →
  Forall (λ chunk, isTerminal chunk = false) pre →
  let result :=
    handleSubmit customInstructions selectedModel userId assistantId
      now now' processingTime
      (pre ++ CompleteChunk anonymizedText reasoning :: post) failure before in
  messages result
  = messages before
      ++ [ Chat.mkMessage userId Chat.user (inputText before) now
             (if Streaming.truthy customInstructions
              then Some (Chat.mkReasoning None None None None None None None
                                          (Some customInstructions))
              else None)
             None;
           Chat.mkMessage assistantId Chat.assistant
             (Streaming.contentToStore anonymizedText
                (reasoning ≫= Chat.detected_pii) (streamed pre))
             now' (fillProcessingTime processingTime <$> reasoning)
             (Some false) ]
  ∧ isProcessing (hook result) = false
  ∧ error (hook result) = None
  ∧ anonymized_text <$> lastResponse (hook result)
    = Some (orElse anonymizedText (streamed pre))
  ∧ inputText result = [].
Proof.
  intros Hblank Hproc Hids Hold Hpre result.
  set (u := Chat.mkMessage userId Chat.user _ _ _ _).
  set (am := Chat.mkMessage assistantId Chat.assistant _ _ _ _).
  assert (Hresult : result
    = mkApp (messages before ++ [u; am])
            (mkHookState false None
               (Some (response anonymizedText reasoning (streamed pre)
                               (thought pre) (Some selectedModel)
                               processingTime)))
            []).
  { unfold result, handleSubmit.
    set (processing := str "Processing your request...").
    rewrite Hblank, Hproc. cbn [orb]. unfold anonymizeTextStream.
    rewrite Hblank. unfold Chat.addMessage. rewrite <- app_assoc.
    cbn [app]. fold u.
    rewrite updateMessage_last by done.
    unfold Chat.applyUpdates at 1.
    cbn [Chat.id Chat.type Chat.content Chat.timestamp Chat.reasoning
         Chat.isProcessing Chat.newContent Chat.newReasoning
         Chat.newIsProcessing default].
    rewrite streamLoop_prefix by done.
    destruct (onChunk_prefix assistantId (messages before) u now' pre
                (mkClosure [] [] [] [] false [])
                processing Hold Hids Hpre)
      as (v' & content' & Hfold & Hs).
    rewrite Hfold. cbn [streamLoop onChunk app].
    rewrite updateMessage_last by done.
    unfold seenThroughMessage, sharedReasoning.
    rewrite (find_isTerminal_prefix pre
               (CompleteChunk anonymizedText reasoning) post Hpre eq_refl).
    cbn [streamingContent] in Hs. rewrite app_nil_l in Hs. rewrite Hs.
    unfold Chat.applyUpdates at 1.
    cbn [Chat.id Chat.type Chat.content Chat.timestamp Chat.reasoning
         Chat.isProcessing Chat.newContent Chat.newReasoning
         Chat.newIsProcessing default].
    destruct reasoning as [r|]; [|done].
    by rewrite updateMessage_last. }
  rewrite Hresult. cbn [messages hook inputText isProcessing error
                        lastResponse].
  repeat split.
Qed.

Lemma completed_stream_witness :
  let before := mkApp [] (mkHookState false None None)
                      (str "hello John") in
  let pre := [StatusChunk (str "chunk 1/1"); ThinkingChunk (str "a name");
              ContentChunk (str "hello "); ContentChunk (str "[NAME_1]")] in
  let result :=
    handleSubmit [] (str "qwen3:8b") (str "u1") (str "a1") 1 2 1.5%float
      (pre ++ CompleteChunk None None :: [ContentChunk (str "late")])
      None before in
  Trim.isBlank (inputText before) = false
  ∧ Forall (λ chunk, isTerminal chunk = false) pre
  ∧ Chat.content <$> messages result
    = [str "hello John"; str "hello [NAME_1]"]
  ∧ isProcessing (hook result) = false.
Proof.
  intros before pre result.
  assert (Hblank : Trim.isBlank (inputText before) = false)
    by reflexivity.
  assert (Hids : str "u1" ≠ str "a1") by discriminate.
  assert (Hold : ∀ m, m ∈ messages before → Chat.id m ≠ str "a1")
    by (intros m Hm; by apply elem_of_nil in Hm).
  assert (Hpre : Forall (λ chunk, isTerminal chunk = false) pre)
    by (by repeat constructor).
  split; [exact Hblank|]. split; [exact Hpre|].
  pose proof (completed_stream_stores_the_final_content
                [] (str "qwen3:8b") (str "u1") (str "a1") 1 2 1.5%float
                pre None None [ContentChunk (str "late")] None before
                Hblank eq_refl Hids Hold Hpre) as W.
  destruct W as (W1 & W2 & _). split; [|exact W2].
  unfold result. rewrite W1. reflexivity.
Defined.

(** X22. A submission whose stream reaches an [error] chunk: the
    assistant message ends with the text Error and the message of the
    chunk, out of processing and without reasoning, and the hook is out
    of processing with the message of the chunk as its error (a default
    one when the chunk has none).  Whatever the stream holds behind the
    chunk is never read. *)
Theorem error_chunk_ends_the_stream
    customInstructions selectedModel userId assistantId now now'
    processingTime pre message post failure before :
  Trim.isBlank (inputText before) = false →
  isProcessing (hook before) = false →
  userId ≠ assistantId →
  (∀ m, m ∈ messages before → Chat.id m ≠ assistantId) →
  Forall (λ chunk, isTerminal chunk = false) pre →
  let result :=
    handleSubmit customInstructions selectedModel userId assistantId
      now now' processingTime (pre ++ ErrorChunk message :: post)
      failure before in
  last (messages result)
  = Some (Chat.mkMessage assistantId Chat.assistant
            (str "Error: " ++ template message) now' None (Some false))
  ∧ length (messages result) = length (messages before) + 2
  ∧ isProcessing (hook result) = false
  ∧ error (hook result) = Some (orElse message (str "Streaming failed")).
Proof.
  intros Hblank Hproc Hids Hold Hpre result.
  set (u := Chat.mkMessage userId Chat.user (inputText before) now
              (if Streaming.truthy customInstructions
               then Some (Chat.mkReasoning None None None None None None
                            None (Some customInstructions))
               else None) None).
  set (am := Chat.mkMessage assistantId Chat.assistant
               (str "Error: " ++ template message) now' None (Some false)).
  assert (Hresult : result
    = mkApp (messages before ++ [u; am])
            (mkHookState false
               (Some (orElse (Some (orElse message (str "Streaming failed")))
                             (str "Failed to anonymize text")))
               (lastResponse (hook before)))
            []).
  { unfold result, handleSubmit.
    set (processing := str "Processing your request...").
    rewrite Hblank, Hproc. cbn [orb]. unfold anonymizeTextStream.
    rewrite Hblank. unfold Chat.addMessage. rewrite <- app_assoc.
    cbn [app]. fold u.
    rewrite updateMessage_last by done.
    unfold Chat.applyUpdates at 1.
    cbn [Chat.id Chat.type Chat.content Chat.timestamp Chat.reasoning
         Chat.isProcessing Chat.newContent Chat.newReasoning
         Chat.newIsProcessing default].
    rewrite streamLoop_prefix by done.
    destruct (onChunk_prefix assistantId (messages before) u now' pre
                (mkClosure [] [] [] [] false [])
                processing Hold Hids Hpre)
      as (v' & content' & Hfold & Hs).
    rewrite Hfold. cbn [streamLoop onChunk app].
    rewrite updateMessage_last by done.
    unfold seenThroughMessage, sharedReasoning.
    rewrite (find_isTerminal_prefix pre (ErrorChunk message) post Hpre
               eq_refl).
    done. }
  rewrite Hresult. cbn [messages hook inputText isProcessing error
                        lastResponse].
  split; [|split; [|split; [done|]]].
  - replace (messages before ++ [u; am])
      with ((messages before ++ [u]) ++ [am]) by (by rewrite <- app_assoc).
    apply last_snoc.
  - rewrite length_app. simpl. lia.
  - f_equal. unfold orElse. destruct message as [[|c m]|]; done.
Qed.

Lemma error_chunk_witness :
  let before := mkApp [] (mkHookState false None None)
                      (str "hello John") in
  let pre := [StatusChunk (str "chunk 1/1"); ThinkingChunk (str "a name");
              ContentChunk (str "hello "); ContentChunk (str "[NAME_1]")] in
  let result :=
    handleSubmit [] (str "qwen3:8b") (str "u1") (str "a1") 1 2 1.5%float
      (pre ++ ErrorChunk (Some (str "model not found"))
           :: [ContentChunk (str "late")])
      None before in
  Trim.isBlank (inputText before) = false
  ∧ Forall (λ chunk, isTerminal chunk = false) pre
  ∧ last (messages result)
    = Some (Chat.mkMessage (str "a1") Chat.assistant
              (str "Error: model not found") 2 None (Some false))
  ∧ error (hook result) = Some (str "model not found").
Proof.
  intros before pre result.
  assert (Hblank : Trim.isBlank (inputText before) = false)
    by reflexivity.
  assert (Hids : str "u1" ≠ str "a1") by discriminate.
  assert (Hold : ∀ m, m ∈ messages before → Chat.id m ≠ str "a1")
    by (intros m Hm; by apply elem_of_nil in Hm).
  assert (Hpre : Forall (λ chunk, isTerminal chunk = false) pre)
    by (by repeat constructor).
  split; [exact Hblank|]. split; [exact Hpre|].
  pose proof (error_chunk_ends_the_stream
                [] (str "qwen3:8b") (str "u1") (str "a1") 1 2 1.5%float
                pre (Some (str "model not found"))
                [ContentChunk (str "late")] None before
                Hblank eq_refl Hids Hold Hpre) as W.
  destruct W as (W1 & _ & _ & W2). split; [exact W1|exact W2].
Defined.

(** X23. A submission whose stream holds neither a [complete] nor an
    [error] chunk leaves the assistant message in processing.  When the
    stream simply ends, the hook stays in processing as well, so that
    every later submission is ignored, whatever text is typed; when the
    stream fails, the hook is
    out of processing and holds the message of the failure (a default one
    when it is empty). *)
Theorem stream_without_terminal_chunk_stays_in_processing
    customInstructions selectedModel userId assistantId now now'
    processingTime chunks failure before :
  Trim.isBlank (inputText before) = false →
  isProcessing (hook before) = false →
  userId ≠ assistantId →
  (∀ m, m ∈ messages before → Chat.id m ≠ assistantId) →
  Forall (λ chunk, isTerminal chunk = false) chunks →
  let result :=
    handleSubmit customInstructions selectedModel userId assistantId
      now now' processingTime chunks failure before in
  (∃ message, last (messages result) = Some message
              ∧ Chat.id message = assistantId
              ∧ Chat.isProcessing message = Some true)
  ∧ match failure with
    | None =>
      isProcessing (hook result) = true
      ∧ ∀ text instructions model userId' assistantId' t t' duration
          chunks' failure',
          let typed := mkApp (messages result) (hook result) text in
          handleSubmit instructions model userId' assistantId' t t'
                       duration chunks' failure' typed = typed
    | Some message =>
      isProcessing (hook result) = false
      ∧ error (hook result)
        = Some (orElse (Some message) (str "Failed to anonymize text"))
    end.
Proof.
  intros Hblank Hproc Hids Hold Hpre result.
  set (u := Chat.mkMessage userId Chat.user (inputText before) now
              (if Streaming.truthy customInstructions
               then Some (Chat.mkReasoning None None None None None None
                            None (Some customInstructions))
               else None) None).
  assert (Hresult : ∃ content, result
    = mkApp (messages before
               ++ [u; Chat.mkMessage assistantId Chat.assistant content
                                     now' None (Some true)])
            (match failure with
             | Some message =>
               mkHookState false
                 (Some (orElse (Some message)
                               (str "Failed to anonymize text")))
                 (lastResponse (hook before))
             | None => mkHookState true None (lastResponse (hook before))
             end)
            []).
  { unfold result, handleSubmit.
    set (processing := str "Processing your request...").
    rewrite Hblank, Hproc. cbn [orb]. unfold anonymizeTextStream.
    rewrite Hblank. unfold Chat.addMessage. rewrite <- app_assoc.
    cbn [app]. fold u.
    rewrite updateMessage_last by done.
    unfold Chat.applyUpdates at 1.
    cbn [Chat.id Chat.type Chat.content Chat.timestamp Chat.reasoning
         Chat.isProcessing Chat.newContent Chat.newReasoning
         Chat.newIsProcessing default].
    match goal with
    | |- context [streamLoop ?f ?m ?t chunks ?fl ?fc ?th ?s] =>
      pose proof (streamLoop_prefix f m t chunks [] fl fc th s Hpre) as Hloop
    end.
    rewrite app_nil_r in Hloop. rewrite Hloop. clear Hloop.
    destruct (onChunk_prefix assistantId (messages before) u now' chunks
                (mkClosure [] [] [] [] false [])
                processing Hold Hids Hpre)
      as (v' & content' & Hfold & Hs).
    rewrite Hfold. cbn [streamLoop].
    unfold seenThroughMessage, sharedReasoning.
    rewrite (find_isTerminal_none chunks Hpre).
    exists content'. destruct failure; reflexivity. }
  destruct Hresult as [content Hresult]. rewrite Hresult.
  cbn [messages hook]. split.
  - exists (Chat.mkMessage assistantId Chat.assistant content now' None
                           (Some true)).
    split; [|done].
    replace (messages before ++ [u; Chat.mkMessage assistantId Chat.assistant
                                      content now' None (Some true)])
      with ((messages before ++ [u])
              ++ [Chat.mkMessage assistantId Chat.assistant content now'
                                 None (Some true)])
      by (by rewrite <- app_assoc).
    apply last_snoc.
  - destruct failure as [message|]; cbn [isProcessing error]; [done|].
    split; [done|]. intros. cbv zeta. unfold handleSubmit.
    cbn [hook isProcessing inputText]. by rewrite orb_true_r.
Qed.

Lemma stream_without_terminal_chunk_witness :
  let before := mkApp [] (mkHookState false None None)
                      (str "hello John") in
  let pre := [StatusChunk (str "chunk 1/1"); ThinkingChunk (str "a name");
              ContentChunk (str "hello "); ContentChunk (str "[NAME_1]")] in
  let result :=
    handleSubmit [] (str "qwen3:8b") (str "u1") (str "a1") 1 2 1.5%float
      pre None before in
  Trim.isBlank (inputText before) = false
  ∧ Forall (λ chunk, isTerminal chunk = false) pre
  ∧ isProcessing (hook result) = true
  ∧ (let typed := mkApp (messages result) (hook result) (str "again") in
     handleSubmit [] (str "qwen3:8b") (str "u2") (str "a2") 3 4 1.5%float
       [CompleteChunk None None] None typed = typed).
Proof.
  intros before pre result.
  assert (Hblank : Trim.isBlank (inputText before) = false)
    by reflexivity.
  assert (Hids : str "u1" ≠ str "a1") by discriminate.
  assert (Hold : ∀ m, m ∈ messages before → Chat.id m ≠ str "a1")
    by (intros m Hm; by apply elem_of_nil in Hm).
  assert (Hpre : Forall (λ chunk, isTerminal chunk = false) pre)
    by (by repeat constructor).
  split; [exact Hblank|]. split; [exact Hpre|].
  pose proof (stream_without_terminal_chunk_stays_in_processing
                [] (str "qwen3:8b") (str "u1") (str "a1") 1 2 1.5%float
                pre None before Hblank eq_refl Hids Hold Hpre) as W.
  destruct W as (_ & W1 & W2). split; [exact W1|]. apply W2.
Defined.

End StreamProperties.
